(** * html2pdf-backend: the browser pool and its admission control

    A shallow embedding of [BrowserPoolService]
    (src/pdf/services/pdf.service.ts, the multi-browser variant) together
    with the properties of its admission queue, page cache and browser
    bookkeeping.

    The service is an object living on a single-threaded event loop: every
    method runs without interruption until it reaches an [await], where it
    is parked until the awaited operation settles.  The embedding follows
    that shape.  A [World] holds the fields of the service, the part of the
    rendering engine the service can observe ([isClosed], [isConnected],
    the listeners it registered) and the parked continuations; [step]
    executes one uninterrupted segment, triggered by an [Event].

    - Every [await] of the service is a point where other segments may
      run.  Consecutive awaits with no access to the service's fields in
      between (the awaits inside [configurePage] and
      [resetPageForReuse], the hops of a settled promise) are one parking
      point.  Two hops are kept as parking points of their own: the
      caller's await of [replaceUnhealthyBrowser] ([TReplaced]) and the
      [finally] block of [getPage] after [createNewPage] has settled
      ([TSettled]).  The code runs them in the microtasks that follow
      the operation before them, ahead of any other event, so the
      embedding has every interleaving of the code and some more: what
      is proved of every run holds of the code, and the runs exhibited
      below resume these two continuations right after the operation
      before them.
    - The engine decides whether an awaited operation resolves or
      rejects: [EResume] carries that outcome.  A resolved [page.close()]
      closes the page, and a page that closes emits "close" once, which
      runs the listener [configurePage] installed.  The "disconnected"
      and "targetdestroyed" events of a browser, and pages closing on the
      engine's side, are events of their own that may arrive at any time;
      a resolved [browser.close()] also disconnects the browser.
    - Objects are shared by reference in the source.  A [BrowserInstance]
      is identified by the engine process it wraps, a [PagePoolItem] by
      its page, and mutations through a reference held by a continuation
      reach the object wherever it is.
    - [onModuleDestroy] and [restartBrowsers] are not part of the event
      loop below; [getBrowserStatus] reads the fields and changes
      nothing.

    The second part embeds [PdfService], the client of the pool, with
    [retryOperation], [PdfError] and the metrics it updates. *)

From Stdlib Require Import String.
From Stdlib Require Import ZArith List Bool Arith Lia Permutation.
From Stdlib Require DecimalString.
Import ListNotations.
Local Open Scope Z_scope.

Set Implicit Arguments.

(** ** Array helpers

    The JavaScript array methods the service relies on. *)

Section ArrayOps.
Context {A : Type}.

(** [Array.prototype.findIndex]; [None] stands for [-1]. *)
Fixpoint findIndex (f : A -> bool) (l : list A) : option nat :=
  match l with
  | [] => None
  | x :: l' => if f x then Some O else option_map S (findIndex f l')
  end.

(** In-place mutation of the object stored at index [i]. *)
Fixpoint updateAt (i : nat) (g : A -> A) (l : list A) : list A :=
  match l, i with
  | [], _ => []
  | x :: l', O => g x :: l'
  | x :: l', S i' => x :: updateAt i' g l'
  end.

(** [l.splice(i, 1)]. *)
Fixpoint splice1 (i : nat) (l : list A) : list A :=
  match l, i with
  | [], _ => []
  | _ :: l', O => l'
  | x :: l', S i' => x :: splice1 i' l'
  end.
End ArrayOps.

(** ** Configuration constants of the service *)

Definition maxBrowsers : nat := 3.
Definition maxPagesPerBrowser : Z := 8.
Definition browserMaxAge : Z := 10 * 60 * 1000.
Definition maxConcurrentRequests : Z := 10.
Definition pagePoolSize : nat := 8.
Definition maxPageAge : Z := 5 * 60 * 1000.

(** Their values only matter where a proof says so. *)
Lemma maxConcurrentRequests_value : maxConcurrentRequests = 10.
Proof. reflexivity. Qed.
Lemma maxPagesPerBrowser_value : maxPagesPerBrowser = 8.
Proof. reflexivity. Qed.
Lemma pagePoolSize_value : pagePoolSize = 8%nat.
Proof. reflexivity. Qed.

Global Opaque maxPagesPerBrowser browserMaxAge maxConcurrentRequests pagePoolSize maxPageAge.

(** ** Data model *)

(** Objects of the rendering engine are compared by identity in the
    source ([item.page === page], [indexOf]); they are numbered here. *)
Abbreviation Page := nat (only parsing).
Abbreviation Browser := nat (only parsing).
(** The promise a [getPage] call hands to its caller. *)
Abbreviation ReqId := nat (only parsing).
Abbreviation TaskId := nat (only parsing).

(** [interface BrowserInstance].  An instance wraps exactly one engine
    process, so [browser] also serves as the identity of the instance. *)
Record BrowserInstance := mkBrowserInstance {
  browser : Browser;
  browserId : nat * Z;          (* `browser_${index}_${Date.now()}` *)
  activePages : Z;
  createdAt : Z;
  lastUsed : Z;
  isHealthy : bool
}.

(** [interface PagePoolItem]; the [id] string is only logged.  An item is
    built once, for a page that was just created, so the page identifies
    the item. *)
Record PagePoolItem := mkPagePoolItem {
  page : Page;
  itemCreatedAt : Z;
  itemLastUsed : Z;
  isLocked : bool
}.

(** [interface PendingRequest]: [resolve] and [reject] settle the promise
    of the queued caller. *)
Record PendingRequest := mkPendingRequest {
  resolve : ReqId;
  timestamp : Z;
  priority : Z
}.

Inductive Error :=
| NoHealthyBrowsers       (* "No healthy browser instances available" *)
| NewPageFailed           (* browser.newPage() rejected *)
| ConfigurePageFailed.    (* configurePage rethrew *)

Inductive Result :=
| Resolved (p : Page)
| Rejected (e : Error).

(** What runs after [replaceUnhealthyBrowser] returns. *)
Inductive AfterReplace :=
| RetryCreate (r : ReqId)               (* createNewPage: return this.createNewPage() *)
| NextToReplace (rest : list Browser).  (* performBrowserHealthCheck: rest of browsersToReplace *)

(** A parked continuation, named after the [await] it is parked on. *)
Inductive Task :=
| TBrowserClose (b : Browser) (k : AfterReplace)
    (* replaceUnhealthyBrowser: await browserInstance.browser.close() *)
| TLaunch (index : nat) (k : option AfterReplace)
    (* createBrowserInstance: await puppeteer.launch(...);
       [None] when started by initializeBrowsers *)
| TReplaced (k : AfterReplace)
    (* the caller's await this.replaceUnhealthyBrowser(...) *)
| TNewPage (r : ReqId) (b : Browser)
    (* createNewPage: await bestBrowser.browser.newPage() *)
| TConfigurePage (r : ReqId) (b : Browser) (p : Page)
    (* createNewPage: await this.configurePage(page) *)
| TSettled (r : ReqId) (res : Result)
    (* getPage: return await this.createNewPage(), settled with [res];
       the finally block has not run yet *)
| TReset (p : Page)
    (* returnPageToPool: await this.resetPageForReuse(pageItem.page) *)
| TPageClose (p : Page) (rest : list Page)
    (* closePage / removePageFromPool: await page.close(); [rest] is what
       cleanupPagePool still has to remove, [[]] on the closePage path *)
| TCleanup (rest : list Page).
    (* cleanupPagePool: await this.removePageFromPool(...) returned *)

(** The fields of [BrowserPoolService]. *)
Record Pool := mkPool {
  browsers : list BrowserInstance;
  activeRequests : Z;
  requestQueue : list PendingRequest;
  pagePool : list PagePoolItem
}.

(** The part of the engine and of the runtime the service observes. *)
Record Engine := mkEngine {
  dateNow : Z;                          (* Date.now() *)
  disconnected : list Browser;          (* browser.isConnected() is false *)
  closedPages : list Page;              (* page.isClosed() is true *)
  closeListeners : list Page;           (* pages carrying configurePage's "close" listener *)
  pageOwner : list (Page * Browser);    (* the browser each page was opened in *)
  nextPage : Page;
  nextBrowser : Browser;
  retired : list BrowserInstance        (* instances spliced out of [browsers],
                                           still referenced by closures *)
}.

(** Bookkeeping of the embedding: who was granted a slot, in which order,
    what each caller received and which pages callers currently hold. *)
Record Ghost := mkGhost {
  nextReq : ReqId;
  grantLog : list ReqId;                (* order in which slots were taken *)
  selectLog : list ReqId;               (* one entry per selectBestBrowser call of createNewPage *)
  settled : list (ReqId * Result);      (* results delivered to callers *)
  held : list Page                      (* pages handed out and not yet released *)
}.

Record World := mkWorld {
  pool : Pool;
  engine : Engine;
  tasks : list (TaskId * Task);
  nextTask : TaskId;
  ghost : Ghost
}.

(** *** Field updates *)

Definition withPool (f : Pool -> Pool) (w : World) : World :=
  mkWorld (f (pool w)) (engine w) (tasks w) (nextTask w) (ghost w).
Definition withEngine (f : Engine -> Engine) (w : World) : World :=
  mkWorld (pool w) (f (engine w)) (tasks w) (nextTask w) (ghost w).
Definition withGhost (f : Ghost -> Ghost) (w : World) : World :=
  mkWorld (pool w) (engine w) (tasks w) (nextTask w) (f (ghost w)).

Definition setBrowsers (v : list BrowserInstance) (p : Pool) : Pool :=
  mkPool v (activeRequests p) (requestQueue p) (pagePool p).
Definition setActiveRequests (v : Z) (p : Pool) : Pool :=
  mkPool (browsers p) v (requestQueue p) (pagePool p).
Definition setRequestQueue (v : list PendingRequest) (p : Pool) : Pool :=
  mkPool (browsers p) (activeRequests p) v (pagePool p).
Definition setPagePool (v : list PagePoolItem) (p : Pool) : Pool :=
  mkPool (browsers p) (activeRequests p) (requestQueue p) v.

Definition setActivePages (v : Z) (b : BrowserInstance) : BrowserInstance :=
  mkBrowserInstance (browser b) (browserId b) v (createdAt b) (lastUsed b) (isHealthy b).
Definition setLastUsed (v : Z) (b : BrowserInstance) : BrowserInstance :=
  mkBrowserInstance (browser b) (browserId b) (activePages b) (createdAt b) v (isHealthy b).
Definition setIsHealthy (v : bool) (b : BrowserInstance) : BrowserInstance :=
  mkBrowserInstance (browser b) (browserId b) (activePages b) (createdAt b) (lastUsed b) v.

Definition setLock (locked : bool) (now : Z) (it : PagePoolItem) : PagePoolItem :=
  mkPagePoolItem (page it) (itemCreatedAt it) now locked.

(** The constructor state: no browsers, no requests, empty cache. *)
Definition initial : World :=
  mkWorld (mkPool [] 0 [] [])
          (mkEngine 0 [] [] [] [] O O [])
          [] O
          (mkGhost O [] [] [] []).

(** ** Observations of the engine *)

Definition memb (n : nat) (l : list nat) : bool := existsb (Nat.eqb n) l.

(** [browser.isConnected()] *)
Definition isConnected (w : World) (b : Browser) : bool :=
  negb (memb b (disconnected (engine w))).

(** [page.isClosed()] *)
Definition isClosed (w : World) (p : Page) : bool :=
  memb p (closedPages (engine w)).

(** ** Scheduling *)

(** Reaching an [await]: the continuation is parked under a fresh id. *)
Definition park (t : Task) (w : World) : World :=
  mkWorld (pool w) (engine w) (tasks w ++ [(nextTask w, t)]) (S (nextTask w)) (ghost w).

Fixpoint lookupTask (t : TaskId) (l : list (TaskId * Task)) : option Task :=
  match l with
  | [] => None
  | (t', k) :: l' => if Nat.eqb t' t then Some k else lookupTask t l'
  end.

Fixpoint dropTask (t : TaskId) (l : list (TaskId * Task)) : list (TaskId * Task) :=
  match l with
  | [] => []
  | (t', k) :: l' => if Nat.eqb t' t then l' else (t', k) :: dropTask t l'
  end.

Definition unpark (t : TaskId) (w : World) : World :=
  mkWorld (pool w) (engine w) (dropTask t (tasks w)) (nextTask w) (ghost w).

(** ** Bookkeeping of the embedding *)

Definition logGrant (r : ReqId) (g : Ghost) : Ghost :=
  mkGhost (nextReq g) (grantLog g ++ [r]) (selectLog g) (settled g) (held g).
Definition logSelect (r : ReqId) (g : Ghost) : Ghost :=
  mkGhost (nextReq g) (grantLog g) (selectLog g ++ [r]) (settled g) (held g).
Definition newRequest (g : Ghost) : Ghost :=
  mkGhost (S (nextReq g)) (grantLog g) (selectLog g) (settled g) (held g).
Definition setHeld (v : list Page) (g : Ghost) : Ghost :=
  mkGhost (nextReq g) (grantLog g) (selectLog g) (settled g) v.

(** The promise of request [r] settles; a resolved page is now in the
    caller's hands. *)
Definition deliver (r : ReqId) (res : Result) (g : Ghost) : Ghost :=
  mkGhost (nextReq g) (grantLog g) (selectLog g) (settled g ++ [(r, res)])
          match res with
          | Resolved p => p :: held g
          | Rejected _ => held g
          end.
Definition settle (r : ReqId) (res : Result) (w : World) : World :=
  withGhost (deliver r res) w.

(** The caller hands [p] back. *)
Fixpoint removeOne (p : Page) (l : list Page) : list Page :=
  match l with
  | [] => []
  | q :: l' => if Nat.eqb q p then l' else q :: removeOne p l'
  end.
Definition giveBack (p : Page) (w : World) : World :=
  withGhost (fun g => setHeld (removeOne p (held g)) g) w.

(** ** Browser bookkeeping *)

(** Mutation of the instance wrapping [b], wherever it is referenced from. *)
Definition onInstance (b : Browser) (f : BrowserInstance -> BrowserInstance)
    (l : list BrowserInstance) : list BrowserInstance :=
  map (fun x => if Nat.eqb (browser x) b then f x else x) l.

Definition updateInstance (b : Browser) (f : BrowserInstance -> BrowserInstance)
    (w : World) : World :=
  mkWorld (setBrowsers (onInstance b f (browsers (pool w))) (pool w))
          (mkEngine (dateNow (engine w)) (disconnected (engine w))
                    (closedPages (engine w)) (closeListeners (engine w))
                    (pageOwner (engine w)) (nextPage (engine w))
                    (nextBrowser (engine w))
                    (onInstance b f (retired (engine w))))
          (tasks w) (nextTask w) (ghost w).

(** The loop shared by the page "close" listener, [closePage] and
    [removePageFromPool]:
<<
    for (const browserInstance of this.browsers) {
      if (browserInstance.browser.isConnected()) {
        browserInstance.activePages = Math.max(0, browserInstance.activePages - 1);
        break;
      }
    }
>> *)
Fixpoint decrementFirstConnected (gone : list Browser) (bs : list BrowserInstance)
    : list BrowserInstance :=
  match bs with
  | [] => []
  | browserInstance :: bs' =>
      if negb (memb (browser browserInstance) gone)
      then setActivePages (Z.max 0 (activePages browserInstance - 1)) browserInstance :: bs'
      else browserInstance :: decrementFirstConnected gone bs'
  end.

(** That loop, run on [this.browsers]. *)
Definition updatePageCount (w : World) : World :=
  withPool (fun p =>
    setBrowsers (decrementFirstConnected (disconnected (engine w)) (browsers p)) p) w.

(** The engine reports that [b] is gone; the "disconnected" listener of
    createBrowserInstance marks the instance unhealthy. *)
Definition browserDisconnects (b : Browser) (w : World) : World :=
  updateInstance b (setIsHealthy false)
    (withEngine (fun e =>
       mkEngine (dateNow e) (b :: disconnected e) (closedPages e) (closeListeners e)
                (pageOwner e) (nextPage e) (nextBrowser e) (retired e)) w).

(** The "targetdestroyed" listener of createBrowserInstance. *)
Definition targetDestroyed (b : Browser) (w : World) : World :=
  updateInstance b (fun bi => setActivePages (Z.max 0 (activePages bi - 1)) bi) w.

(** Page [p] closes: [isClosed()] turns true and the engine emits "close"
    once, which runs the listener configurePage installed. *)
Definition pageCloses (p : Page) (w : World) : World :=
  if isClosed w p then w
  else
    let w1 := withEngine (fun e =>
      mkEngine (dateNow e) (disconnected e) (p :: closedPages e) (closeListeners e)
               (pageOwner e) (nextPage e) (nextBrowser e) (retired e)) w in
    if memb p (closeListeners (engine w)) then updatePageCount w1 else w1.

(** [selectBestBrowser]: [filter] then [reduce] without an initial value. *)
Definition selectBestBrowser (bs : list BrowserInstance) : option BrowserInstance :=
  match filter isHealthy bs with
  | [] => None
  | first :: others =>
      Some (fold_left
              (fun best current =>
                 if activePages current <? activePages best then current else best)
              others first)
  end.

(** [replaceUnhealthyBrowser] up to its first [await]. *)
Definition replaceUnhealthyBrowser (b : Browser) (k : AfterReplace) (w : World) : World :=
  park (TBrowserClose b k) w.

(** [replaceUnhealthyBrowser] once [browser.close()] has resolved:
    [indexOf] and [splice].  The instance stays referenced by its
    listeners and by whoever selected it. *)
Definition replaceUnhealthyBrowser_afterClose (b : Browser) (w : World) : World :=
  match findIndex (fun x => Nat.eqb (browser x) b) (browsers (pool w)) with
  | None => w
  | Some index =>
      mkWorld (setBrowsers (splice1 index (browsers (pool w))) (pool w))
              (mkEngine (dateNow (engine w)) (disconnected (engine w))
                        (closedPages (engine w)) (closeListeners (engine w))
                        (pageOwner (engine w)) (nextPage (engine w))
                        (nextBrowser (engine w))
                        (firstn 1 (skipn index (browsers (pool w))) ++ retired (engine w)))
              (tasks w) (nextTask w) (ghost w)
  end.

(** [createBrowserInstance] once [puppeteer.launch] has resolved. *)
Definition createBrowserInstance_afterLaunch (index : nat) (w : World) : World :=
  let now := dateNow (engine w) in
  let browserInstance :=
    mkBrowserInstance (nextBrowser (engine w)) (index, now) 0 now now true in
  mkWorld (setBrowsers (browsers (pool w) ++ [browserInstance]) (pool w))
          (mkEngine now (disconnected (engine w)) (closedPages (engine w))
                    (closeListeners (engine w)) (pageOwner (engine w))
                    (nextPage (engine w)) (S (nextBrowser (engine w)))
                    (retired (engine w)))
          (tasks w) (nextTask w) (ghost w).

(** [createBrowserInstance] has returned or thrown: inside
    [replaceUnhealthyBrowser], which catches, the caller's await is next,
    parked as [TReplaced] although the code reaches it without yielding
    to another event; inside [initializeBrowsers] nothing follows. *)
Definition afterLaunch (k : option AfterReplace) (w : World) : World :=
  match k with
  | Some k' => park (TReplaced k') w
  | None => w
  end.

(** [createNewPage] up to its first [await]. *)
Definition createNewPage (r : ReqId) (w0 : World) : World :=
  let w := withGhost (logSelect r) w0 in
  match selectBestBrowser (browsers (pool w)) with
  | None => park (TSettled r (Rejected NoHealthyBrowsers)) w
  | Some bestBrowser =>
      if activePages bestBrowser >=? maxPagesPerBrowser
      then replaceUnhealthyBrowser (browser bestBrowser) (RetryCreate r) w
      else park (TNewPage r (browser bestBrowser)) w
  end.

(** [createNewPage] once [newPage()] has resolved with a fresh page. *)
Definition createNewPage_afterNewPage (b : Browser) (w : World) : World :=
  let now := dateNow (engine w) in
  let p := nextPage (engine w) in
  updateInstance b (fun bi => setLastUsed now (setActivePages (activePages bi + 1) bi))
    (withEngine (fun e =>
       mkEngine (dateNow e) (disconnected e) (closedPages e) (closeListeners e)
                ((p, b) :: pageOwner e) (S (nextPage e)) (nextBrowser e) (retired e)) w).

(** [createNewPage] once [configurePage] has resolved: the "close"
    listener is in place and the page joins the pool if there is room. *)
Definition createNewPage_afterConfigurePage (p : Page) (w : World) : World :=
  let now := dateNow (engine w) in
  let w1 := withEngine (fun e =>
    mkEngine (dateNow e) (disconnected e) (closedPages e) (p :: closeListeners e)
             (pageOwner e) (nextPage e) (nextBrowser e) (retired e)) w in
  if (length (pagePool (pool w1)) <? pagePoolSize)%nat
  then withPool (fun pl =>
         setPagePool (pagePool pl ++ [mkPagePoolItem p now now true]) pl) w1
  else w1.

(** [getPooledPage] *)
Definition getPooledPage (w : World) : option (Page * World) :=
  let now := dateNow (engine w) in
  match findIndex
          (fun item => negb (isLocked item) && (now - itemLastUsed item <? maxPageAge))
          (pagePool (pool w)) with
  | None => None
  | Some availablePageIndex =>
      match nth_error (pagePool (pool w)) availablePageIndex with
      | None => None
      | Some pageItem =>
          Some (page pageItem,
                withPool (fun pl =>
                  setPagePool (updateAt availablePageIndex (setLock true now) (pagePool pl)) pl) w)
      end
  end.

(** ** Admission *)

(** [this.requestQueue.push(pendingRequest)] *)
Definition enqueue (r : ReqId) (w : World) : World :=
  withPool (fun p =>
    setRequestQueue (requestQueue p ++ [mkPendingRequest r (dateNow (engine w)) 1]) p) w.

(** [this.activeRequests++] *)
Definition takeSlot (r : ReqId) (w : World) : World :=
  withGhost (logGrant r) (withPool (fun p => setActiveRequests (activeRequests p + 1) p) w).

(** [this.activeRequests--] *)
Definition releaseSlot (w : World) : World :=
  withPool (fun p => setActiveRequests (activeRequests p - 1) p) w.

(** [processNextQueuedRequest], with the [getPage] it calls abstracted. *)
Definition processNextQueuedRequest_with
    (getPage : ReqId -> World -> option World) (w : World) : option World :=
  match requestQueue (pool w) with
  | [] => Some w
  | nextRequest :: rest =>
      if activeRequests (pool w) <? maxConcurrentRequests
      then getPage (resolve nextRequest) (withPool (setRequestQueue rest) w)
      else Some w
  end.

(** [getPage] up to its first [await], on behalf of the promise [r].  A
    cache hit returns without awaiting, so the [finally] block runs in the
    same segment and calls [getPage] again for the head of the queue; the
    depth of that chain is bounded by [fuel], [None] meaning it ran out. *)
Fixpoint getPage_fuel (fuel : nat) (r : ReqId) (w : World) : option World :=
  match fuel with
  | O => None
  | S fuel' =>
      if activeRequests (pool w) >=? maxConcurrentRequests
      then Some (enqueue r w)
      else
        let w1 := takeSlot r w in
        match getPooledPage w1 with
        | Some (pooledPage, w2) =>
            option_map (settle r (Resolved pooledPage))
              (processNextQueuedRequest_with (getPage_fuel fuel') (releaseSlot w2))
        | None => Some (createNewPage r w1)
        end
  end.

Definition getPage (r : ReqId) (w : World) : option World :=
  getPage_fuel (S (length (requestQueue (pool w)))) r w.

Definition processNextQueuedRequest (w : World) : option World :=
  processNextQueuedRequest_with
    (getPage_fuel (length (requestQueue (pool w)))) w.

(** The [finally] block of [getPage], then the promise settles. *)
Definition getPage_finally (r : ReqId) (res : Result) (w : World) : option World :=
  option_map (settle r res) (processNextQueuedRequest (releaseSlot w)).

(** ** Release *)

(** [removePageFromPool] has returned: [cleanupPagePool] goes on with
    the next page after its await, [closePage] is done. *)
Definition afterRemove (rest : list Page) (w : World) : World :=
  match rest with
  | [] => w
  | _ :: _ => park (TCleanup rest) w
  end.

(** [removePageFromPool] up to its [await]. *)
Definition removePageFromPool (p : Page) (rest : list Page) (w : World) : World :=
  let w1 :=
    match findIndex (fun item => Nat.eqb (page item) p) (pagePool (pool w)) with
    | Some index => withPool (fun pl => setPagePool (splice1 index (pagePool pl)) pl) w
    | None => w
    end in
  if negb (isClosed w1 p) then park (TPageClose p rest) w1 else afterRemove rest w1.

(** [returnPageToPool] once [resetPageForReuse] has resolved. *)
Definition returnPageToPool_afterReset (p : Page) (w : World) : World :=
  let now := dateNow (engine w) in
  withPool (fun pl =>
    setPagePool
      (map (fun item => if Nat.eqb (page item) p then setLock false now item else item)
           (pagePool pl)) pl) w.

(** [closePage] up to its first [await]. *)
Definition closePage (p : Page) (w : World) : World :=
  match find (fun item => Nat.eqb (page item) p) (pagePool (pool w)) with
  | Some pageItem => park (TReset (page pageItem)) w
  | None => if negb (isClosed w p) then park (TPageClose p []) w else w
  end.

(** ** Sweeps *)

Definition cleanupLoop (pagesToRemove : list Page) (w : World) : World :=
  match pagesToRemove with
  | [] => w
  | p :: rest => removePageFromPool p rest w
  end.

(** [cleanupPagePool] up to its first [await]. *)
Definition cleanupPagePool (w : World) : World :=
  let now := dateNow (engine w) in
  let pagesToRemove :=
    map page
      (filter (fun pageItem =>
                 (now - itemCreatedAt pageItem >? maxPageAge)
                 || ((now - itemLastUsed pageItem >? maxPageAge) && negb (isLocked pageItem)))
              (pagePool (pool w))) in
  cleanupLoop pagesToRemove w.

Definition healthCheckLoop (browsersToReplace : list Browser) (w : World) : World :=
  match browsersToReplace with
  | [] => w
  | b :: rest => replaceUnhealthyBrowser b (NextToReplace rest) w
  end.

(** [performBrowserHealthCheck] up to its first [await]. *)
Definition performBrowserHealthCheck (w : World) : World :=
  let now := dateNow (engine w) in
  let browsersToReplace :=
    flat_map
      (fun bi =>
         (if (now - createdAt bi >? browserMaxAge)
             || ((now - lastUsed bi >? browserMaxAge) && (activePages bi =? 0))
          then [browser bi] else [])
         ++ (if negb (isHealthy bi) then [browser bi] else []))
      (browsers (pool w)) in
  healthCheckLoop browsersToReplace w.

(** [initializeBrowsers] up to [await Promise.all(...)]. *)
Definition initializeBrowsers (w : World) : World :=
  match browsers (pool w) with
  | _ :: _ => w
  | [] => fold_left (fun w' index => park (TLaunch index None) w') (seq 0 maxBrowsers) w
  end.

(** ** Status *)

(** The object [getBrowserStatus] returns. *)
Record BrowserStatus := mkBrowserStatus {
  isInitialized : bool;
  statusActiveRequests : Z;
  statusMaxConcurrentRequests : Z;
  browsersCount : nat;
  healthyBrowsers : nat;
  totalActivePages : Z;
  statusPagePoolSize : nat;
  pagePoolActive : nat;
  queueSize : nat
}.

(** [getBrowserStatus] *)
Definition getBrowserStatus (p : Pool) : BrowserStatus :=
  let totalActivePages :=
    fold_left (fun sum browser => sum + activePages browser) (browsers p) 0 in
  let healthyBrowsers := length (filter isHealthy (browsers p)) in
  mkBrowserStatus
    (0 <? length (browsers p))%nat
    (activeRequests p)
    maxConcurrentRequests
    (length (browsers p))
    healthyBrowsers
    totalActivePages
    pagePoolSize
    (length (pagePool p))
    (length (requestQueue p)).

(** ** The event loop *)

Inductive Event :=
| EInit                               (* onModuleInit *)
| EGetPage                            (* a caller invokes getPage() *)
| EClosePage (p : Page)               (* a caller invokes closePage(p) *)
| EResume (t : TaskId) (ok : bool)    (* the operation task [t] awaits settles *)
| EDisconnected (b : Browser)         (* browser "disconnected" *)
| ETargetDestroyed (b : Browser)      (* browser "targetdestroyed" *)
| EPageClosed (p : Page)              (* a page closes on the engine's side *)
| ECleanupPagePool                    (* the 2 minute timer *)
| EHealthCheck                        (* the 3 minute timer *)
| ETick (ms : nat).                   (* time passes *)

(** The segment that runs when the awaited operation of [k] resolves
    ([ok = true]) or rejects. *)
Definition resume (k : Task) (ok : bool) (w : World) : option World :=
  match k with
  | TBrowserClose b after =>
      if ok then
        let w1 := replaceUnhealthyBrowser_afterClose b (browserDisconnects b w) in
        Some (park (TLaunch (length (browsers (pool w1))) (Some after)) w1)
      else Some (park (TReplaced after) w)
  | TLaunch index after =>
      if ok then Some (afterLaunch after (createBrowserInstance_afterLaunch index w))
      else Some (afterLaunch after w)
  | TReplaced (RetryCreate r) => Some (createNewPage r w)
  | TReplaced (NextToReplace rest) => Some (healthCheckLoop rest w)
  | TNewPage r b =>
      if ok then
        Some (park (TConfigurePage r b (nextPage (engine w)))
                   (createNewPage_afterNewPage b w))
      else Some (park (TSettled r (Rejected NewPageFailed)) w)
  | TConfigurePage r b p =>
      if ok then Some (park (TSettled r (Resolved p)) (createNewPage_afterConfigurePage p w))
      else Some (park (TSettled r (Rejected ConfigurePageFailed)) w)
  | TSettled r res => getPage_finally r res w
  | TReset p =>
      if ok then Some (returnPageToPool_afterReset p w)
      else Some (removePageFromPool p [] w)
  | TPageClose p rest =>
      if ok then Some (afterRemove rest (updatePageCount (pageCloses p w)))
      else Some (afterRemove rest w)
  | TCleanup rest => Some (cleanupLoop rest w)
  end.

Definition tick (ms : nat) (w : World) : World :=
  withEngine (fun e =>
    mkEngine (dateNow e + Z.of_nat ms) (disconnected e) (closedPages e) (closeListeners e)
             (pageOwner e) (nextPage e) (nextBrowser e) (retired e)) w.

Definition step (w : World) (e : Event) : option World :=
  match e with
  | EInit => Some (initializeBrowsers w)
  | EGetPage => getPage (nextReq (ghost w)) (withGhost newRequest w)
  | EClosePage p => Some (closePage p (giveBack p w))
  | EResume t ok =>
      match lookupTask t (tasks w) with
      | Some k => resume k ok (unpark t w)
      | None => Some w
      end
  | EDisconnected b => Some (browserDisconnects b w)
  | ETargetDestroyed b => Some (targetDestroyed b w)
  | EPageClosed p => Some (pageCloses p w)
  | ECleanupPagePool => Some (cleanupPagePool w)
  | EHealthCheck => Some (performBrowserHealthCheck w)
  | ETick ms => Some (tick ms w)
  end.

Fixpoint run (w : World) (es : list Event) : option World :=
  match es with
  | [] => Some w
  | e :: es' =>
      match step w e with
      | Some w' => run w' es'
      | None => None
      end
  end.

(** The states the service can be in: those some sequence of events leads
    to from the constructor state. *)
Inductive reachable : World -> Prop :=
| reachable_initial : reachable initial
| reachable_step w e w' : reachable w -> step w e = Some w' -> reachable w'.

(** * The conversion service

    [PdfService] (src/pdf/services/pdf.service.ts, the variant built on
    the pool) is the client of [getPage] and [closePage].  Its methods
    are sequential: each awaits one operation after the other, so a call
    is a function of the answers it receives.  A method is embedded as a
    computation that logs every call it makes on its collaborators and
    asks [Answers] for the outcome of each awaited operation. *)

(** ** Values *)

(** [interface PdfErrorContext]; [cause] is stored and never read. *)
Record PdfErrorContext := mkPdfErrorContext {
  url : option string;
  stage : option string;
  httpStatus : option Z;
  httpStatusText : option string;
  contentType : option string
}.

(** What a [throw] or a rejected promise carries. *)
Inductive Thrown :=
| BadRequestException (message : string)
| PdfError (message : string) (context : PdfErrorContext)
| JsError (message : string)
    (* any other instance of Error; its [message] is a string, as the
       type [Error] declares *)
| NotAnError (isObject : bool) (text : string) (json : option string).
    (* a value that is no Error: [text] is String(v); for an object
       [json] is what JSON.stringify(v) returns, a string or undefined
       ([None], as for an object whose toJSON returns undefined), or
       Object.prototype.toString.call(v) where JSON.stringify throws *)

(** What [page.goto] resolves with, as far as the service reads it. *)
Record Response := mkResponse {
  status : Z;
  statusText : string;
  responseContentType : option string    (* response.headers()["content-type"] *)
}.

Abbreviation Bytes := (list Byte.byte) (only parsing).

(** ** JavaScript strings *)

(** [String.prototype.includes] *)
Fixpoint includes (searchString s : string) : bool :=
  prefix searchString s
  || match s with
     | EmptyString => false
     | String _ s' => includes searchString s'
     end.

Arguments includes : simpl never.

(** [`${n}`] for an integer. *)
Definition numberToString (n : Z) : string :=
  DecimalString.NilZero.string_of_int (Z.to_int n).

(** Truthiness of an optional string and of an optional number. *)
Definition truthyString (s : option string) : bool :=
  match s with
  | Some s' => negb (s' =? EmptyString)%string
  | None => false
  end.
Definition truthyNumber (n : option Z) : bool :=
  match n with
  | Some n' => negb (n' =? 0)
  | None => false
  end.

(** The text of an optional string, empty when it is absent. *)
Definition orEmpty (s : option string) : string :=
  match s with
  | Some s' => s'
  | None => EmptyString
  end.

(** [error instanceof Error ? error.message : String(error)] *)
Definition messageOrString (error : Thrown) : string :=
  match error with
  | BadRequestException message | PdfError message _ | JsError message => message
  | NotAnError _ text _ => text
  end.

(** The [errorMessage] the catch blocks of the conversions compute;
    [None] is undefined. *)
Definition describeError (error : Thrown) : option string :=
  match error with
  | BadRequestException message | PdfError message _ | JsError message => Some message
  | NotAnError isObject text json => if isObject then json else Some text
  end.

(** The TypeError of [errorMessage.includes(...)] when [errorMessage] is
    undefined. *)
Definition includesOfUndefined : Thrown :=
  JsError "Cannot read properties of undefined (reading 'includes')".

(** [PdfError.prototype.toString] (src/pdf/errors/pdf.error.ts) *)
Definition PdfError_toString (message : string) (context : PdfErrorContext) : string :=
  let parts := [message] in
  let parts :=
    if truthyString (stage context)
    then parts ++ [("Stage: " ++ orEmpty (stage context))%string] else parts in
  let parts :=
    if truthyString (url context)
    then parts ++ [("URL: " ++ orEmpty (url context))%string] else parts in
  let parts :=
    if truthyNumber (httpStatus context)
    then parts ++ [("HTTP Status: "
                    ++ match httpStatus context with
                       | Some n => numberToString n
                       | None => EmptyString
                       end
                    ++ " "
                    ++ (if truthyString (httpStatusText context)
                        then orEmpty (httpStatusText context) else EmptyString))%string]
    else parts in
  let parts :=
    if truthyString (contentType context)
    then parts ++ [("Content-Type: " ++ orEmpty (contentType context))%string]
    else parts in
  String.concat " | " parts.

(** ** Collaborators *)

(** The calls a conversion makes on [PrometheusService], on
    [BrowserPoolService], on the page it obtained and on the runtime.  The
    timer [startConversion] returns is named by its [type] label. *)
Inductive Call :=
| StartConversion (type : string)
| RecordError (type error : string)
| EndConversion (timer status : string)
| GetPage
| ClosePage (p : Page)
| WaitForPageLoad (p : Page) (input : option string)
| SetContent (p : Page) (html : string)
| Goto (p : Page) (input : string)
| Pdf (p : Page)
| SetTimeout (ms : Z).

(** The outcome of every operation a conversion awaits.  An operation is
    identified by the number of calls made before it, so the same
    operation may answer differently each time it is tried. *)
Record Answers := mkAnswers {
  newURL : string -> bool;                 (* does [new URL(input)] succeed *)
  getPage_answer : nat -> Thrown + Page;
  waitForPageLoad_answer : nat -> option Thrown;
  setContent_answer : nat -> option Thrown;
  goto_answer : nat -> Thrown + option Response;
  pdf_answer : nat -> Thrown + Bytes
}.

(** The running method: the calls made so far and its local variable
    [page]. *)
Record Frame := mkFrame {
  calls : list Call;
  pageVar : option Page
}.

Inductive Outcome (A : Type) :=
| Returned (a : A)
| Threw (error : Thrown).
Arguments Threw {A} error.

Definition M (A : Type) : Type := Answers -> Frame -> Outcome A * Frame.

Definition ret {A : Type} (a : A) : M A := fun _ s => (Returned a, s).

Definition bind {A B : Type} (m : M A) (k : A -> M B) : M B :=
  fun o s =>
    match m o s with
    | (Returned a, s') => k a o s'
    | (Threw error, s') => (Threw error, s')
    end.

Notation "'let*' x ':=' m 'in' k" := (bind m (fun x => k))
  (at level 10, x name, m at level 100, k at level 200).
Notation "m ';;' k" := (bind m (fun _ => k))
  (at level 100, k at level 200, right associativity).

Definition throw {A : Type} (error : Thrown) : M A := fun _ s => (Threw error, s).

(** [try { body } catch (error) { handler }] *)
Definition tryCatch {A : Type} (body : M A) (handler : Thrown -> M A) : M A :=
  fun o s =>
    match body o s with
    | (Returned a, s') => (Returned a, s')
    | (Threw error, s') => handler error o s'
    end.

(** [try { body } finally { finalizer }] *)
Definition tryFinally {A : Type} (body : M A) (finalizer : M unit) : M A :=
  fun o s =>
    match body o s with
    | (outcome, s') =>
        match finalizer o s' with
        | (Returned _, s'') => (outcome, s'')
        | (Threw error, s'') => (Threw error, s'')
        end
    end.

Definition logCall (c : Call) (s : Frame) : Frame :=
  mkFrame (calls s ++ [c]) (pageVar s).

(** A call that cannot fail: the methods of [PrometheusService],
    [closePage], whose body is one try/catch, and [setTimeout]. *)
Definition call (c : Call) : M unit := fun _ s => (Returned tt, logCall c s).

(** An awaited operation that resolves or rejects. *)
Definition await {A : Type} (c : Call) (answer : Answers -> nat -> Thrown + A) : M A :=
  fun o s =>
    (match answer o (length (calls s)) with
     | inl error => Threw error
     | inr a => Returned a
     end,
     logCall c s).

Definition unitAnswer (answer : Answers -> nat -> option Thrown)
    : Answers -> nat -> Thrown + unit :=
  fun o n =>
    match answer o n with
    | Some error => inl error
    | None => inr tt
    end.

(** [new URL(input)] returns ([true]) or throws. *)
Definition parseURL (input : string) : M bool := fun o s => (Returned (newURL o input), s).

Definition readPage : M (option Page) := fun _ s => (Returned (pageVar s), s).
Definition writePage (p : Page) : M unit :=
  fun _ s => (Returned tt, mkFrame (calls s) (Some p)).

(** A method call on a fresh frame. *)
Definition invoke {A : Type} (m : M A) (o : Answers) : Outcome A * list Call :=
  let (outcome, s) := m o (mkFrame [] None) in (outcome, calls s).

(** ** [retryOperation] *)

(** The loop of [retryOperation], entered with [remaining] iterations to
    go:
<<
    for (let attempt = 1; attempt <= maxRetries; attempt++) {
      try { const result = await operation(); return result; }
      catch (error) {
        lastError = new Error(errorMessage);
        if (attempt < maxRetries) { await sleep(delay); delay *= 2; }
      }
    }
    throw lastError;
>> *)
Fixpoint retryLoop {T : Type} (operation : M T) (remaining : nat)
    (attempt maxRetries delay : Z) (lastError : Thrown) : M T :=
  match remaining with
  | O => throw lastError
  | S remaining' =>
      tryCatch operation
        (fun error =>
           let errorMessage := messageOrString error in
           let lastError := JsError errorMessage in
           if attempt <? maxRetries
           then call (SetTimeout delay) ;;
                retryLoop operation remaining' (attempt + 1) maxRetries (delay * 2) lastError
           else retryLoop operation remaining' (attempt + 1) maxRetries delay lastError)
  end.

Definition retryOperation {T : Type} (operation : M T) (maxRetries delay : Z) : M T :=
  retryLoop operation (Z.to_nat maxRetries) 1 maxRetries delay
    (JsError "Operation failed after all retries").

(** ** The conversions *)

(** The operation both conversions hand to [retryOperation] to print the
    page; [input] is the [url] of the context, absent for HTML. *)
Definition generatePdf (input : option string) : M Bytes :=
  tryCatch
    (let* page := readPage in
     match page with
     | None => throw (JsError "Page is not available")
     | Some p =>
         let* result := await (Pdf p) pdf_answer in
         ret result
     end)
    (fun pdfError =>
       let errorMessage := messageOrString pdfError in
       throw (PdfError ("PDF generation failed: " ++ errorMessage)
                (mkPdfErrorContext input (Some "pdf_generation"%string) None None None))).

(** The [finally] block of both conversions; the timer is the one
    [startConversion] returned. *)
Definition releasePage (timer : string) : M unit :=
  let* page := readPage in
  match page with
  | Some p => call (ClosePage p)
  | None => ret tt
  end ;;
  call (EndConversion timer "success").

(** The catch block of [convertHtmlToPdf].  Its first use of
    [errorMessage] as a string is [errorMessage.includes(...)], which
    throws when [errorMessage] is undefined. *)
Definition convertHtmlToPdf_catch (error : Thrown) : M Bytes :=
  let errorMessage := describeError error in
  match error with
  | BadRequestException _ => throw error
  | PdfError message context =>
      throw (BadRequestException (PdfError_toString message context))
  | _ =>
      match errorMessage with
      | None => throw includesOfUndefined
      | Some errorMessage =>
          if includes "net::ERR_CONNECTION_TIMED_OUT" errorMessage
          then throw (BadRequestException
                 "Operation timed out. The content might be too large or complex.")
          else if includes "net::ERR_FAILED" errorMessage
          then throw (BadRequestException
                 "Failed to process HTML content. Please check if the HTML is valid.")
          else if includes "net::ERR_ABORTED" errorMessage
          then throw (BadRequestException
                 "Operation was aborted. Please try again with simpler HTML content.")
          else throw (BadRequestException
                        ("Failed to convert HTML to PDF: " ++ errorMessage))
      end
  end.

(** The try block of [convertHtmlToPdf] from the point where it has its
    page. *)
Definition convertHtmlToPdf_withPage (html : string) (p : Page) : M Bytes :=
  await (SetContent p html) (unitAnswer setContent_answer) ;;
  await (WaitForPageLoad p None) (unitAnswer waitForPageLoad_answer) ;;
  let* pdf := retryOperation (generatePdf None) 2 500 in
  ret pdf.

(** [convertHtmlToPdf]; [html] is a string, so [!html] holds of the
    empty string only. *)
Definition convertHtmlToPdf (html : string) : M Bytes :=
  call (StartConversion "html") ;;
  tryFinally
    (tryCatch
       ((if (html =? EmptyString)%string
         then call (RecordError "html" "Invalid HTML content") ;;
              throw (BadRequestException "Invalid HTML content")
         else ret tt) ;;
        let* p := await GetPage getPage_answer in
        writePage p ;;
        convertHtmlToPdf_withPage html p)
       convertHtmlToPdf_catch)
    (releasePage "html").

(** The operation [convertUrlToPdf] hands to [retryOperation] to load
    the page. *)
Definition navigate (input : string) : M Response :=
  tryCatch
    (let* page := readPage in
     match page with
     | None => throw (JsError "Page is not available")
     | Some p =>
         let* response := await (Goto p input) goto_answer in
         match response with
         | None => throw (JsError "Navigation failed: No response received")
         | Some response =>
             let status := status response in
             (if (status <? 200) || (status >=? 400)
              then throw (PdfError
                            ("Navigation failed: HTTP " ++ numberToString status
                             ++ " - " ++ statusText response)
                            (mkPdfErrorContext (Some input) (Some "navigation"%string)
                               (Some status) (Some (statusText response))
                               (responseContentType response)))
              else ret tt) ;;
             await (WaitForPageLoad p (Some input)) (unitAnswer waitForPageLoad_answer) ;;
             ret response
         end
     end)
    (fun navError =>
       let errorMessage := messageOrString navError in
       throw (PdfError ("Navigation failed: " ++ errorMessage)
                (mkPdfErrorContext (Some input) (Some "navigation"%string) None None None))).

(** The catch block of [convertUrlToPdf]; as in [convertHtmlToPdf],
    [errorMessage.includes(...)] throws when [errorMessage] is
    undefined, before the error is recorded. *)
Definition convertUrlToPdf_catch (error : Thrown) : M Bytes :=
  let errorMessage := describeError error in
  match error with
  | BadRequestException _ => throw error
  | _ =>
      match errorMessage with
      | None => throw includesOfUndefined
      | Some errorMessage =>
          if includes "net::ERR_NAME_NOT_RESOLVED" errorMessage
          then throw (BadRequestException
                 "Could not resolve the domain name. Please check if the URL is correct.")
          else if includes "net::ERR_CONNECTION_TIMED_OUT" errorMessage
          then throw (BadRequestException
                 "Connection timed out. The website might be down or blocking access.")
          else if includes "net::ERR_CONNECTION_REFUSED" errorMessage
          then throw (BadRequestException
                 "Connection was refused. The website might be blocking access.")
          else if includes "socket hang up" errorMessage
          then throw (BadRequestException
                 "Connection was unexpectedly closed. The website might be blocking automated access. Try again in a few minutes.")
          else call (RecordError "url" errorMessage) ;;
               throw (BadRequestException
                        ("Failed to convert URL to PDF: " ++ errorMessage))
      end
  end.

(** The try block of [convertUrlToPdf] from the point where it has its
    page. *)
Definition convertUrlToPdf_withPage (input : string) (p : Page) : M Bytes :=
  retryOperation (navigate input) 3 1000 ;;
  await (WaitForPageLoad p (Some input)) (unitAnswer waitForPageLoad_answer) ;;
  let* pdf := retryOperation (generatePdf (Some input)) 2 500 in
  ret pdf.

(** [convertUrlToPdf] *)
Definition convertUrlToPdf (input : string) : M Bytes :=
  call (StartConversion "url") ;;
  tryFinally
    (tryCatch
       (let* valid := parseURL input in
        (if valid
         then ret tt
         else call (RecordError "url" "Invalid URL format") ;;
              throw (BadRequestException "Invalid URL format")) ;;
        let* p := await GetPage getPage_answer in
        writePage p ;;
        convertUrlToPdf_withPage input p)
       convertUrlToPdf_catch)
    (releasePage "url").

(** ** [PrometheusService] *)

(** The metrics of src/health/services/prometheus.service.ts: the gauge
    as a number, the histogram and the counters as the list of their
    samples, each with its labels. *)
Record Metrics := mkMetrics {
  activeConversions : Z;                          (* pdf_conversion_active *)
  pdfConversionDuration : list string;            (* label: type *)
  pdfConversionTotal : list (string * string);    (* labels: type, status *)
  pdfConversionErrors : list (string * string)    (* labels: type, error *)
}.

(** [startConversion(type)]; the timer it returns observes into the
    histogram when it is called. *)
Definition startConversion (type : string) (m : Metrics) : Metrics :=
  mkMetrics (activeConversions m + 1) (pdfConversionDuration m)
            (pdfConversionTotal m) (pdfConversionErrors m).

(** [endConversion(timer, status)] *)
Definition endConversion (timer status : string) (m : Metrics) : Metrics :=
  mkMetrics (activeConversions m - 1) (pdfConversionDuration m ++ [timer])
            (pdfConversionTotal m ++ [("total"%string, status)]) (pdfConversionErrors m).

(** [recordError(type, error)] *)
Definition recordError (type error : string) (m : Metrics) : Metrics :=
  mkMetrics (activeConversions m) (pdfConversionDuration m)
            (pdfConversionTotal m) (pdfConversionErrors m ++ [(type, error)]).

(** The effect of a logged call on the metrics. *)
Definition record (m : Metrics) (c : Call) : Metrics :=
  match c with
  | StartConversion type => startConversion type m
  | EndConversion timer status => endConversion timer status m
  | RecordError type error => recordError type error m
  | _ => m
  end.

(** * Vocabulary of the properties

    Projections of the state, the invariants proved below and the
    protocol callers follow. *)

(** The fields admission control reads and writes. *)
Definition admission (w : World) : Z * list PendingRequest * list ReqId * ReqId :=
  (activeRequests (pool w), requestQueue (pool w), grantLog (ghost w), nextReq (ghost w)).

(** The promises waiting in [requestQueue], oldest first. *)
Definition queued (w : World) : list ReqId := map resolve (requestQueue (pool w)).

(** Requests are numbered in the order their [getPage] call arrives, so
    [seq 0 (nextReq _)] is the arrival order. *)
Record admission_inv (w : World) : Prop := {
  adm_ceiling : activeRequests (pool w) <= maxConcurrentRequests;
  adm_backlog : requestQueue (pool w) <> [] ->
                activeRequests (pool w) = maxConcurrentRequests;
  adm_fifo : grantLog (ghost w) ++ queued w = seq 0 (nextReq (ghost w))
}.

(** What [getPage] may assume about the promise [r] it works for: either
    a slot is free and [r] is ahead of everything queued, or the ceiling
    is reached and [r] is the latest arrival. *)
Definition admits (r : ReqId) (w : World) : Prop :=
  (activeRequests (pool w) < maxConcurrentRequests
   /\ (requestQueue (pool w) <> [] ->
       activeRequests (pool w) = maxConcurrentRequests - 1)
   /\ grantLog (ghost w) ++ r :: queued w = seq 0 (nextReq (ghost w)))
  \/ (activeRequests (pool w) = maxConcurrentRequests
      /\ grantLog (ghost w) ++ queued w ++ [r] = seq 0 (nextReq (ghost w))).

(** Ids of parked continuations are below the next id to be given out. *)
Definition tasks_fresh (w : World) : Prop :=
  forall t k, In (t, k) (tasks w) -> (t < nextTask w)%nat.

(** [w'] has the continuations of [w] and possibly newly parked ones. *)
Definition extends (w w' : World) : Prop :=
  (nextTask w <= nextTask w')%nat
  /\ forall t k, In (t, k) (tasks w') ->
       In (t, k) (tasks w) \/ (nextTask w <= t < nextTask w')%nat.

(** The continuations that belong to a [getPage] call which has taken a
    slot and has not reached its [finally] block yet. *)
Definition holdsSlot (k : Task) : bool :=
  match k with
  | TNewPage _ _ | TConfigurePage _ _ _ | TSettled _ _ => true
  | TBrowserClose _ (RetryCreate _) => true
  | TLaunch _ (Some (RetryCreate _)) => true
  | TReplaced (RetryCreate _) => true
  | _ => false
  end.

(** How many parked continuations hold a slot. *)
Definition slotTasks (l : list (TaskId * Task)) : Z :=
  Z.of_nat (length (filter (fun tk => holdsSlot (snd tk)) l)).

(** [activeRequests] against the continuations holding a slot. *)
Definition balance (w : World) : Z :=
  activeRequests (pool w) - slotTasks (tasks w).

(** The cache respects its capacity. *)
Definition cache_bounded (w : World) : Prop :=
  (length (pagePool (pool w)) <= pagePoolSize)%nat.

(** [w] once the continuation parked last has been taken off. *)
Definition resumed (w : World) : World :=
  mkWorld (pool w) (engine w) (tasks w) (S (nextTask w)) (ghost w).

(** The page a parked continuation carries for someone: the new page of a
    request that still awaits [configurePage], the page about to be
    delivered to a caller, or the page a caller has handed to
    [closePage] and which is being reset. *)
Definition taskPages (k : Task) : list Page :=
  match k with
  | TConfigurePage _ _ p => [p]
  | TSettled _ (Resolved p) => [p]
  | TReset p => [p]
  | _ => []
  end.

(** The page a continuation is configuring, not cached yet. *)
Definition configuringPages (k : Task) : list Page :=
  match k with
  | TConfigurePage _ _ p => [p]
  | _ => []
  end.

(** All pages carried by parked continuations. *)
Definition inTransit (l : list (TaskId * Task)) : list Page :=
  flat_map (fun tk => taskPages (snd tk)) l.

(** All pages under configuration. *)
Definition configuring (l : list (TaskId * Task)) : list Page :=
  flat_map (fun tk => configuringPages (snd tk)) l.

(** The invariant on claimed pages [c], pages under configuration [cfg],
    the cache [pp] and the page counter [n]: no page is claimed twice,
    every page is known to the engine, the cache holds a page at most
    once, an unlocked entry is claimed by nobody, and a page still under
    configuration is not cached yet. *)
Definition excl (c cfg : list Page) (pp : list PagePoolItem) (n : nat) : Prop :=
  NoDup c
  /\ (forall p, In p c -> (p < n)%nat)
  /\ NoDup (map page pp)
  /\ (forall it, In it pp -> (page it < n)%nat)
  /\ (forall it, In it pp -> isLocked it = false -> ~ In (page it) c)
  /\ (forall p, In p cfg -> ~ In p (map page pp)).

(** The pages claimed in [w], together with the pages [extra] the running
    segment has taken from the cache and not delivered yet. *)
Definition claims (extra : list Page) (w : World) : list Page :=
  extra ++ inTransit (tasks w) ++ held (ghost w).

(** [excl] on the state [w]. *)
Definition exclusive (extra : list Page) (w : World) : Prop :=
  excl (claims extra w) (configuring (tasks w)) (pagePool (pool w)) (nextPage (engine w)).

(** What [exclusive] depends on. *)
Definition custody (w : World)
    : list Page * list Page * list Page * list PagePoolItem * nat :=
  (inTransit (tasks w), configuring (tasks w), held (ghost w),
   pagePool (pool w), nextPage (engine w)).

(** Callers follow the protocol of the service's clients: they pass to
    [closePage] a page they obtained from [getPage] and have not released
    since ([convertHtmlToPdf] and [convertUrlToPdf] call [closePage] once,
    in their [finally] block). *)
Definition follows_protocol (w : World) (e : Event) : Prop :=
  match e with
  | EClosePage p => In p (held (ghost w))
  | _ => True
  end.

(** The states the service reaches when every caller follows the
    protocol. *)
Inductive reachable_by_protocol : World -> Prop :=
| protocol_initial : reachable_by_protocol initial
| protocol_step w e w' :
    reachable_by_protocol w -> follows_protocol w e -> step w e = Some w' ->
    reachable_by_protocol w'.

(** [follows_protocol], decided. *)
Definition follows_protocolb (w : World) (e : Event) : bool :=
  match e with
  | EClosePage p => memb p (held (ghost w))
  | _ => true
  end.

(** [run], checking the protocol on the way. *)
Fixpoint run_by_protocol (w : World) (es : list Event) : option World :=
  match es with
  | [] => Some w
  | e :: es' =>
      if follows_protocolb w e then
        match step w e with
        | Some w' => run_by_protocol w' es'
        | None => None
        end
      else None
  end.

(** Every unlocked entry of [w'] was an unlocked entry of [w]. *)
Definition no_new_unlocked (w w' : World) : Prop :=
  forall item', In item' (pagePool (pool w')) -> isLocked item' = false ->
    exists item, In item (pagePool (pool w))
                 /\ page item = page item' /\ isLocked item = false.

(** The pages that are cached or may still be cached: entries of the
    cache, pages under configuration, and the next page to be created. *)
Definition registry (w : World) : list Page * list Page * nat :=
  (configuring (tasks w), map page (pagePool (pool w)), nextPage (engine w)).

(** From [w] to [w'] the cache gained only pages that were under
    configuration in [w] (or are listed in [extra]) or did not exist
    yet, and no existing page was put under configuration. *)
Definition registers (extra : list Page) (w w' : World) : Prop :=
  (nextPage (engine w) <= nextPage (engine w'))%nat
  /\ (forall q, In q (map page (pagePool (pool w'))) ->
        In q (map page (pagePool (pool w)))
        \/ In q (extra ++ configuring (tasks w))
        \/ (nextPage (engine w) <= q)%nat)
  /\ (forall q, In q (configuring (tasks w')) ->
        In q (configuring (tasks w)) \/ (nextPage (engine w) <= q)%nat).

(** Page [p] exists, is not cached and is not about to be. *)
Definition retiredPage (p : Page) (w : World) : Prop :=
  (p < nextPage (engine w))%nat
  /\ ~ In p (map page (pagePool (pool w)))
  /\ ~ In p (configuring (tasks w)).

(** ** Browsers *)

(** No instance counts a negative number of pages. *)
Definition pages_nonneg (bs : list BrowserInstance) : Prop :=
  Forall (fun bi => 0 <= activePages bi) bs.

(** The processes wrapped by the instances of [browsers], in array order,
    and the next process the engine will start. *)
Definition fleet (w : World) : list Browser * Browser :=
  (map browser (browsers (pool w)), nextBrowser (engine w)).

(** No process is wrapped twice and every wrapped process was started. *)
Definition fleet_ok (f : list Browser * Browser) : Prop :=
  NoDup (fst f) /\ forall b, In b (fst f) -> (b < snd f)%nat.

(** The health check's test for a browser that has served its time. *)
Definition expired (now : Z) (browserInstance : BrowserInstance) : bool :=
  (now - createdAt browserInstance >? browserMaxAge)
  || ((now - lastUsed browserInstance >? browserMaxAge)
      && (activePages browserInstance =? 0)).

(** The test of [cleanupPagePool] for an entry that has to go. *)
Definition stale (now : Z) (pageItem : PagePoolItem) : bool :=
  (now - itemCreatedAt pageItem >? maxPageAge)
  || ((now - itemLastUsed pageItem >? maxPageAge) && negb (isLocked pageItem)).

(** ** Logs of the conversion service *)



(** The calls on the pool in a log. *)
Definition poolCalls (log : list Call) : list Call :=
  filter (fun c => match c with GetPage | ClosePage _ => true | _ => false end) log.

(** The page a call operates on. *)
Definition pageOf (c : Call) : option Page :=
  match c with
  | ClosePage p | WaitForPageLoad p _ | SetContent p _ | Goto p _ | Pdf p => Some p
  | _ => None
  end.

(** A call a conversion makes while its variable [page] holds [v]: not a
    call on the pool nor the start or the end of the metrics, and if it
    operates on a page, then on that one. *)
Definition work (v : option Page) (c : Call) : Prop :=
  match c with
  | GetPage | ClosePage _ | StartConversion _ | EndConversion _ _ => False
  | _ => forall q, pageOf c = Some q -> v = Some q
  end.

(** [m] leaves the variable [page] at [v] and makes [work] calls only. *)
Definition keeps (v : option Page) {A : Type} (m : M A) : Prop :=
  forall o s, pageVar s = v ->
    pageVar (snd (m o s)) = v
    /\ exists added, calls (snd (m o s)) = calls s ++ added /\ Forall (work v) added.

(** Neither [startConversion] nor [endConversion]. *)
Definition inner (c : Call) : Prop :=
  match c with
  | StartConversion _ | EndConversion _ _ => False
  | _ => True
  end.

(** * Scenarios

    Concrete runs from the constructor state, used as witnesses and as
    counterexamples. *)

(** The state a run ends in. *)
Definition after (w : World) (es : list Event) : World :=
  match run w es with
  | Some w' => w'
  | None => w
  end.

(** Start-up: the three launches of [initializeBrowsers] resolve. *)
Definition boot : list Event :=
  [EInit; EResume 0%nat true; EResume 1%nat true; EResume 2%nat true].

(** A [getPage] that misses the cache and obtains a fresh page, run to
    completion; [t] is the id its first continuation is parked under. *)
Definition acquireNew (t : TaskId) : list Event :=
  [EGetPage; EResume t true; EResume (S t) true; EResume (S (S t)) true].

(** Ten requests in flight, each waiting for its [newPage()]. *)
Definition saturated : World :=
  Eval vm_compute in after initial (boot ++ repeat EGetPage 10).

(** Ten requests in flight and two more waiting. *)
Definition backlogged : World :=
  Eval vm_compute in after initial (boot ++ repeat EGetPage 12).

(** Nine requests wait for their page, the tenth is about to run its
    [finally] block (continuation 14), an eleventh is queued. *)
Definition completing : World :=
  Eval vm_compute in
    after initial (boot ++ repeat EGetPage 11 ++ [EResume 3%nat true; EResume 13%nat true]).

(** One caller holds page 0, taken from a fresh browser page and cached;
    ten later requests are in flight and request 11 is queued. *)
Definition holdingWhileFull : World :=
  Eval vm_compute in after initial (boot ++ acquireNew 3 ++ repeat EGetPage 11).

(** Every browser has disconnected. *)
Definition allUnhealthy : World :=
  Eval vm_compute in
    after initial (boot ++ [EDisconnected 0%nat; EDisconnected 1%nat; EDisconnected 2%nat]).

(** Eight pages were created and cached, all still in their callers'
    hands; a ninth request has its new page and awaits [configurePage]
    (continuation 28). *)
Definition cacheFull : World :=
  Eval vm_compute in
    after initial
      (boot ++ acquireNew 3 ++ acquireNew 6 ++ acquireNew 9 ++ acquireNew 12
            ++ acquireNew 15 ++ acquireNew 18 ++ acquireNew 21 ++ acquireNew 24
            ++ [EGetPage; EResume 27%nat true]).

(** Browser 0 has one page open, browsers 1 and 2 none. *)
Definition oneBusy : World :=
  Eval vm_compute in after initial (boot ++ acquireNew 3).

(** Browsers 1 and 2 have disconnected; eight pages were opened in
    browser 0, all cached and still in their callers' hands. *)
Definition loadOneBrowser : list Event :=
  boot ++ [EDisconnected 1%nat; EDisconnected 2%nat]
       ++ acquireNew 3 ++ acquireNew 6 ++ acquireNew 9 ++ acquireNew 12
       ++ acquireNew 15 ++ acquireNew 18 ++ acquireNew 21 ++ acquireNew 24.

(** The state [loadOneBrowser] leads to: browser 0 is the only healthy
    one and has [maxPagesPerBrowser] pages. *)
Definition oneSaturated : World :=
  Eval vm_compute in after initial loadOneBrowser.

(** Pages 0 and 3 were opened in browser 0, page 1 in browser 1, page 2
    in browser 2; all four are cached and in use. *)
Definition fourPages : World :=
  Eval vm_compute in
    after initial (boot ++ acquireNew 3 ++ acquireNew 6 ++ acquireNew 9 ++ acquireNew 12).

(** Ten pages were created; pages 0 to 7 are cached, pages 8 and 9 are
    not.  Browser 0 owns pages 0, 3, 6 and 9. *)
Definition tenPages : World :=
  Eval vm_compute in
    after initial
      (boot ++ acquireNew 3 ++ acquireNew 6 ++ acquireNew 9 ++ acquireNew 12
            ++ acquireNew 15 ++ acquireNew 18 ++ acquireNew 21 ++ acquireNew 24
            ++ acquireNew 27 ++ acquireNew 30).

(** Page 0 was created for request 0, released, and taken from the cache
    by request 1; page 1 was created for request 2. *)
Definition reused : World :=
  Eval vm_compute in
    after initial
      (boot ++ acquireNew 3 ++ [EClosePage 0%nat; EResume 6%nat true; EGetPage]
            ++ acquireNew 7).

(** [n] requests served one after the other, each with a new page. *)
Fixpoint acquires (n : nat) (t : TaskId) : list Event :=
  match n with
  | O => []
  | S n' => acquireNew t ++ acquires n' (3 + t)
  end.

(** Browser 2 has disconnected; browsers 0 and 1 have
    [maxPagesPerBrowser] pages each, the first eight of them cached and
    in use. *)
Definition twoSaturated : World :=
  Eval vm_compute in after initial (boot ++ [EDisconnected 2%nat] ++ acquires 16 3).

(** [n] rounds of: [browser.close()] rejects, then the await of
    [replaceUnhealthyBrowser] returns. *)
Fixpoint closeRejects (n : nat) (t : TaskId) : list Event :=
  match n with
  | O => []
  | S n' => EResume t false :: EResume (S t) true :: closeRejects n' (S (S t))
  end.

(** Page 0 was created, cached and released: its entry is unlocked. *)
Definition released : World :=
  Eval vm_compute in
    after initial (boot ++ acquireNew 3 ++ [EClosePage 0%nat; EResume 6%nat true]).

(** Page 0 is cached and in its caller's hands; more than [maxPageAge]
    has passed since it was created. *)
Definition agedPage : World :=
  Eval vm_compute in after initial (boot ++ acquireNew 3 ++ [ETick (Z.to_nat 300001)]).

(** Request 8 found browser 0 saturated and awaits its
    [browser.close()] (continuation 27). *)
Definition replacing : World :=
  Eval vm_compute in after initial (loadOneBrowser ++ [EGetPage]).

(** Browser 0 has disconnected and more than [browserMaxAge] has passed
    since start-up. *)
Definition agedUnhealthy : World :=
  Eval vm_compute in
    after initial (boot ++ [EDisconnected 0%nat; ETick (Z.to_nat 600001)]).

(** Answers of the collaborators of [PdfService]. *)

(** The pool has no healthy browser. *)
Definition noBrowser : Answers :=
  mkAnswers (fun _ => true)
            (fun _ => inl (JsError "No healthy browser instances available"))
            (fun _ => None) (fun _ => None)
            (fun _ => inr (Some (mkResponse 200 "OK" None))) (fun _ => inr []).



(** The site answers 404 to every navigation. *)
Definition notFound : Answers :=
  mkAnswers (fun _ => true) (fun _ => inr 0%nat) (fun _ => None) (fun _ => None)
            (fun _ => inr (Some (mkResponse 404 "Not Found" None))) (fun _ => inr []).

(** * Properties *)

(** ** Load balancing: [selectBestBrowser] *)

Section SelectBestBrowser.

Let pick (best current : BrowserInstance) : BrowserInstance :=
  if activePages current <? activePages best then current else best.

(** What the [reduce] of [selectBestBrowser] computes on a non-empty
    array: a minimum, and the leftmost one. *)
Lemma reduce_leftmost_minimum (others : list BrowserInstance) (first : BrowserInstance) :
  let best := fold_left pick others first in
  exists before after,
    first :: others = before ++ best :: after
    /\ (forall b, In b before -> activePages best < activePages b)
    /\ (forall b, In b after -> activePages best <= activePages b).
Proof.
  induction others as [|current others IH] using rev_ind; intros best.
  - exists [], []. subst best. simpl. repeat split; intros b [].
  - subst best. rewrite fold_left_app. simpl.
    destruct IH as (before & after & Hsplit & Hbefore & Hafter).
    set (best := fold_left pick others first) in *.
    change (pick best current)
      with (if activePages current <? activePages best then current else best).
    destruct (Z.ltb_spec (activePages current) (activePages best)).
    + exists (first :: others), []. repeat split.
      * intros b Hb. rewrite Hsplit in Hb. apply in_app_or in Hb.
        destruct Hb as [Hb | [Hb | Hb]].
        -- specialize (Hbefore b Hb). lia.
        -- subst b. lia.
        -- specialize (Hafter b Hb). lia.
      * intros b [].
    + exists before, (after ++ [current]). repeat split.
      * change (first :: others ++ [current]) with ((first :: others) ++ [current]).
        rewrite Hsplit, <- app_assoc. reflexivity.
      * exact Hbefore.
      * intros b Hb. apply in_app_or in Hb. destruct Hb as [Hb | [Hb | []]].
        -- apply Hafter, Hb.
        -- subst b. lia.
Qed.

Lemma selectBestBrowser_none (bs : list BrowserInstance) :
  selectBestBrowser bs = None <-> filter isHealthy bs = [].
Proof.
  unfold selectBestBrowser. destruct (filter isHealthy bs); split; congruence.
Qed.

Lemma selectBestBrowser_some (bs : list BrowserInstance) (best : BrowserInstance) :
  selectBestBrowser bs = Some best ->
  exists before after,
    filter isHealthy bs = before ++ best :: after
    /\ (forall b, In b before -> activePages best < activePages b)
    /\ (forall b, In b after -> activePages best <= activePages b).
Proof.
  unfold selectBestBrowser. destruct (filter isHealthy bs) as [|first others]; [discriminate|].
  intros [= <-]. apply reduce_leftmost_minimum.
Qed.

End SelectBestBrowser.

(** What [createNewPage] parks: the continuation working on the browser
    it selected. *)
Lemma createNewPage_tasks (r : ReqId) (w : World) :
  tasks (createNewPage r w) =
  tasks w ++
    [(nextTask w,
      match selectBestBrowser (browsers (pool w)) with
      | None => TSettled r (Rejected NoHealthyBrowsers)
      | Some bestBrowser =>
          if activePages bestBrowser >=? maxPagesPerBrowser
          then TBrowserClose (browser bestBrowser) (RetryCreate r)
          else TNewPage r (browser bestBrowser)
      end)].
Proof.
  unfold createNewPage. simpl.
  destruct (selectBestBrowser (browsers (pool w))) as [best|]; [|reflexivity].
  destruct (activePages best >=? maxPagesPerBrowser); reflexivity.
Qed.

(** C7.  The browser [createNewPage] goes on with is the one
    [selectBestBrowser] returns, and that browser is a healthy member of
    [browsers] whose [activePages] is minimal among the healthy ones; of
    the healthy browsers reaching that minimum it is the first in array
    order (every healthy browser before it has strictly more active
    pages). *)
Theorem selectBestBrowser_least_loaded_first
    (r : ReqId) (w : World) (bestBrowser : BrowserInstance) :
  selectBestBrowser (browsers (pool w)) = Some bestBrowser ->
  In bestBrowser (browsers (pool w))
  /\ isHealthy bestBrowser = true
  /\ (forall b, In b (browsers (pool w)) -> isHealthy b = true ->
        activePages bestBrowser <= activePages b)
  /\ (exists before after,
        filter isHealthy (browsers (pool w)) = before ++ bestBrowser :: after
        /\ forall b, In b before -> activePages bestBrowser < activePages b)
  /\ tasks (createNewPage r w) =
     tasks w ++ [(nextTask w,
        if activePages bestBrowser >=? maxPagesPerBrowser
        then TBrowserClose (browser bestBrowser) (RetryCreate r)
        else TNewPage r (browser bestBrowser))].
Proof.
  intros Hsel.
  destruct (selectBestBrowser_some _ Hsel) as (before & after & Hsplit & Hbefore & Hafter).
  assert (Hin : In bestBrowser (filter isHealthy (browsers (pool w)))).
  { rewrite Hsplit. apply in_or_app. right. left. reflexivity. }
  apply filter_In in Hin. destruct Hin as [Hin Hhealthy].
  repeat split; try assumption.
  - intros b Hb Hh.
    assert (Hb' : In b (filter isHealthy (browsers (pool w)))) by (apply filter_In; auto).
    rewrite Hsplit in Hb'. apply in_app_or in Hb'. destruct Hb' as [Hb' | [Hb' | Hb']].
    + specialize (Hbefore b Hb'). lia.
    + subst b. lia.
    + apply Hafter, Hb'.
  - exists before, after. split; assumption.
  - rewrite createNewPage_tasks, Hsel. reflexivity.
Qed.

(** ** Proof tools *)

Ltac break_inner x :=
  lazymatch x with
  | context [match ?y with _ => _ end] => break_inner y
  | _ => destruct x eqn:?
  end.

Ltac break_match :=
  match goal with
  | |- context [match ?x with _ => _ end] => break_inner x
  end.

Ltac break_match_hyp :=
  match goal with
  | H : context [match ?x with _ => _ end] |- _ => destruct x eqn:?
  end.

(** Unfolds the segment helpers down to record constructors. *)
Ltac unfold_segments :=
  unfold cleanupPagePool, performBrowserHealthCheck, initializeBrowsers,
    cleanupLoop, healthCheckLoop, closePage, removePageFromPool, afterRemove,
    returnPageToPool_afterReset, createNewPage, replaceUnhealthyBrowser, afterLaunch,
    createBrowserInstance_afterLaunch, replaceUnhealthyBrowser_afterClose,
    createNewPage_afterConfigurePage, createNewPage_afterNewPage, pageCloses, updatePageCount,
    targetDestroyed, browserDisconnects, updateInstance, giveBack, settle,
    enqueue, takeSlot, releaseSlot, tick, park, unpark,
    withPool, withEngine, withGhost in *.

(** Closes goals stating that a segment leaves some fields alone. *)
Ltac frame :=
  intros; unfold_segments; unfold maxBrowsers in *; simpl;
  repeat (break_match; simpl); reflexivity.

Lemma getPooledPage_some (w : World) (p : Page) (w' : World) :
  getPooledPage w = Some (p, w') ->
  exists index pageItem,
    findIndex (fun item => negb (isLocked item)
                           && (dateNow (engine w) - itemLastUsed item <? maxPageAge))
              (pagePool (pool w)) = Some index
    /\ nth_error (pagePool (pool w)) index = Some pageItem
    /\ page pageItem = p
    /\ w' = withPool (fun pl =>
              setPagePool (updateAt index (setLock true (dateNow (engine w))) (pagePool pl)) pl) w.
Proof.
  unfold getPooledPage. intros H.
  destruct (findIndex _ (pagePool (pool w))) as [index|] eqn:Hidx; [|discriminate].
  destruct (nth_error (pagePool (pool w)) index) as [pageItem|] eqn:Hnth; [|discriminate].
  injection H as <- <-. exists index, pageItem. auto.
Qed.

(** ** Admission control *)

Lemma admission_inv_frame (w w' : World) :
  admission w' = admission w -> admission_inv w -> admission_inv w'.
Proof.
  unfold admission. intros [= Ha Hq Hg Hn] [H1 H2 H3].
  constructor; unfold queued in *; rewrite ?Ha, ?Hq, ?Hg, ?Hn; assumption.
Qed.

Section AdmissionFrames.
Variable w : World.

Lemma admission_park k : admission (park k w) = admission w.
Proof. frame. Qed.
Lemma admission_unpark t : admission (unpark t w) = admission w.
Proof. frame. Qed.
Lemma admission_settle r res : admission (settle r res w) = admission w.
Proof. frame. Qed.
Lemma admission_giveBack p : admission (giveBack p w) = admission w.
Proof. frame. Qed.
Lemma admission_createNewPage r : admission (createNewPage r w) = admission w.
Proof. frame. Qed.
Lemma admission_closePage p : admission (closePage p w) = admission w.
Proof. frame. Qed.
Lemma admission_initializeBrowsers : admission (initializeBrowsers w) = admission w.
Proof. frame. Qed.
Lemma admission_browserDisconnects b : admission (browserDisconnects b w) = admission w.
Proof. frame. Qed.
Lemma admission_targetDestroyed b : admission (targetDestroyed b w) = admission w.
Proof. frame. Qed.
Lemma admission_pageCloses p : admission (pageCloses p w) = admission w.
Proof. frame. Qed.
Lemma admission_cleanupPagePool : admission (cleanupPagePool w) = admission w.
Proof. frame. Qed.
Lemma admission_performBrowserHealthCheck :
  admission (performBrowserHealthCheck w) = admission w.
Proof. frame. Qed.
Lemma admission_tick ms : admission (tick ms w) = admission w.
Proof. frame. Qed.

Lemma admission_getPooledPage p w' :
  getPooledPage w = Some (p, w') -> admission w' = admission w.
Proof.
  intros H. apply getPooledPage_some in H.
  destruct H as (index & pageItem & _ & _ & _ & ->). reflexivity.
Qed.

(** Every continuation except the [finally] block of [getPage] leaves
    admission control alone. *)
Lemma admission_resume k ok w' :
  (forall r res, k <> TSettled r res) ->
  resume k ok w = Some w' -> admission w' = admission w.
Proof.
  intros Hk H. destruct k as [b a|index a|a|r b|r b p|r res|p|p rest|rest]; simpl in H;
    try (destruct ok); try (destruct a);
    try (injection H as <-); try solve [frame].
  all: exfalso; eapply Hk; reflexivity.
Qed.
End AdmissionFrames.

Lemma getPage_fuel_admission (fuel : nat) :
  forall r w w',
    admits r w -> getPage_fuel fuel r w = Some w' -> admission_inv w'.
Proof.
  induction fuel as [|fuel IH]; intros r w w' Hpre H; [discriminate|].
  unfold admits, queued in Hpre.
  simpl in H. rewrite Z.geb_leb in H.
  destruct (Z.leb_spec maxConcurrentRequests (activeRequests (pool w))) as [Hfull|Hfree].
  - (* the ceiling is reached: the promise joins the queue *)
    injection H as <-. destruct Hpre as [(Hlt & _)|(Heq & Hfifo)]; [lia|].
    constructor; unfold queued in *; simpl.
    + lia.
    + intros _. exact Heq.
    + rewrite map_app. simpl. exact Hfifo.
  - destruct Hpre as [(_ & Hbacklog & Hfifo)|(Heq & _)]; [|lia].
    destruct (getPooledPage (takeSlot r w)) as [[pooledPage w2]|] eqn:Hpooled.
    + (* cache hit: the finally block runs at once *)
      apply admission_getPooledPage in Hpooled.
      unfold admission in Hpooled. simpl in Hpooled.
      injection Hpooled as Ha Hq Hg Hn.
      unfold processNextQueuedRequest_with in H. simpl in H. rewrite Hq in H.
      destruct (requestQueue (pool w)) as [|nextRequest rest] eqn:Hqueue.
      * injection H as <-.
        constructor; unfold queued in *; simpl; rewrite ?Ha, ?Hq, ?Hg, ?Hn.
        -- lia.
        -- intros Hne. contradiction.
        -- rewrite app_nil_r. exact Hfifo.
      * rewrite Ha in H.
        replace (activeRequests (pool w) + 1 - 1) with (activeRequests (pool w)) in H by lia.
        destruct (Z.ltb_spec (activeRequests (pool w)) maxConcurrentRequests); [|lia].
        destruct (getPage_fuel fuel (resolve nextRequest) _) as [w3|] eqn:Hnested;
          [|discriminate].
        injection H as <-.
        apply admission_inv_frame with (w := w3); [apply admission_settle|].
        apply IH in Hnested; [exact Hnested|].
        left. unfold queued. simpl. rewrite Ha, Hg, Hn. repeat split.
        -- lia.
        -- intros _. specialize (Hbacklog ltac:(discriminate)). lia.
        -- simpl in Hfifo. rewrite <- app_assoc. exact Hfifo.
    + (* cache miss: the slot is kept while createNewPage is in flight *)
      injection H as <-.
      apply admission_inv_frame with (w := takeSlot r w);
        [apply admission_createNewPage|].
      constructor; unfold queued in *; simpl.
      * lia.
      * intros Hne. specialize (Hbacklog Hne). lia.
      * rewrite <- app_assoc. exact Hfifo.
Qed.

Lemma getPage_finally_admission (r : ReqId) (res : Result) (w w' : World) :
  admission_inv w -> getPage_finally r res w = Some w' -> admission_inv w'.
Proof.
  intros [Hceil Hbacklog Hfifo] H.
  unfold getPage_finally, processNextQueuedRequest, processNextQueuedRequest_with in H.
  simpl in H.
  destruct (requestQueue (pool w)) as [|nextRequest rest] eqn:Hqueue.
  - injection H as <-. constructor; unfold queued in *; simpl; rewrite ?Hqueue.
    + lia.
    + intros Hne. contradiction.
    + rewrite Hqueue in Hfifo. exact Hfifo.
  - assert (Hfull : activeRequests (pool w) = maxConcurrentRequests)
      by (apply Hbacklog; discriminate).
    destruct (Z.ltb_spec (activeRequests (pool w) - 1) maxConcurrentRequests); [|lia].
    destruct (getPage_fuel _ (resolve nextRequest) _) as [w3|] eqn:Hnested;
      [|discriminate].
    injection H as <-.
    apply admission_inv_frame with (w := w3); [apply admission_settle|].
    apply getPage_fuel_admission in Hnested; [exact Hnested|].
    left. unfold queued in *. simpl. rewrite Hqueue in Hfifo. simpl in Hfifo.
    repeat split.
    + lia.
    + intros _. lia.
    + exact Hfifo.
Qed.

Lemma initial_admission : admission_inv initial.
Proof.
  constructor; simpl;
    [rewrite maxConcurrentRequests_value; lia | intros H; contradiction | reflexivity].
Qed.

Lemma step_admission (w : World) (e : Event) (w' : World) :
  admission_inv w -> step w e = Some w' -> admission_inv w'.
Proof.
  intros Hinv H. destruct e as [| |p|t ok|b|b|p| | |ms]; simpl in H.
  - injection H as <-. eapply admission_inv_frame; [apply admission_initializeBrowsers|assumption].
  - unfold getPage in H. apply getPage_fuel_admission in H; [exact H|].
    destruct Hinv as [Hceil Hbacklog Hfifo]. unfold admits, queued in *.
    cbn [withGhost newRequest pool ghost activeRequests requestQueue grantLog nextReq].
    destruct (Z.eq_dec (activeRequests (pool w)) maxConcurrentRequests) as [Heq|Hne].
    + right. split; [exact Heq|]. rewrite app_assoc, Hfifo, seq_S. reflexivity.
    + left. assert (Hempty : requestQueue (pool w) = []).
      { destruct (requestQueue (pool w)); [reflexivity|].
        exfalso. apply Hne, Hbacklog. discriminate. }
      rewrite Hempty in *. cbn [map] in *. rewrite app_nil_r in Hfifo.
      repeat split; [lia | intros Hq; contradiction | rewrite Hfifo, seq_S; reflexivity].
  - injection H as <-. eapply admission_inv_frame; [|exact Hinv].
    rewrite admission_closePage. apply admission_giveBack.
  - destruct (lookupTask t (tasks w)) as [k|]; [|injection H as <-; exact Hinv].
    assert (Hun : admission_inv (unpark t w))
      by (eapply admission_inv_frame; [apply admission_unpark|exact Hinv]).
    destruct k as [b a|index a|a|r b|r b p|r res|p|p rest|rest];
      try (eapply admission_inv_frame; [|exact Hun];
           eapply admission_resume; [|exact H]; intros; discriminate).
    simpl in H. eapply getPage_finally_admission; eassumption.
  - injection H as <-. eapply admission_inv_frame; [apply admission_browserDisconnects|assumption].
  - injection H as <-. eapply admission_inv_frame; [apply admission_targetDestroyed|assumption].
  - injection H as <-. eapply admission_inv_frame; [apply admission_pageCloses|assumption].
  - injection H as <-. eapply admission_inv_frame; [apply admission_cleanupPagePool|assumption].
  - injection H as <-.
    eapply admission_inv_frame; [apply admission_performBrowserHealthCheck|assumption].
  - injection H as <-. eapply admission_inv_frame; [apply admission_tick|assumption].
Qed.

Lemma reachable_admission (w : World) : reachable w -> admission_inv w.
Proof.
  induction 1 as [|w e w' _ IH Hstep]; [apply initial_admission|].
  eapply step_admission; eassumption.
Qed.

Lemma run_reachable (es : list Event) :
  forall w w', reachable w -> run w es = Some w' -> reachable w'.
Proof.
  induction es as [|e es IH]; intros w w' Hw H; simpl in H.
  - injection H as <-. exact Hw.
  - destruct (step w e) as [w1|] eqn:Hstep; [|discriminate].
    eapply IH; [|exact H]. eapply reachable_step; eassumption.
Qed.

(** ** The event loop never runs out of fuel *)

Lemma getPage_fuel_enough (fuel : nat) :
  forall r w, (length (requestQueue (pool w)) < fuel)%nat ->
    exists w', getPage_fuel fuel r w = Some w'.
Proof.
  induction fuel as [|fuel IH]; intros r w Hlen; [lia|].
  simpl. destruct (activeRequests (pool w) >=? maxConcurrentRequests); [eauto|].
  destruct (getPooledPage (takeSlot r w)) as [[pooledPage w2]|] eqn:Hpooled; [|eauto].
  apply admission_getPooledPage in Hpooled. injection Hpooled as _ Hq _ _.
  simpl in Hq. unfold processNextQueuedRequest_with. simpl. rewrite Hq.
  destruct (requestQueue (pool w)) as [|nextRequest rest] eqn:Hqueue; simpl; [eauto|].
  destruct (activeRequests (pool w2) - 1 <? maxConcurrentRequests); simpl; [|eauto].
  destruct (IH (resolve nextRequest)
              (withPool (setRequestQueue rest) (releaseSlot w2))) as [w3 Hw3].
  - simpl in *. lia.
  - rewrite Hw3. simpl. eauto.
Qed.

Lemma getPage_finally_total (r : ReqId) (res : Result) (w : World) :
  exists w', getPage_finally r res w = Some w'.
Proof.
  unfold getPage_finally, processNextQueuedRequest, processNextQueuedRequest_with.
  cbn [releaseSlot withPool pool requestQueue setActiveRequests activeRequests].
  destruct (requestQueue (pool w)) as [|nextRequest rest]; [simpl; eauto|].
  destruct (activeRequests (pool w) - 1 <? maxConcurrentRequests); [|simpl; eauto].
  destruct (getPage_fuel_enough (fuel := length (nextRequest :: rest)) (resolve nextRequest)
              (withPool (setRequestQueue rest) (releaseSlot w))) as [w3 Hw3].
  - simpl. lia.
  - rewrite Hw3. simpl. eauto.
Qed.

(** Every event is handled: the bound on the depth of the
    [finally]/[getPage] chain is never hit. *)
Lemma step_total (w : World) (e : Event) : exists w', step w e = Some w'.
Proof.
  destruct e as [| |p|t ok|b|b|p| | |ms]; simpl; eauto.
  - apply getPage_fuel_enough. simpl. lia.
  - destruct (lookupTask t (tasks w)) as [k|]; [|eauto].
    destruct k as [b a|index a|a|r b|r b p|r res|p|p rest|rest]; simpl;
      try destruct ok; try destruct a; eauto.
    all: apply getPage_finally_total.
Qed.

(** ** Lists of consecutive numbers *)

Lemma app_same_length {A : Type} (a c b d : list A) :
  length a = length c -> a ++ b = c ++ d -> a = c /\ b = d.
Proof.
  revert c. induction a as [|x a IH]; intros [|y c] Hlen H; try discriminate.
  - auto.
  - simpl in *. injection H as -> H. injection Hlen as Hlen.
    destruct (IH c Hlen H) as [-> ->]. auto.
Qed.

Lemma seq_prefix (l1 l2 : list nat) (n : nat) :
  l1 ++ l2 = seq 0 n -> l1 = seq 0 (length l1) /\ l2 = seq (length l1) (length l2).
Proof.
  intros H.
  assert (Hn : n = (length l1 + length l2)%nat).
  { apply (f_equal (@length nat)) in H. rewrite length_app, length_seq in H. lia. }
  subst n. rewrite seq_app in H. simpl in H.
  apply app_same_length in H; [exact H|].
  rewrite length_seq. reflexivity.
Qed.

Lemma seq_between (a b g : nat) :
  (a < b)%nat -> (b < g)%nat ->
  seq 0 g = seq 0 a ++ a :: seq (S a) (b - a - 1) ++ b :: seq (S b) (g - b - 1).
Proof.
  intros Hab Hbg.
  replace g with (a + S ((b - a - 1) + S (g - b - 1)))%nat at 1 by lia.
  rewrite seq_app. f_equal. simpl. f_equal.
  rewrite seq_app. f_equal. simpl.
  replace (S (a + (b - a - 1)))%nat with b by lia. reflexivity.
Qed.

(** ** C3: the ceiling on [activeRequests] *)

(** C3.  In every state the service can reach, [activeRequests] is at most
    [maxConcurrentRequests]; and a [getPage] arriving while
    [activeRequests] equals the ceiling takes no slot: the counter stays
    as it is, nothing is added to the grant log, and the request goes to
    the back of [requestQueue]. *)
Theorem activeRequests_within_ceiling (w : World) :
  reachable w ->
  activeRequests (pool w) <= maxConcurrentRequests
  /\ (activeRequests (pool w) = maxConcurrentRequests ->
      exists w',
        step w EGetPage = Some w'
        /\ activeRequests (pool w') = activeRequests (pool w)
        /\ requestQueue (pool w') =
             requestQueue (pool w)
               ++ [mkPendingRequest (nextReq (ghost w)) (dateNow (engine w)) 1]
        /\ grantLog (ghost w') = grantLog (ghost w)).
Proof.
  intros Hreach. split; [apply reachable_admission, Hreach|].
  intros Heq. eexists. split.
  - cbn [step]. unfold getPage. cbn [getPage_fuel withGhost pool].
    rewrite Heq, Z.geb_leb, Z.leb_refl. reflexivity.
  - repeat split.
Qed.

Lemma activeRequests_within_ceiling_witness :
  reachable saturated
  /\ activeRequests (pool saturated) <= maxConcurrentRequests
  /\ (activeRequests (pool saturated) = maxConcurrentRequests ->
      exists w',
        step saturated EGetPage = Some w'
        /\ activeRequests (pool w') = activeRequests (pool saturated)
        /\ requestQueue (pool w') =
             requestQueue (pool saturated)
               ++ [mkPendingRequest (nextReq (ghost saturated))
                     (dateNow (engine saturated)) 1]
        /\ grantLog (ghost w') = grantLog (ghost saturated)).
Proof.
  assert (Hreach : reachable saturated).
  { apply run_reachable with (es := boot ++ repeat EGetPage 10) (w := initial);
      [apply reachable_initial | vm_compute; reflexivity]. }
  split; [exact Hreach | apply (activeRequests_within_ceiling Hreach)].
Defined.

(** ** C2: admission is first come, first served *)

(** C2.  Requests are numbered in order of arrival.  In every reachable
    state the grant log followed by the pending queue is exactly the
    arrival order: slots were granted in arrival order and what is pending
    is pending in arrival order.  Hence a request that arrived before a
    granted one was granted before it, and no granted request arrived
    after a request that is still pending.  A woken request runs
    [getPage] again inside [processNextQueuedRequest]; the statement
    covers that path. *)
Theorem admission_is_fifo (w : World) :
  reachable w ->
  grantLog (ghost w) ++ queued w = seq 0 (nextReq (ghost w))
  /\ (forall a b, (a < b)%nat -> In b (grantLog (ghost w)) ->
        exists l1 l2 l3, grantLog (ghost w) = l1 ++ a :: l2 ++ b :: l3)
  /\ (forall a b, In a (queued w) -> In b (grantLog (ghost w)) -> (b < a)%nat).
Proof.
  intros Hreach. destruct (reachable_admission Hreach) as [_ _ Hfifo].
  split; [exact Hfifo|].
  destruct (@seq_prefix _ _ _ Hfifo) as [Hgrants Hqueue].
  split.
  - intros a b Hab Hb. rewrite Hgrants in Hb. apply in_seq in Hb.
    assert (Hbg : (b < length (grantLog (ghost w)))%nat) by lia.
    assert (Hsplit := seq_between Hab Hbg).
    rewrite <- Hgrants in Hsplit. eauto.
  - intros a b Ha Hb. rewrite Hgrants in Hb. rewrite Hqueue in Ha.
    apply in_seq in Ha. apply in_seq in Hb. lia.
Qed.

Lemma admission_is_fifo_witness :
  reachable backlogged
  /\ grantLog (ghost backlogged) ++ queued backlogged = seq 0 (nextReq (ghost backlogged))
  /\ (forall a b, (a < b)%nat -> In b (grantLog (ghost backlogged)) ->
        exists l1 l2 l3, grantLog (ghost backlogged) = l1 ++ a :: l2 ++ b :: l3)
  /\ (forall a b, In a (queued backlogged) -> In b (grantLog (ghost backlogged)) ->
        (b < a)%nat).
Proof.
  assert (Hreach : reachable backlogged).
  { apply run_reachable with (es := boot ++ repeat EGetPage 12) (w := initial);
      [apply reachable_initial | vm_compute; reflexivity]. }
  split; [exact Hreach | apply (admission_is_fifo Hreach)].
Defined.

(** ** Parked continuations *)

Lemma extends_refl (w : World) : extends w w.
Proof. split; [lia | auto]. Qed.

Lemma extends_trans (w1 w2 w3 : World) :
  extends w1 w2 -> extends w2 w3 -> extends w1 w3.
Proof.
  intros [H1 H2] [H3 H4]. split; [lia|].
  intros t k Hin. destruct (H4 t k Hin) as [Hin'|Hnew]; [|right; lia].
  destruct (H2 t k Hin') as [Hin''|Hnew]; [auto | right; lia].
Qed.

Lemma extends_fresh (w w' : World) : extends w w' -> tasks_fresh w -> tasks_fresh w'.
Proof.
  intros [Hle Hin] Hfresh t k H. destruct (Hin t k H) as [H'|H']; [|lia].
  specialize (Hfresh t k H'). lia.
Qed.

Lemma dropTask_incl (t : TaskId) (l : list (TaskId * Task)) :
  incl (dropTask t l) l.
Proof.
  induction l as [|[t' k] l IH]; simpl; [apply incl_refl|].
  destruct (Nat.eqb t' t).
  - apply incl_tl, incl_refl.
  - intros x [<-|Hx]; [left; reflexivity | right; apply IH, Hx].
Qed.

Ltac in_cases :=
  repeat match goal with
  | H : In _ (_ ++ _) |- _ => apply in_app_or in H; destruct H as [H|H]
  | H : In _ (_ :: _) |- _ => destruct H as [H|H]; [inversion H; subst; clear H|]
  | H : In _ [] |- _ => destruct H
  end.

(** Closes goals [extends w (segment w)]. *)
Ltac extends_tac :=
  intros; unfold extends; unfold_segments; unfold maxBrowsers in *; simpl;
  repeat (break_match; simpl);
  (split; [lia | intros ? ? Hin; in_cases; auto; right; lia]).

Section Extends.
Variable w : World.

Lemma extends_park k : extends w (park k w).
Proof. extends_tac. Qed.
Lemma extends_settle r res : extends w (settle r res w).
Proof. extends_tac. Qed.
Lemma extends_createNewPage r : extends w (createNewPage r w).
Proof. extends_tac. Qed.
Lemma extends_closePage p : extends w (closePage p (giveBack p w)).
Proof. extends_tac. Qed.
Lemma extends_initializeBrowsers : extends w (initializeBrowsers w).
Proof. extends_tac. Qed.
Lemma extends_browserDisconnects b : extends w (browserDisconnects b w).
Proof. extends_tac. Qed.
Lemma extends_targetDestroyed b : extends w (targetDestroyed b w).
Proof. extends_tac. Qed.
Lemma extends_pageCloses p : extends w (pageCloses p w).
Proof. extends_tac. Qed.
Lemma extends_cleanupPagePool : extends w (cleanupPagePool w).
Proof. extends_tac. Qed.
Lemma extends_performBrowserHealthCheck : extends w (performBrowserHealthCheck w).
Proof. extends_tac. Qed.
Lemma extends_tick ms : extends w (tick ms w).
Proof. extends_tac. Qed.

Lemma extends_unpark t : extends w (unpark t w).
Proof.
  split; [simpl; lia|]. intros t' k Hin. left. simpl in Hin.
  eapply dropTask_incl, Hin.
Qed.

Lemma tasks_getPooledPage p w' :
  getPooledPage w = Some (p, w') ->
  tasks w' = tasks w /\ nextTask w' = nextTask w /\ ghost w' = ghost w
  /\ engine w' = engine w.
Proof.
  intros H. apply getPooledPage_some in H.
  destruct H as (index & pageItem & _ & _ & _ & ->). auto.
Qed.
End Extends.

Lemma getPage_fuel_extends (fuel : nat) :
  forall r w w', getPage_fuel fuel r w = Some w' -> extends w w'.
Proof.
  induction fuel as [|fuel IH]; intros r w w' H; [discriminate|].
  simpl in H. destruct (activeRequests (pool w) >=? maxConcurrentRequests).
  - injection H as <-. extends_tac.
  - destruct (getPooledPage (takeSlot r w)) as [[pooledPage w2]|] eqn:Hpooled.
    + apply tasks_getPooledPage in Hpooled. destruct Hpooled as (Ht & Hn & _ & _).
      unfold processNextQueuedRequest_with in H. simpl in H.
      assert (Hw2 : extends w (releaseSlot w2)).
      { split; simpl; rewrite ?Ht, ?Hn; simpl; auto. }
      destruct (requestQueue (pool w2)) as [|nextRequest rest].
      * injection H as <-. eapply extends_trans; [exact Hw2 | apply extends_settle].
      * destruct (activeRequests (pool w2) - 1 <? maxConcurrentRequests).
        -- destruct (getPage_fuel fuel _ _) as [w3|] eqn:Hnested; [|discriminate].
           injection H as <-. apply IH in Hnested.
           eapply extends_trans; [|apply extends_settle].
           eapply extends_trans; [|exact Hnested].
           destruct Hw2 as [Hle Hin]. split; simpl in *; auto.
        -- injection H as <-. eapply extends_trans; [exact Hw2 | apply extends_settle].
    + injection H as <-.
      eapply extends_trans; [|apply extends_createNewPage]. extends_tac.
Qed.

Lemma resume_extends (k : Task) (ok : bool) (w w' : World) :
  resume k ok w = Some w' -> extends w w'.
Proof.
  destruct k as [b a|index a|a|r b|r b p|r res|p|p rest|rest]; simpl;
    try destruct ok; try destruct a; intros H;
    try (injection H as <-; extends_tac).
  all: unfold getPage_finally, processNextQueuedRequest, processNextQueuedRequest_with in H;
    cbn [releaseSlot withPool pool requestQueue setActiveRequests activeRequests] in H;
    destruct (requestQueue (pool w)) as [|nextRequest rest];
    [injection H as <-; extends_tac|];
    destruct (activeRequests (pool w) - 1 <? maxConcurrentRequests);
    [|injection H as <-; extends_tac];
    destruct (getPage_fuel _ _ _) as [w3|] eqn:Hnested; [|discriminate];
    injection H as <-; apply getPage_fuel_extends in Hnested;
    (eapply extends_trans; [|apply extends_settle]);
    (eapply extends_trans; [|exact Hnested]); extends_tac.
Qed.

Lemma step_extends (w : World) (e : Event) (w' : World) :
  step w e = Some w' -> extends w w'.
Proof.
  destruct e as [| |p|t ok|b|b|p| | |ms]; simpl; intros H;
    try (injection H as <-).
  - apply extends_initializeBrowsers.
  - apply getPage_fuel_extends in H.
    eapply extends_trans; [|exact H]. extends_tac.
  - apply extends_closePage.
  - destruct (lookupTask t (tasks w)); [|injection H as <-; apply extends_refl].
    eapply extends_trans; [apply extends_unpark | eapply resume_extends, H].
  - apply extends_browserDisconnects.
  - apply extends_targetDestroyed.
  - apply extends_pageCloses.
  - apply extends_cleanupPagePool.
  - apply extends_performBrowserHealthCheck.
  - apply extends_tick.
Qed.

Lemma reachable_tasks_fresh (w : World) : reachable w -> tasks_fresh w.
Proof.
  induction 1 as [|w e w' _ IH Hstep]; [intros t k []|].
  eapply extends_fresh; [eapply step_extends, Hstep | exact IH].
Qed.

Lemma lookupTask_parked (w : World) (k : Task) :
  tasks_fresh w -> lookupTask (nextTask w) (tasks w ++ [(nextTask w, k)]) = Some k.
Proof.
  unfold tasks_fresh. generalize (nextTask w) as n. intros n.
  induction (tasks w) as [|[t' k'] l IH]; intros Hfresh; simpl.
  - rewrite Nat.eqb_refl. reflexivity.
  - destruct (Nat.eqb_spec t' n) as [->|_].
    + specialize (Hfresh n k' (or_introl eq_refl)). lia.
    + apply IH. intros t k0 Hin. apply (Hfresh t k0). right. exact Hin.
Qed.

Lemma dropTask_parked (w : World) (k : Task) :
  tasks_fresh w -> dropTask (nextTask w) (tasks w ++ [(nextTask w, k)]) = tasks w.
Proof.
  unfold tasks_fresh. generalize (nextTask w) as n. intros n.
  induction (tasks w) as [|[t' k'] l IH]; intros Hfresh; simpl.
  - rewrite Nat.eqb_refl. reflexivity.
  - destruct (Nat.eqb_spec t' n) as [->|_].
    + specialize (Hfresh n k' (or_introl eq_refl)). lia.
    + f_equal. apply IH. intros t k0 Hin. apply (Hfresh t k0). right. exact Hin.
Qed.

(** ** Slots and the acquires that hold them *)

Lemma slotTasks_snoc (l : list (TaskId * Task)) (n : TaskId) (k : Task) :
  slotTasks (l ++ [(n, k)]) = slotTasks l + (if holdsSlot k then 1 else 0).
Proof.
  unfold slotTasks. rewrite filter_app, length_app. cbn [filter snd].
  destruct (holdsSlot k); cbn [length]; lia.
Qed.

Lemma slotTasks_dropTask (t : TaskId) (k : Task) (l : list (TaskId * Task)) :
  lookupTask t l = Some k ->
  slotTasks (dropTask t l) = slotTasks l - (if holdsSlot k then 1 else 0).
Proof.
  unfold slotTasks. induction l as [|[t' k'] l IH]; cbn [lookupTask dropTask filter snd];
    [discriminate|].
  destruct (Nat.eqb t' t).
  - intros [= ->]. destruct (holdsSlot k); cbn [length]; lia.
  - intros H. specialize (IH H). cbn [filter snd].
    destruct (holdsSlot k'); cbn [length] in *; lia.
Qed.

(** Closes goals comparing [balance] before and after a segment. *)
Ltac balance_tac :=
  intros; unfold balance; unfold_segments; unfold maxBrowsers in *; simpl;
  repeat (first [rewrite slotTasks_snoc | break_match]; simpl); lia.

Lemma getPage_fuel_balance (fuel : nat) :
  forall r w w', getPage_fuel fuel r w = Some w' -> balance w' = balance w.
Proof.
  induction fuel as [|fuel IH]; intros r w w' H; [discriminate|].
  simpl in H. destruct (activeRequests (pool w) >=? maxConcurrentRequests).
  - injection H as <-. balance_tac.
  - destruct (getPooledPage (takeSlot r w)) as [[pooledPage w2]|] eqn:Hpooled.
    + pose proof (admission_getPooledPage _ Hpooled) as Hadm.
      apply tasks_getPooledPage in Hpooled. destruct Hpooled as (Ht & _).
      injection Hadm as Ha _ _ _. simpl in Ha, Ht.
      unfold processNextQueuedRequest_with in H. simpl in H.
      assert (Hw2 : balance (releaseSlot w2) = balance w)
        by (unfold balance; simpl; rewrite Ha, Ht; lia).
      destruct (requestQueue (pool w2)) as [|nextRequest rest].
      * injection H as <-. rewrite <- Hw2. balance_tac.
      * destruct (activeRequests (pool w2) - 1 <? maxConcurrentRequests).
        -- destruct (getPage_fuel fuel _ _) as [w3|] eqn:Hnested; [|discriminate].
           injection H as <-. apply IH in Hnested.
           transitivity (balance w3); [balance_tac|].
           rewrite Hnested, <- Hw2. balance_tac.
        -- injection H as <-. rewrite <- Hw2. balance_tac.
    + injection H as <-. balance_tac.
Qed.

Lemma resume_balance (k : Task) (ok : bool) (w w' : World) :
  resume k ok w = Some w' ->
  balance w' = balance w - (if holdsSlot k then 1 else 0).
Proof.
  destruct k as [b a|index a|a|r b|r b p|r res|p|p rest|rest]; simpl;
    try destruct ok; try destruct a; intros H;
    try (injection H as <-; balance_tac).
  all: unfold getPage_finally, processNextQueuedRequest, processNextQueuedRequest_with in H;
    cbn [releaseSlot withPool pool requestQueue setActiveRequests activeRequests] in H;
    destruct (requestQueue (pool w)) as [|nextRequest rest];
    [injection H as <-; balance_tac|];
    destruct (activeRequests (pool w) - 1 <? maxConcurrentRequests);
    [|injection H as <-; balance_tac];
    destruct (getPage_fuel _ _ _) as [w3|] eqn:Hnested; [|discriminate];
    injection H as <-; apply getPage_fuel_balance in Hnested;
    (transitivity (balance w3); [balance_tac|]); rewrite Hnested; balance_tac.
Qed.

Lemma step_balance (w : World) (e : Event) (w' : World) :
  step w e = Some w' -> balance w' = balance w.
Proof.
  destruct e as [| |p|t ok|b|b|p| | |ms]; simpl; intros H;
    try (injection H as <-; balance_tac).
  - apply getPage_fuel_balance in H. rewrite H. balance_tac.
  - destruct (lookupTask t (tasks w)) as [k|] eqn:Hk; [|injection H as <-; reflexivity].
    apply resume_balance in H. rewrite H. unfold balance. simpl.
    rewrite (slotTasks_dropTask _ _ Hk). lia.
Qed.

(** In every reachable state [activeRequests] counts the [getPage] calls
    that are between taking their slot and their [finally] block. *)
Lemma reachable_balance (w : World) :
  reachable w -> activeRequests (pool w) = slotTasks (tasks w).
Proof.
  intros H. enough (balance w = 0) by (unfold balance in *; lia).
  induction H as [|w e w' _ IH Hstep]; [reflexivity|].
  rewrite (step_balance _ _ Hstep). exact IH.
Qed.

(** ** C1: where the admission slot is released *)

Lemma getPage_fuel_grants (fuel : nat) :
  forall r w w', getPage_fuel fuel r w = Some w' ->
    nextReq (ghost w') = nextReq (ghost w)
    /\ exists more,
         grantLog (ghost w') =
         grantLog (ghost w)
           ++ (if activeRequests (pool w) >=? maxConcurrentRequests then [] else [r])
           ++ more.
Proof.
  induction fuel as [|fuel IH]; intros r w w' H; [discriminate|].
  simpl in H. destruct (activeRequests (pool w) >=? maxConcurrentRequests).
  - injection H as <-. split; [reflexivity|]. exists []. simpl. rewrite app_nil_r. reflexivity.
  - destruct (getPooledPage (takeSlot r w)) as [[pooledPage w2]|] eqn:Hpooled.
    + apply admission_getPooledPage in Hpooled. injection Hpooled as Ha Hq Hg Hn.
      simpl in Ha, Hq, Hg, Hn.
      unfold processNextQueuedRequest_with in H. simpl in H.
      destruct (requestQueue (pool w2)) as [|nextRequest rest].
      * injection H as <-. simpl. split; [exact Hn|]. exists []. rewrite Hg. reflexivity.
      * destruct (activeRequests (pool w2) - 1 <? maxConcurrentRequests).
        -- destruct (getPage_fuel fuel _ _) as [w3|] eqn:Hnested; [|discriminate].
           injection H as <-. apply IH in Hnested. simpl in Hnested.
           destruct Hnested as (Hn3 & more & Hg3). simpl.
           split; [congruence|]. eexists. rewrite Hg3, Hg, <- !app_assoc. reflexivity.
        -- injection H as <-. simpl. split; [exact Hn|]. exists []. rewrite Hg. reflexivity.
    + injection H as <-. split; [frame|]. exists [].
      rewrite app_nil_r.
      pose proof (admission_createNewPage (takeSlot r w) r) as Hadm.
      injection Hadm as _ _ Hg _. exact Hg.
Qed.

(** What the [finally] block of [getPage] does to admission control. *)
Lemma getPage_finally_wakes (r : ReqId) (res : Result) (w w' : World) :
  admission_inv w ->
  getPage_finally r res w = Some w' ->
  exists woken,
    In (r, res) (settled (ghost w'))
    /\ grantLog (ghost w') = grantLog (ghost w) ++ woken
    /\ queued w = woken ++ queued w'
    /\ (requestQueue (pool w) <> [] -> woken <> [])
    /\ (requestQueue (pool w) = [] ->
        activeRequests (pool w') = activeRequests (pool w) - 1).
Proof.
  intros Hinv H.
  pose proof (getPage_finally_admission _ _ Hinv H) as [_ _ Hfifo'].
  destruct Hinv as [Hceil Hbacklog Hfifo].
  unfold getPage_finally, processNextQueuedRequest, processNextQueuedRequest_with in H.
  cbn [releaseSlot withPool pool requestQueue setActiveRequests activeRequests] in H.
  unfold queued in *.
  destruct (requestQueue (pool w)) as [|nextRequest rest] eqn:Hqueue.
  - injection H as <-. exists []. simpl. rewrite app_nil_r, Hqueue.
    split; [apply in_or_app; right; left; reflexivity|]. repeat split; auto.
  - specialize (Hbacklog ltac:(discriminate)).
    destruct (Z.ltb_spec (activeRequests (pool w) - 1) maxConcurrentRequests); [|lia].
    destruct (getPage_fuel _ _ _) as [w3|] eqn:Hnested; [|discriminate].
    injection H as <-. apply getPage_fuel_grants in Hnested.
    cbn [releaseSlot withPool pool ghost requestQueue setActiveRequests
         setRequestQueue activeRequests] in Hnested.
    rewrite Z.geb_leb in Hnested.
    destruct (Z.leb_spec maxConcurrentRequests (activeRequests (pool w) - 1)); [lia|].
    destruct Hnested as (Hn & more & Hg).
    exists (resolve nextRequest :: more). simpl in *.
    repeat split; try assumption; try discriminate.
    { apply in_or_app. right. left. reflexivity. }
    rewrite Hg, Hn, <- Hfifo in Hfifo'.
    rewrite <- app_assoc in Hfifo'. apply app_inv_head in Hfifo'.
    simpl in Hfifo'. symmetry. exact Hfifo'.
Qed.

Lemma free_slot_empty_queue (w : World) :
  reachable w -> activeRequests (pool w) < maxConcurrentRequests ->
  requestQueue (pool w) = [].
Proof.
  intros Hreach Hfree. destruct (reachable_admission Hreach) as [_ Hbacklog _].
  destruct (requestQueue (pool w)); [reflexivity|].
  specialize (Hbacklog ltac:(discriminate)). lia.
Qed.

(** [getPooledPage] reads the cache and the clock only. *)
Lemma getPooledPage_ext (w w' : World) (p : Page) (w1 : World) :
  pagePool (pool w') = pagePool (pool w) ->
  dateNow (engine w') = dateNow (engine w) ->
  getPooledPage w = Some (p, w1) ->
  getPooledPage w' =
  Some (p, withPool (fun pl => setPagePool (pagePool (pool w1)) pl) w').
Proof.
  unfold getPooledPage. intros Hpp Hnow H. rewrite Hpp, Hnow.
  destruct (findIndex _ (pagePool (pool w))) as [index|]; [|discriminate].
  destruct (nth_error (pagePool (pool w)) index); [|discriminate].
  injection H as <- <-. unfold withPool. cbn [pool setPagePool pagePool].
  rewrite Hpp. reflexivity.
Qed.

(** A [getPage] that finds a free slot, nobody waiting and a reusable
    entry completes within its segment. *)
Lemma step_getPage_hit (w : World) (p : Page) (w1 : World) :
  requestQueue (pool w) = [] ->
  activeRequests (pool w) < maxConcurrentRequests ->
  getPooledPage w = Some (p, w1) ->
  step w EGetPage =
  Some (settle (nextReq (ghost w)) (Resolved p)
          (releaseSlot
             (withPool (fun pl => setPagePool (pagePool (pool w1)) pl)
                (takeSlot (nextReq (ghost w)) (withGhost newRequest w))))).
Proof.
  intros Hempty Hfree Hhit.
  cbn [step]. unfold getPage. cbn [getPage_fuel withGhost pool].
  destruct (Z.geb_spec (activeRequests (pool w)) maxConcurrentRequests) as [|_]; [lia|].
  rewrite (@getPooledPage_ext w (takeSlot (nextReq (ghost w)) (withGhost newRequest w)) p w1
             eq_refl eq_refl Hhit).
  unfold processNextQueuedRequest_with.
  cbn [releaseSlot takeSlot withPool withGhost pool requestQueue setActiveRequests setPagePool].
  rewrite Hempty. reflexivity.
Qed.

Lemma getPooledPage_none_ext (w w' : World) :
  pagePool (pool w') = pagePool (pool w) ->
  dateNow (engine w') = dateNow (engine w) ->
  getPooledPage w = None -> getPooledPage w' = None.
Proof.
  unfold getPooledPage. intros -> ->.
  destruct (findIndex _ (pagePool (pool w))) as [index|]; [|reflexivity].
  destruct (nth_error (pagePool (pool w)) index); [discriminate|reflexivity].
Qed.

(** Apart from a [getPage] call and the [finally] block of one, no
    segment touches admission control. *)
Lemma step_admission_frame (w : World) (e : Event) (w' : World) :
  step w e = Some w' ->
  e <> EGetPage ->
  (forall t ok r res, e = EResume t ok -> lookupTask t (tasks w) <> Some (TSettled r res)) ->
  admission w' = admission w.
Proof.
  intros Hstep Hget Hfin.
  destruct e as [| |p|t ok|b|b|p| | |ms]; cbn [step] in Hstep;
    try (injection Hstep as <-).
  - apply admission_initializeBrowsers.
  - contradiction.
  - rewrite admission_closePage. apply admission_giveBack.
  - destruct (lookupTask t (tasks w)) as [k|] eqn:Hk; [|injection Hstep as <-; reflexivity].
    rewrite <- (admission_unpark w t).
    eapply admission_resume; [|exact Hstep].
    intros r res ->. exact (Hfin t ok r res eq_refl Hk).
  - apply admission_browserDisconnects.
  - apply admission_targetDestroyed.
  - apply admission_pageCloses.
  - apply admission_cleanupPagePool.
  - apply admission_performBrowserHealthCheck.
  - apply admission_tick.
Qed.

(** A [getPage] that finds a free slot and no reusable entry keeps its
    slot across the segment. *)
Lemma step_getPage_miss (w : World) :
  activeRequests (pool w) < maxConcurrentRequests ->
  getPooledPage w = None ->
  step w EGetPage =
  Some (createNewPage (nextReq (ghost w))
          (takeSlot (nextReq (ghost w)) (withGhost newRequest w))).
Proof.
  intros Hfree Hmiss.
  cbn [step]. unfold getPage. cbn [getPage_fuel withGhost pool].
  destruct (Z.geb_spec (activeRequests (pool w)) maxConcurrentRequests) as [|_]; [lia|].
  rewrite (@getPooledPage_none_ext w (takeSlot (nextReq (ghost w)) (withGhost newRequest w))
             eq_refl eq_refl Hmiss).
  reflexivity.
Qed.

Lemma step_getPage_full (w : World) :
  activeRequests (pool w) = maxConcurrentRequests ->
  step w EGetPage = Some (enqueue (nextReq (ghost w)) (withGhost newRequest w)).
Proof.
  intros Hfull.
  cbn [step]. unfold getPage. cbn [getPage_fuel withGhost pool].
  destruct (Z.geb_spec (activeRequests (pool w)) maxConcurrentRequests) as [_|]; [|lia].
  reflexivity.
Qed.

(** C1 (as the code has it).  The slot a request took is given back by
    the [finally] block of [getPage], as soon as that call completes with
    a page or an error, and by nothing else.  In every reachable state
    [activeRequests] is the number of [getPage] calls that have taken a
    slot and not yet run their [finally] block.  When the [finally] block
    of one of them runs, its promise settles, the requests it wakes are a
    prefix of the pending queue, granted in queue order, at least one if
    the queue was not empty, and with an empty queue [activeRequests]
    drops by exactly one.  A [getPage] served from the cache takes its
    slot and gives it back within its own segment; one that has to create
    a page keeps its slot across the segment; one that arrives at the
    ceiling is queued.  No other event changes [activeRequests], the
    queue or the grant log: in particular not [closePage] nor the
    continuations it parks. *)
Theorem slot_released_by_getPage_finally (w : World) :
  reachable w ->
  activeRequests (pool w) = slotTasks (tasks w)
  /\ (forall t r res ok,
        lookupTask t (tasks w) = Some (TSettled r res) ->
        exists w' woken,
          step w (EResume t ok) = Some w'
          /\ In (r, res) (settled (ghost w'))
          /\ grantLog (ghost w') = grantLog (ghost w) ++ woken
          /\ queued w = woken ++ queued w'
          /\ (requestQueue (pool w) <> [] -> woken <> [])
          /\ (requestQueue (pool w) = [] ->
              activeRequests (pool w') = activeRequests (pool w) - 1)
          /\ activeRequests (pool w') = slotTasks (tasks w'))
  /\ (forall p w1,
        activeRequests (pool w) < maxConcurrentRequests ->
        getPooledPage w = Some (p, w1) ->
        exists w',
          step w EGetPage = Some w'
          /\ grantLog (ghost w') = grantLog (ghost w) ++ [nextReq (ghost w)]
          /\ settled (ghost w') = settled (ghost w) ++ [(nextReq (ghost w), Resolved p)]
          /\ activeRequests (pool w') = activeRequests (pool w)
          /\ tasks w' = tasks w)
  /\ (activeRequests (pool w) < maxConcurrentRequests ->
      getPooledPage w = None ->
      exists w',
        step w EGetPage = Some w'
        /\ grantLog (ghost w') = grantLog (ghost w) ++ [nextReq (ghost w)]
        /\ settled (ghost w') = settled (ghost w)
        /\ activeRequests (pool w') = activeRequests (pool w) + 1
        /\ slotTasks (tasks w') = slotTasks (tasks w) + 1)
  /\ (activeRequests (pool w) = maxConcurrentRequests ->
      exists w',
        step w EGetPage = Some w'
        /\ grantLog (ghost w') = grantLog (ghost w)
        /\ queued w' = queued w ++ [nextReq (ghost w)]
        /\ activeRequests (pool w') = activeRequests (pool w)
        /\ tasks w' = tasks w)
  /\ (forall e w',
        step w e = Some w' ->
        e <> EGetPage ->
        (forall t ok r res,
           e = EResume t ok -> lookupTask t (tasks w) <> Some (TSettled r res)) ->
        admission w' = admission w)
  /\ (forall p, exists w',
        step w (EClosePage p) = Some w' /\ admission w' = admission w)
  /\ (forall t' k ok' w',
        lookupTask t' (tasks w) = Some k ->
        (exists p, k = TReset p) \/ (exists p rest, k = TPageClose p rest) ->
        step w (EResume t' ok') = Some w' -> admission w' = admission w).
Proof.
  intros Hreach. split; [apply reachable_balance, Hreach|].
  split; [|split; [|split; [|split; [|split; [|split]]]]].
  - intros t r res ok Htask.
    destruct (step_total w (EResume t ok)) as [w' Hstep].
    pose proof (@reachable_step _ _ _ Hreach Hstep) as Hreach'.
    pose proof Hstep as Hfin. cbn [step] in Hfin. rewrite Htask in Hfin. cbn [resume] in Hfin.
    assert (Hinv : admission_inv (unpark t w)).
    { eapply admission_inv_frame; [apply admission_unpark|].
      apply reachable_admission, Hreach. }
    destruct (getPage_finally_wakes _ _ Hinv Hfin) as (woken & Hin & Hg & Hq & Hne & Hdec).
    exists w', woken. repeat split; try assumption.
    apply reachable_balance, Hreach'.
  - intros p w1 Hfree Hhit.
    pose proof (free_slot_empty_queue Hreach Hfree) as Hempty.
    rewrite (step_getPage_hit _ Hempty Hfree Hhit).
    eexists. split; [reflexivity|].
    cbn. repeat split; try reflexivity. lia.
  - intros Hfree Hmiss.
    pose proof (@step_getPage_miss w Hfree Hmiss) as Hstep.
    pose proof (@reachable_step _ _ _ Hreach Hstep) as Hreach'.
    apply reachable_balance in Hreach'. pose proof (reachable_balance Hreach) as Hbal.
    eexists. split; [exact Hstep|].
    pose proof (admission_createNewPage
                  (takeSlot (nextReq (ghost w)) (withGhost newRequest w))
                  (nextReq (ghost w))) as Hadm.
    unfold admission in Hadm. injection Hadm as Ha Hq Hg Hn.
    assert (Hact : activeRequests
                     (pool (createNewPage (nextReq (ghost w))
                              (takeSlot (nextReq (ghost w)) (withGhost newRequest w))))
                   = activeRequests (pool w) + 1) by (rewrite Ha; reflexivity).
    split; [rewrite Hg; reflexivity|].
    split; [frame|].
    split; [exact Hact|]. lia.
  - intros Hfull. rewrite (@step_getPage_full w Hfull).
    eexists. split; [reflexivity|]. unfold queued. cbn.
    rewrite map_app. repeat split.
  - intros e w'. apply step_admission_frame.
  - intros p. eexists. split; [reflexivity|].
    rewrite admission_closePage. apply admission_giveBack.
  - intros t' k ok' w' Hk Hkind Hstep. cbn [step] in Hstep. rewrite Hk in Hstep.
    rewrite <- (admission_unpark w t').
    eapply admission_resume; [|exact Hstep].
    intros r0 res0 ->. destruct Hkind as [[p Hp]|(p & rest & Hp)]; discriminate.
Qed.

Lemma slot_released_by_getPage_finally_witness :
  (reachable completing
   /\ lookupTask 14%nat (tasks completing) = Some (TSettled 0%nat (Resolved 0%nat))
   /\ activeRequests (pool completing) = slotTasks (tasks completing)
   /\ exists w' woken,
        step completing (EResume 14%nat true) = Some w'
        /\ In (0%nat, Resolved 0%nat) (settled (ghost w'))
        /\ grantLog (ghost w') = grantLog (ghost completing) ++ woken
        /\ queued completing = woken ++ queued w'
        /\ (requestQueue (pool completing) <> [] -> woken <> [])
        /\ (requestQueue (pool completing) = [] ->
            activeRequests (pool w') = activeRequests (pool completing) - 1)
        /\ activeRequests (pool w') = slotTasks (tasks w'))
  /\ (reachable holdingWhileFull
      /\ held (ghost holdingWhileFull) = [0%nat]
      /\ activeRequests (pool holdingWhileFull) = slotTasks (tasks holdingWhileFull)
      /\ (forall p, exists w',
            step holdingWhileFull (EClosePage p) = Some w'
            /\ admission w' = admission holdingWhileFull)
      /\ (forall t' k ok' w',
            lookupTask t' (tasks holdingWhileFull) = Some k ->
            (exists p, k = TReset p) \/ (exists p rest, k = TPageClose p rest) ->
            step holdingWhileFull (EResume t' ok') = Some w' ->
            admission w' = admission holdingWhileFull)).
Proof.
  assert (Hcompleting : reachable completing).
  { apply run_reachable
      with (es := boot ++ repeat EGetPage 11 ++ [EResume 3%nat true; EResume 13%nat true])
           (w := initial);
      [apply reachable_initial | vm_compute; reflexivity]. }
  assert (Hholding : reachable holdingWhileFull).
  { apply run_reachable with (es := boot ++ acquireNew 3 ++ repeat EGetPage 11) (w := initial);
      [apply reachable_initial | vm_compute; reflexivity]. }
  assert (Htask : lookupTask 14%nat (tasks completing) = Some (TSettled 0%nat (Resolved 0%nat)))
    by reflexivity.
  destruct (slot_released_by_getPage_finally Hcompleting) as (Hbalance & Hfinally & _).
  destruct (slot_released_by_getPage_finally Hholding)
    as (Hbalance' & _ & _ & _ & _ & _ & Hclose & Hafter).
  split.
  - split; [exact Hcompleting|]. split; [exact Htask|]. split; [exact Hbalance|].
    exact (Hfinally 14%nat 0%nat (Resolved 0%nat) true Htask).
  - split; [exact Hholding|]. split; [reflexivity|]. split; [exact Hbalance'|].
    split; [exact Hclose | exact Hafter].
Defined.

(** C1 as stated fails.  The caller of request 0 holds page 0 while
    [activeRequests] is already back to 0; and releasing page 0 when ten
    requests are in flight and one is queued leaves [activeRequests] at
    10 and request 11 in the queue, ungranted, although the release ran
    to completion and unlocked the cached page. *)
Lemma closePage_releases_no_slot :
  (exists w0,
     run initial (boot ++ acquireNew 3) = Some w0
     /\ held (ghost w0) = [0%nat]
     /\ activeRequests (pool w0) = 0)
  /\ reachable holdingWhileFull
  /\ held (ghost holdingWhileFull) = [0%nat]
  /\ activeRequests (pool holdingWhileFull) = 10
  /\ queued holdingWhileFull = [11%nat]
  /\ exists w',
       run holdingWhileFull [EClosePage 0%nat; EResume 16%nat true] = Some w'
       /\ held (ghost w') = []
       /\ map isLocked (pagePool (pool w')) = [false]
       /\ activeRequests (pool w') <> activeRequests (pool holdingWhileFull) - 1
       /\ activeRequests (pool w') = 10
       /\ queued w' = [11%nat]
       /\ ~ In 11%nat (grantLog (ghost w')).
Proof.
  split; [eexists; split; [vm_compute; reflexivity|split; reflexivity]|].
  split.
  { apply run_reachable with (es := boot ++ acquireNew 3 ++ repeat EGetPage 11) (w := initial);
      [apply reachable_initial | vm_compute; reflexivity]. }
  repeat (split; [reflexivity|]).
  eexists. split; [vm_compute; reflexivity|].
  repeat (split; [try reflexivity|]).
  - vm_compute. discriminate.
  - vm_compute. intros H. repeat (destruct H as [H|H]; [discriminate|]). exact H.
Qed.

(** ** C8: no healthy browser *)

Lemma createNewPage_no_healthy (r : ReqId) (w : World) :
  filter isHealthy (browsers (pool w)) = [] ->
  createNewPage r w =
  park (TSettled r (Rejected NoHealthyBrowsers)) (withGhost (logSelect r) w).
Proof.
  intros H. apply selectBestBrowser_none in H.
  unfold createNewPage. cbn [withGhost pool]. rewrite H. reflexivity.
Qed.

(** C8.  A [getPage] that takes a slot, misses the cache and finds no
    healthy browser parks with the error "No healthy browser instances
    available"; when its [finally] block runs the promise is rejected with
    that error, no page is handed out, and [activeRequests] is back to
    the value it had before the call. *)
Theorem no_healthy_browser_fails_and_frees_slot (w : World) :
  reachable w ->
  activeRequests (pool w) < maxConcurrentRequests ->
  getPooledPage w = None ->
  filter isHealthy (browsers (pool w)) = [] ->
  exists w1,
    step w EGetPage = Some w1
    /\ activeRequests (pool w1) = activeRequests (pool w) + 1
    /\ lookupTask (nextTask w) (tasks w1) =
       Some (TSettled (nextReq (ghost w)) (Rejected NoHealthyBrowsers))
    /\ forall ok, exists w2,
         step w1 (EResume (nextTask w) ok) = Some w2
         /\ activeRequests (pool w2) = activeRequests (pool w)
         /\ settled (ghost w2) =
            settled (ghost w) ++ [(nextReq (ghost w), Rejected NoHealthyBrowsers)]
         /\ held (ghost w2) = held (ghost w).
Proof.
  intros Hreach Hfree Hmiss Hnone.
  pose proof (reachable_tasks_fresh Hreach) as Hfresh.
  destruct (reachable_admission Hreach) as [_ Hbacklog _].
  assert (Hempty : requestQueue (pool w) = []).
  { destruct (requestQueue (pool w)); [reflexivity|].
    specialize (Hbacklog ltac:(discriminate)). lia. }
  set (r := nextReq (ghost w)).
  set (w1 := park (TSettled r (Rejected NoHealthyBrowsers))
               (withGhost (logSelect r) (takeSlot r (withGhost newRequest w)))).
  assert (Hstep : step w EGetPage = Some w1).
  { cbn [step]. unfold getPage. cbn [getPage_fuel withGhost pool].
    rewrite Z.geb_leb.
    destruct (Z.leb_spec maxConcurrentRequests (activeRequests (pool w))); [lia|].
    fold r. rewrite (@getPooledPage_none_ext w) by (reflexivity || exact Hmiss).
    rewrite createNewPage_no_healthy by exact Hnone. reflexivity. }
  assert (Htask : lookupTask (nextTask w) (tasks w1) =
                  Some (TSettled r (Rejected NoHealthyBrowsers)))
    by (apply (lookupTask_parked _ Hfresh)).
  exists w1. repeat split; try assumption.
  intros ok. cbn [step]. rewrite Htask. cbn [resume].
  unfold getPage_finally, processNextQueuedRequest, processNextQueuedRequest_with.
  cbn [w1 park unpark releaseSlot takeSlot withGhost withPool pool requestQueue
       setActiveRequests activeRequests].
  rewrite Hempty. cbn [option_map]. eexists. split; [reflexivity|].
  cbn. repeat split. lia.
Qed.

Lemma no_healthy_browser_fails_and_frees_slot_witness :
  reachable allUnhealthy
  /\ activeRequests (pool allUnhealthy) < maxConcurrentRequests
  /\ getPooledPage allUnhealthy = None
  /\ filter isHealthy (browsers (pool allUnhealthy)) = []
  /\ exists w1,
       step allUnhealthy EGetPage = Some w1
       /\ activeRequests (pool w1) = activeRequests (pool allUnhealthy) + 1
       /\ lookupTask (nextTask allUnhealthy) (tasks w1) =
          Some (TSettled (nextReq (ghost allUnhealthy)) (Rejected NoHealthyBrowsers))
       /\ forall ok, exists w2,
            step w1 (EResume (nextTask allUnhealthy) ok) = Some w2
            /\ activeRequests (pool w2) = activeRequests (pool allUnhealthy)
            /\ settled (ghost w2) =
               settled (ghost allUnhealthy)
                 ++ [(nextReq (ghost allUnhealthy), Rejected NoHealthyBrowsers)]
            /\ held (ghost w2) = held (ghost allUnhealthy).
Proof.
  assert (Hreach : reachable allUnhealthy).
  { apply run_reachable
      with (es := boot ++ [EDisconnected 0%nat; EDisconnected 1%nat; EDisconnected 2%nat])
           (w := initial);
      [apply reachable_initial | vm_compute; reflexivity]. }
  assert (Hfree : activeRequests (pool allUnhealthy) < maxConcurrentRequests)
    by (vm_compute; reflexivity).
  assert (Hmiss : getPooledPage allUnhealthy = None) by reflexivity.
  assert (Hnone : filter isHealthy (browsers (pool allUnhealthy)) = []) by reflexivity.
  repeat (split; [assumption|]).
  apply (no_healthy_browser_fails_and_frees_slot Hreach Hfree Hmiss Hnone).
Defined.

(** ** C9: the page cache is bounded *)

Lemma length_updateAt {A : Type} (i : nat) (g : A -> A) (l : list A) :
  length (updateAt i g l) = length l.
Proof.
  revert i. induction l as [|x l IH]; intros [|i]; simpl; auto.
Qed.

Lemma length_splice1 {A : Type} (i : nat) (l : list A) :
  (length (splice1 i l) <= length l)%nat.
Proof.
  revert i. induction l as [|x l IH]; intros [|i]; simpl; auto.
  specialize (IH i). lia.
Qed.

(** Closes goals bounding the cache after a segment. *)
Ltac cache_tac :=
  intros; unfold cache_bounded in *; unfold_segments; unfold maxBrowsers in *; simpl in *;
  repeat (break_match; simpl);
  rewrite ?length_updateAt, ?length_map, ?length_app; simpl;
  repeat match goal with
  | |- context [length (splice1 ?i ?l)] =>
      pose proof (length_splice1 i l); generalize dependent (length (splice1 i l)); intros
  | H : (_ <? _)%nat = true |- _ => apply Nat.ltb_lt in H
  end;
  lia.

Lemma cache_getPooledPage (w : World) (p : Page) (w' : World) :
  getPooledPage w = Some (p, w') ->
  length (pagePool (pool w')) = length (pagePool (pool w)).
Proof.
  intros H. apply getPooledPage_some in H.
  destruct H as (index & pageItem & _ & _ & _ & ->). simpl. apply length_updateAt.
Qed.

Lemma getPage_fuel_cache (fuel : nat) :
  forall r w w', cache_bounded w -> getPage_fuel fuel r w = Some w' -> cache_bounded w'.
Proof.
  induction fuel as [|fuel IH]; intros r w w' Hinv H; [discriminate|].
  simpl in H. destruct (activeRequests (pool w) >=? maxConcurrentRequests).
  - injection H as <-. cache_tac.
  - destruct (getPooledPage (takeSlot r w)) as [[pooledPage w2]|] eqn:Hpooled.
    + apply cache_getPooledPage in Hpooled. simpl in Hpooled.
      unfold processNextQueuedRequest_with in H. simpl in H.
      destruct (requestQueue (pool w2)) as [|nextRequest rest].
      * injection H as <-. unfold cache_bounded in *. simpl. lia.
      * destruct (activeRequests (pool w2) - 1 <? maxConcurrentRequests).
        -- destruct (getPage_fuel fuel _ _) as [w3|] eqn:Hnested; [|discriminate].
           injection H as <-. apply IH in Hnested; [exact Hnested|].
           unfold cache_bounded in *. simpl. lia.
        -- injection H as <-. unfold cache_bounded in *. simpl. lia.
    + injection H as <-. cache_tac.
Qed.

Lemma resume_cache (k : Task) (ok : bool) (w w' : World) :
  cache_bounded w -> resume k ok w = Some w' -> cache_bounded w'.
Proof.
  intros Hinv.
  destruct k as [b a|index a|a|r b|r b p|r res|p|p rest|rest]; simpl;
    try destruct ok; try destruct a; intros H;
    try (injection H as <-; cache_tac).
  all: unfold getPage_finally, processNextQueuedRequest, processNextQueuedRequest_with in H;
    cbn [releaseSlot withPool pool requestQueue setActiveRequests activeRequests] in H;
    destruct (requestQueue (pool w)) as [|nextRequest rest];
    [injection H as <-; cache_tac|];
    destruct (activeRequests (pool w) - 1 <? maxConcurrentRequests);
    [|injection H as <-; cache_tac];
    destruct (getPage_fuel _ _ _) as [w3|] eqn:Hnested; [|discriminate];
    injection H as <-; apply getPage_fuel_cache in Hnested; [exact Hnested|cache_tac].
Qed.

Lemma step_cache (w : World) (e : Event) (w' : World) :
  cache_bounded w -> step w e = Some w' -> cache_bounded w'.
Proof.
  intros Hinv.
  destruct e as [| |p|t ok|b|b|p| | |ms]; simpl; intros H;
    try (injection H as <-; cache_tac).
  - apply getPage_fuel_cache in H; [exact H|exact Hinv].
  - destruct (lookupTask t (tasks w)) as [k|]; [|injection H as <-; exact Hinv].
    eapply resume_cache; [|exact H]. exact Hinv.
Qed.

Lemma reachable_cache (w : World) : reachable w -> cache_bounded w.
Proof.
  induction 1 as [|w e w' _ IH Hstep].
  - unfold cache_bounded. simpl. lia.
  - eapply step_cache; eassumption.
Qed.

(** C9.  In every reachable state [pagePool] has at most [pagePoolSize]
    entries.  When a newly created page finishes [configurePage] while the
    cache is full, the page is not inserted; and releasing a page that is
    not in the cache leaves the cache as it is: [closePage] only awaits
    [page.close()] (nothing at all if the page is closed already), and the
    continuation of that call does not touch the cache either. *)
Theorem pagePool_within_pagePoolSize (w : World) :
  reachable w ->
  (length (pagePool (pool w)) <= pagePoolSize)%nat
  /\ (forall t r b p,
        lookupTask t (tasks w) = Some (TConfigurePage r b p) ->
        length (pagePool (pool w)) = pagePoolSize ->
        exists w', step w (EResume t true) = Some w'
                   /\ pagePool (pool w') = pagePool (pool w))
  /\ (forall p,
        find (fun item => Nat.eqb (page item) p) (pagePool (pool w)) = None ->
        exists w',
          step w (EClosePage p) = Some w'
          /\ pagePool (pool w') = pagePool (pool w)
          /\ tasks w' =
             tasks w ++ (if isClosed w p then [] else [(nextTask w, TPageClose p [])]))
  /\ (forall p ok w0 w',
        resume (TPageClose p []) ok w0 = Some w' ->
        pagePool (pool w') = pagePool (pool w0)).
Proof.
  intros Hreach. split; [apply reachable_cache, Hreach|]. split; [|split].
  - intros t r b p Htask Hfull. cbn [step]. rewrite Htask. cbn [resume].
    eexists. split; [reflexivity|].
    unfold createNewPage_afterConfigurePage. cbn [park unpark withEngine pool pagePool].
    rewrite Hfull, Nat.ltb_irrefl. reflexivity.
  - intros p Hfind. eexists. split; [reflexivity|].
    unfold closePage. cbn [giveBack withGhost pool]. rewrite Hfind.
    change (isClosed (giveBack p w) p) with (isClosed w p).
    destruct (isClosed w p); cbn; rewrite ?app_nil_r; auto.
  - intros p ok w0 w' H. cbn [resume] in H.
    destruct ok; injection H as <-; [|reflexivity].
    unfold afterRemove, updatePageCount, pageCloses. cbn.
    repeat (break_match; cbn); reflexivity.
Qed.

Lemma cacheFull_reachable : reachable cacheFull.
Proof.
  apply run_reachable
    with (es := boot ++ acquireNew 3 ++ acquireNew 6 ++ acquireNew 9 ++ acquireNew 12
                     ++ acquireNew 15 ++ acquireNew 18 ++ acquireNew 21 ++ acquireNew 24
                     ++ [EGetPage; EResume 27%nat true])
         (w := initial);
    [apply reachable_initial | vm_compute; reflexivity].
Qed.

Lemma pagePool_within_pagePoolSize_witness :
  reachable cacheFull
  /\ length (pagePool (pool cacheFull)) = pagePoolSize
  /\ lookupTask 28%nat (tasks cacheFull) = Some (TConfigurePage 8%nat 2%nat 8%nat)
  /\ (length (pagePool (pool cacheFull)) <= pagePoolSize)%nat
  /\ (forall t r b p,
        lookupTask t (tasks cacheFull) = Some (TConfigurePage r b p) ->
        length (pagePool (pool cacheFull)) = pagePoolSize ->
        exists w', step cacheFull (EResume t true) = Some w'
                   /\ pagePool (pool w') = pagePool (pool cacheFull))
  /\ (forall p,
        find (fun item => Nat.eqb (page item) p) (pagePool (pool cacheFull)) = None ->
        exists w',
          step cacheFull (EClosePage p) = Some w'
          /\ pagePool (pool w') = pagePool (pool cacheFull)
          /\ tasks w' =
             tasks cacheFull
               ++ (if isClosed cacheFull p then []
                   else [(nextTask cacheFull, TPageClose p [])]))
  /\ (forall p ok w0 w',
        resume (TPageClose p []) ok w0 = Some w' ->
        pagePool (pool w') = pagePool (pool w0)).
Proof.
  split; [exact cacheFull_reachable|].
  split; [vm_compute; reflexivity|].
  split; [vm_compute; reflexivity|].
  apply (pagePool_within_pagePoolSize cacheFull_reachable).
Defined.

(** ** C7: a witness *)

Lemma selectBestBrowser_least_loaded_first_witness :
  let bestBrowser := mkBrowserInstance 1%nat (1%nat, 0) 0 0 0 true in
  selectBestBrowser (browsers (pool oneBusy)) = Some bestBrowser
  /\ In bestBrowser (browsers (pool oneBusy))
  /\ isHealthy bestBrowser = true
  /\ (forall b, In b (browsers (pool oneBusy)) -> isHealthy b = true ->
        activePages bestBrowser <= activePages b)
  /\ (exists before after,
        filter isHealthy (browsers (pool oneBusy)) = before ++ bestBrowser :: after
        /\ forall b, In b before -> activePages bestBrowser < activePages b)
  /\ tasks (createNewPage 1%nat oneBusy) =
     tasks oneBusy ++ [(nextTask oneBusy,
        if activePages bestBrowser >=? maxPagesPerBrowser
        then TBrowserClose (browser bestBrowser) (RetryCreate 1%nat)
        else TNewPage 1%nat (browser bestBrowser))].
Proof.
  intros bestBrowser.
  assert (Hsel : selectBestBrowser (browsers (pool oneBusy)) = Some bestBrowser)
    by reflexivity.
  split; [exact Hsel|].
  apply (@selectBestBrowser_least_loaded_first 1%nat oneBusy bestBrowser Hsel).
Defined.

(** ** C6: replacing a saturated browser *)

Lemma resumed_fresh (w : World) : tasks_fresh w -> tasks_fresh (resumed w).
Proof. intros H t k Hin. specialize (H t k Hin). simpl. lia. Qed.

Lemma step_parked (w : World) (k : Task) (ok : bool) :
  tasks_fresh w ->
  step (park k w) (EResume (nextTask w) ok) = resume k ok (resumed w).
Proof.
  intros Hfresh. cbn [step]. cbn [park tasks].
  rewrite (lookupTask_parked _ Hfresh). f_equal.
  unfold unpark, resumed. cbn. rewrite (dropTask_parked _ Hfresh). reflexivity.
Qed.

Lemma filter_healthy_snoc (bs : list BrowserInstance) (b : BrowserInstance) :
  isHealthy b = true -> filter isHealthy (bs ++ [b]) = filter isHealthy bs ++ [b].
Proof. intros H. rewrite filter_app. simpl. rewrite H. reflexivity. Qed.

(** With a healthy, idle browser in the array the selection succeeds and
    returns a browser without active pages. *)
Lemma selectBestBrowser_with_idle (bs : list BrowserInstance) (idle : BrowserInstance) :
  isHealthy idle = true -> activePages idle = 0 ->
  exists chosen,
    selectBestBrowser (bs ++ [idle]) = Some chosen /\ activePages chosen <= 0.
Proof.
  intros Hhealthy Hidle.
  destruct (selectBestBrowser (bs ++ [idle])) as [chosen|] eqn:Hsel.
  - exists chosen. split; [reflexivity|].
    destruct (selectBestBrowser_some _ Hsel) as (before & after & Hsplit & Hbefore & Hafter).
    assert (Hin : In idle (before ++ chosen :: after)).
    { rewrite <- Hsplit, filter_healthy_snoc by exact Hhealthy.
      apply in_or_app. right. left. reflexivity. }
    apply in_app_or in Hin. destruct Hin as [Hin|[Hin|Hin]].
    + specialize (Hbefore _ Hin). lia.
    + subst chosen. lia.
    + specialize (Hafter _ Hin). lia.
  - apply selectBestBrowser_none in Hsel.
    rewrite filter_healthy_snoc in Hsel by exact Hhealthy.
    destruct (filter isHealthy bs); discriminate.
Qed.

Lemma selectBestBrowser_in (bs : list BrowserInstance) (best : BrowserInstance) :
  selectBestBrowser bs = Some best -> In best bs.
Proof.
  intros H. destruct (selectBestBrowser_some _ H) as (before & after & Hsplit & _).
  assert (Hin : In best (filter isHealthy bs))
    by (rewrite Hsplit; apply in_or_app; right; left; reflexivity).
  apply filter_In in Hin. apply Hin.
Qed.

Lemma findIndex_exists {A : Type} (f : A -> bool) (l : list A) (x : A) :
  In x l -> f x = true -> exists index, findIndex f l = Some index.
Proof.
  induction l as [|y l IH]; intros Hin Hx; [destruct Hin|]. simpl.
  destruct (f y) eqn:Hy; [eauto|].
  destruct Hin as [->|Hin]; [congruence|].
  destruct (IH Hin Hx) as [index ->]. simpl. eauto.
Qed.

Lemma findIndex_onInstance (b b' : Browser) (f : BrowserInstance -> BrowserInstance)
    (l : list BrowserInstance) :
  (forall x, browser (f x) = browser x) ->
  findIndex (fun x => Nat.eqb (browser x) b') (onInstance b f l)
  = findIndex (fun x => Nat.eqb (browser x) b') l.
Proof.
  intros Hf. induction l as [|x l IH]; [reflexivity|]. simpl.
  rewrite IH. destruct (Nat.eqb (browser x) b); [rewrite Hf|]; reflexivity.
Qed.

(** X19.  Replacing a saturated browser when nothing fails.  When
    [createNewPage] selects a browser with
    [activePages >= maxPagesPerBrowser] it starts
    [replaceUnhealthyBrowser] and, once that returns, runs
    [createNewPage] again from the selection.  If the close and the
    launch both succeed, the old instance has left [browsers], a fresh
    healthy instance without pages has been appended, and the retry
    selects a browser below the limit and goes on to [newPage()]: the
    selection ran exactly twice, that is, it was retried exactly once. *)
Theorem saturated_browser_replaced_then_one_retry
    (w : World) (r : ReqId) (bestBrowser : BrowserInstance) (ok : bool) :
  tasks_fresh w ->
  selectBestBrowser (browsers (pool w)) = Some bestBrowser ->
  maxPagesPerBrowser <= activePages bestBrowser ->
  exists index w1 w2 w3 chosen,
    lookupTask (nextTask w) (tasks (createNewPage r w))
      = Some (TBrowserClose (browser bestBrowser) (RetryCreate r))
    /\ step (createNewPage r w) (EResume (nextTask w) true) = Some w1
    /\ findIndex (fun x => Nat.eqb (browser x) (browser bestBrowser)) (browsers (pool w))
       = Some index
    /\ browsers (pool w1) =
       splice1 index
         (onInstance (browser bestBrowser) (setIsHealthy false) (browsers (pool w)))
    /\ step w1 (EResume (S (nextTask w)) true) = Some w2
    /\ browsers (pool w2) =
       browsers (pool w1)
         ++ [mkBrowserInstance (nextBrowser (engine w))
               (length (browsers (pool w1)), dateNow (engine w)) 0
               (dateNow (engine w)) (dateNow (engine w)) true]
    /\ step w2 (EResume (S (S (nextTask w))) ok) = Some w3
    /\ selectBestBrowser (browsers (pool w2)) = Some chosen
    /\ activePages chosen < maxPagesPerBrowser
    /\ lookupTask (S (S (S (nextTask w)))) (tasks w3) = Some (TNewPage r (browser chosen))
    /\ selectLog (ghost w3) = selectLog (ghost w) ++ [r; r].
Proof.
  intros Hfresh Hsel Hsat.
  set (b := browser bestBrowser).
  set (wa := withGhost (logSelect r) w).
  assert (Hcreate : createNewPage r w = park (TBrowserClose b (RetryCreate r)) wa).
  { unfold createNewPage. cbn [withGhost pool]. rewrite Hsel, Z.geb_leb.
    destruct (Z.leb_spec maxPagesPerBrowser (activePages bestBrowser)); [reflexivity|lia]. }
  assert (Hfa : tasks_fresh wa) by exact Hfresh.
  destruct (@findIndex_exists _ (fun x => Nat.eqb (browser x) b) (browsers (pool w)) bestBrowser)
    as [index Hidx]; [apply selectBestBrowser_in, Hsel | apply Nat.eqb_refl |].
  (* browser.close() resolves *)
  set (wb := replaceUnhealthyBrowser_afterClose b (browserDisconnects b (resumed wa))).
  assert (Hwb : browsers (pool wb)
                = splice1 index (onInstance b (setIsHealthy false) (browsers (pool w)))
                /\ tasks wb = tasks w /\ nextTask wb = S (nextTask w)
                /\ nextBrowser (engine wb) = nextBrowser (engine w)
                /\ dateNow (engine wb) = dateNow (engine w)
                /\ selectLog (ghost wb) = selectLog (ghost w) ++ [r]).
  { unfold wb, replaceUnhealthyBrowser_afterClose.
    cbn [browserDisconnects updateInstance withEngine pool
      browsers setBrowsers resumed wa withGhost].
    rewrite findIndex_onInstance by reflexivity. rewrite Hidx. cbn. auto 10. }
  destruct Hwb as (Hbrowsers1 & Htasks1 & Hnext1 & Hnb1 & Hnow1 & Hlog1).
  assert (Hfb : tasks_fresh wb).
  { intros t k Hin. rewrite Htasks1 in Hin. rewrite Hnext1.
    specialize (Hfresh t k Hin). lia. }
  set (w1 := park (TLaunch (length (browsers (pool wb))) (Some (RetryCreate r))) wb).
  (* puppeteer.launch() resolves *)
  set (wc := createBrowserInstance_afterLaunch (length (browsers (pool wb))) (resumed wb)).
  assert (Hfc : tasks_fresh wc).
  { intros t k Hin. specialize (Hfb t k Hin). cbn. lia. }
  set (w2 := park (TReplaced (RetryCreate r)) wc).
  destruct (@selectBestBrowser_with_idle (browsers (pool wb))
              (mkBrowserInstance (nextBrowser (engine w))
                 (length (browsers (pool wb)), dateNow (engine w)) 0
                 (dateNow (engine w)) (dateNow (engine w)) true)
              eq_refl eq_refl) as (chosen & Hchosen & Hidle).
  assert (Hbrowsers2 : browsers (pool w2) =
            browsers (pool wb)
              ++ [mkBrowserInstance (nextBrowser (engine w))
                    (length (browsers (pool wb)), dateNow (engine w)) 0
                    (dateNow (engine w)) (dateNow (engine w)) true]).
  { cbn. rewrite Hnb1, Hnow1. reflexivity. }
  (* the await of replaceUnhealthyBrowser returns: the retry *)
  set (wd := withGhost (logSelect r) (resumed wc)).
  assert (Hretry : createNewPage r (resumed wc) = park (TNewPage r (browser chosen)) wd).
  { unfold createNewPage. fold wd.
    change (browsers (pool wd)) with (browsers (pool w2)).
    rewrite Hbrowsers2, Hchosen, Z.geb_leb.
    destruct (Z.leb_spec maxPagesPerBrowser (activePages chosen)); [|reflexivity].
    rewrite maxPagesPerBrowser_value in *. lia. }
  assert (Hfd : tasks_fresh wd).
  { intros t k Hin. specialize (Hfc t k Hin). cbn in *. lia. }
  exists index, w1, w2, (park (TNewPage r (browser chosen)) wd), chosen.
  rewrite Hcreate. repeat split.
  - apply (lookupTask_parked _ Hfa).
  - rewrite (step_parked _ true Hfa). reflexivity.
  - exact Hidx.
  - exact Hbrowsers1.
  - unfold w1.
    replace (EResume _ true) with (EResume (nextTask wb) true)
      by (rewrite Hnext1; reflexivity).
    rewrite (step_parked _ true Hfb). reflexivity.
  - rewrite Hbrowsers2. reflexivity.
  - unfold w2.
    replace (EResume _ ok) with (EResume (nextTask wc) ok)
      by (cbn; rewrite Hnext1; reflexivity).
    rewrite (step_parked _ ok Hfc). cbn [resume]. rewrite Hretry. reflexivity.
  - rewrite Hbrowsers2 in *. exact Hchosen.
  - rewrite maxPagesPerBrowser_value. lia.
  - replace (lookupTask _) with (lookupTask (nextTask wd))
      by (cbn; rewrite Hnext1; reflexivity).
    apply (lookupTask_parked _ Hfd).
  - cbn. rewrite Hlog1, <- app_assoc. reflexivity.
Qed.

Lemma saturated_browser_replaced_then_one_retry_witness :
  let w := oneSaturated in
  let r := 8%nat in
  let bestBrowser := mkBrowserInstance 0%nat (0%nat, 0) 8 0 0 true in
  tasks_fresh w
  /\ selectBestBrowser (browsers (pool w)) = Some bestBrowser
  /\ maxPagesPerBrowser <= activePages bestBrowser
  /\ exists index w1 w2 w3 chosen,
    lookupTask (nextTask w) (tasks (createNewPage r w))
      = Some (TBrowserClose (browser bestBrowser) (RetryCreate r))
    /\ step (createNewPage r w) (EResume (nextTask w) true) = Some w1
    /\ findIndex (fun x => Nat.eqb (browser x) (browser bestBrowser)) (browsers (pool w))
       = Some index
    /\ browsers (pool w1) =
       splice1 index
         (onInstance (browser bestBrowser) (setIsHealthy false) (browsers (pool w)))
    /\ step w1 (EResume (S (nextTask w)) true) = Some w2
    /\ browsers (pool w2) =
       browsers (pool w1)
         ++ [mkBrowserInstance (nextBrowser (engine w))
               (length (browsers (pool w1)), dateNow (engine w)) 0
               (dateNow (engine w)) (dateNow (engine w)) true]
    /\ step w2 (EResume (S (S (nextTask w))) true) = Some w3
    /\ selectBestBrowser (browsers (pool w2)) = Some chosen
    /\ activePages chosen < maxPagesPerBrowser
    /\ lookupTask (S (S (S (nextTask w)))) (tasks w3) = Some (TNewPage r (browser chosen))
    /\ selectLog (ghost w3) = selectLog (ghost w) ++ [r; r].
Proof.
  intros w r bestBrowser.
  assert (Hfresh : tasks_fresh w) by (intros t k []).
  assert (Hsel : selectBestBrowser (browsers (pool w)) = Some bestBrowser) by reflexivity.
  assert (Hsat : maxPagesPerBrowser <= activePages bestBrowser)
    by (vm_compute; discriminate).
  repeat (split; [assumption|]).
  apply (@saturated_browser_replaced_then_one_retry w r bestBrowser true Hfresh Hsel Hsat).
Defined.

(** There is no bound: as long as [browser.close()] rejects, the request
    goes round, selecting the same saturated browser each time, and
    nothing else changes. *)
Lemma close_rejections_retry_without_bound (n : nat) :
  forall (w : World) (r : ReqId) (bestBrowser : BrowserInstance),
    tasks_fresh w ->
    selectBestBrowser (browsers (pool w)) = Some bestBrowser ->
    maxPagesPerBrowser <= activePages bestBrowser ->
    exists w',
      run (createNewPage r w) (closeRejects n (nextTask w)) = Some (createNewPage r w')
      /\ pool w' = pool w
      /\ tasks w' = tasks w
      /\ nextTask w' = (nextTask w + 2 * n)%nat
      /\ selectLog (ghost w') = selectLog (ghost w) ++ repeat r n
      /\ settled (ghost w') = settled (ghost w)
      /\ lookupTask (nextTask w') (tasks (createNewPage r w'))
         = Some (TBrowserClose (browser bestBrowser) (RetryCreate r)).
Proof.
  induction n as [|n IH]; intros w r bestBrowser Hfresh Hsel Hsat.
  - exists w. simpl. rewrite app_nil_r. repeat split; [lia|].
    rewrite createNewPage_tasks, Hsel, Z.geb_leb.
    destruct (Z.leb_spec maxPagesPerBrowser (activePages bestBrowser)); [|lia].
    apply (lookupTask_parked _ Hfresh).
  - set (wa := withGhost (logSelect r) w).
    assert (Hcreate : createNewPage r w
                      = park (TBrowserClose (browser bestBrowser) (RetryCreate r)) wa).
    { unfold createNewPage. cbn [withGhost pool]. rewrite Hsel, Z.geb_leb.
      destruct (Z.leb_spec maxPagesPerBrowser (activePages bestBrowser));
        [reflexivity|lia]. }
    assert (Hfa : tasks_fresh wa) by exact Hfresh.
    assert (Hfb : tasks_fresh (resumed wa)) by (apply resumed_fresh, Hfa).
    assert (Hfc : tasks_fresh (resumed (resumed wa))) by (apply resumed_fresh, Hfb).
    destruct (IH (resumed (resumed wa)) r bestBrowser Hfc Hsel Hsat)
      as (w' & Hrun & Hpool & Htasks & Hnext & Hlog & Hsettled & Hlookup).
    exists w'. split; [|split; [|split; [|split; [|split; [|split]]]]].
    + rewrite Hcreate. cbn [closeRejects run].
      change (nextTask w) with (nextTask wa).
      rewrite (step_parked _ false Hfa). cbn [resume].
      change (S (nextTask wa)) with (nextTask (resumed wa)).
      rewrite (step_parked _ true Hfb). cbn [resume].
      exact Hrun.
    + exact Hpool.
    + exact Htasks.
    + rewrite Hnext. cbn. lia.
    + rewrite Hlog. cbn. rewrite <- app_assoc. reflexivity.
    + exact Hsettled.
    + exact Hlookup.
Qed.

(** C6 fails in the code.  [createNewPage] calls itself after
    [replaceUnhealthyBrowser] whatever that did, and
    [replaceUnhealthyBrowser] swallows its errors.  Request 8 misses the
    cache and selects browser 0, the only healthy one, which has 8 active
    pages.  As long as [browser.close()] rejects, nothing is removed or
    created and the retry selects browser 0 again: after [n] rejections
    the selection has run [n + 1] times, the request is still pending and
    the next [close()] is awaited.  Once a close succeeds the request is
    served: after one rejection the selection has run three times.  A
    failed launch does the same where a second browser is saturated:
    browser 0 is closed and not replaced, the retry selects browser 1 and
    replaces it too, and request 16 is served by the third selection. *)
Theorem saturated_browser_retried_without_bound :
  reachable oneSaturated
  /\ selectBestBrowser (browsers (pool oneSaturated))
     = Some (mkBrowserInstance 0%nat (0%nat, 0) 8 0 0 true)
  /\ maxPagesPerBrowser = 8
  /\ activeRequests (pool oneSaturated) < maxConcurrentRequests
  /\ getPooledPage oneSaturated = None
  /\ (forall n, exists w',
        run oneSaturated (EGetPage :: closeRejects n 27%nat) = Some w'
        /\ selectLog (ghost w') = selectLog (ghost oneSaturated) ++ repeat 8%nat (S n)
        /\ browsers (pool w') = browsers (pool oneSaturated)
        /\ settled (ghost w') = settled (ghost oneSaturated)
        /\ tasks w' = [((27 + 2 * n)%nat, TBrowserClose 0%nat (RetryCreate 8%nat))])
  /\ (exists w',
        run oneSaturated
          [EGetPage; EResume 27%nat false; EResume 28%nat true;   (* close rejects; retry *)
           EResume 29%nat true; EResume 30%nat true;              (* close, launch resolve *)
           EResume 31%nat true;                                   (* retry *)
           EResume 32%nat true; EResume 33%nat true;              (* newPage, configurePage *)
           EResume 34%nat true] = Some w'
        /\ In (8%nat, Resolved 8%nat) (settled (ghost w'))
        /\ selectLog (ghost w') = selectLog (ghost oneSaturated) ++ [8; 8; 8]%nat)
  /\ (reachable twoSaturated
      /\ map activePages (browsers (pool twoSaturated)) = [8; 8; 0]
      /\ map isHealthy (browsers (pool twoSaturated)) = [true; true; false]
      /\ getPooledPage twoSaturated = None
      /\ exists w',
           run twoSaturated
             [EGetPage; EResume 51%nat true;                      (* browser 0 closed *)
              EResume 52%nat false;                               (* the launch fails *)
              EResume 53%nat true;                                (* retry: browser 1 *)
              EResume 54%nat true; EResume 55%nat true;           (* browser 1 replaced *)
              EResume 56%nat true;                                (* retry *)
              EResume 57%nat true; EResume 58%nat true;           (* newPage, configurePage *)
              EResume 59%nat true] = Some w'
           /\ In (16%nat, Resolved 16%nat) (settled (ghost w'))
           /\ selectLog (ghost w') = selectLog (ghost twoSaturated) ++ [16; 16; 16]%nat).
Proof.
  assert (Hreach : reachable oneSaturated).
  { apply run_reachable with (es := loadOneBrowser) (w := initial);
      [apply reachable_initial | vm_compute; reflexivity]. }
  split; [exact Hreach|]. split; [reflexivity|].
  split; [apply maxPagesPerBrowser_value|].
  assert (Hfree : activeRequests (pool oneSaturated) < maxConcurrentRequests)
    by (vm_compute; reflexivity).
  split; [exact Hfree|]. split; [reflexivity|].
  split; [|split].
  - intros n.
    set (w0 := takeSlot 8%nat (withGhost newRequest oneSaturated)).
    assert (Hstep : step oneSaturated EGetPage = Some (createNewPage 8%nat w0))
      by (apply (@step_getPage_miss oneSaturated Hfree); reflexivity).
    assert (Hfresh : tasks_fresh w0) by (intros t k []).
    assert (Hsat : maxPagesPerBrowser <= activePages (mkBrowserInstance 0%nat (0%nat, 0) 8 0 0 true))
      by (rewrite maxPagesPerBrowser_value; cbn; lia).
    destruct (@close_rejections_retry_without_bound n w0 8%nat _ Hfresh eq_refl Hsat)
      as (w' & Hrun & Hpool & Htasks & Hnext & Hlog & Hsettled & Hlookup).
    exists (createNewPage 8%nat w'). cbn [run]. rewrite Hstep.
    split; [exact Hrun|].
    assert (Hsel : selectBestBrowser (browsers (pool w'))
                   = Some (mkBrowserInstance 0%nat (0%nat, 0) 8 0 0 true))
      by (rewrite Hpool; reflexivity).
    assert (Hcreate : createNewPage 8%nat w'
                      = park (TBrowserClose 0%nat (RetryCreate 8%nat))
                             (withGhost (logSelect 8%nat) w')).
    { unfold createNewPage. cbn [withGhost pool]. rewrite Hsel, Z.geb_leb.
      cbn [activePages browser].
      destruct (Z.leb_spec maxPagesPerBrowser 8); [reflexivity|].
      rewrite maxPagesPerBrowser_value in *. lia. }
    rewrite Hcreate.
    cbn [park withGhost pool ghost tasks nextTask logSelect selectLog settled].
    rewrite Hpool, Htasks, Hlog, Hsettled, Hnext.
    split; [|split; [reflexivity|split; [reflexivity|]]].
    + cbn [w0 takeSlot withGhost withPool ghost logGrant newRequest selectLog].
      rewrite <- app_assoc. f_equal.
      change (8%nat :: repeat 8%nat n) with (repeat 8%nat (S n)).
      clear. induction n as [|n IH]; [reflexivity|]. cbn. f_equal. exact IH.
    + reflexivity.
  - eexists. split; [vm_compute; reflexivity|].
    split; [vm_compute; tauto|]. vm_compute; reflexivity.
  - split.
    { apply run_reachable
        with (es := boot ++ [EDisconnected 2%nat] ++ acquires 16 3) (w := initial);
        [apply reachable_initial | vm_compute; reflexivity]. }
    split; [reflexivity|]. split; [reflexivity|]. split; [reflexivity|].
    eexists. split; [vm_compute; reflexivity|].
    split; [vm_compute; tauto | vm_compute; reflexivity].
Qed.

(** ** C4 and C5: page counts when a page is closed *)

(** Where the loop run on every page close takes its page from: the first
    connected browser of the array.  The page being closed is not an
    input. *)
Lemma decrementFirstConnected_first (gone : list Browser)
    (before : list BrowserInstance) (b : BrowserInstance) (rest : list BrowserInstance) :
  (forall x, In x before -> memb (browser x) gone = true) ->
  memb (browser b) gone = false ->
  decrementFirstConnected gone (before ++ b :: rest)
  = before ++ setActivePages (Z.max 0 (activePages b - 1)) b :: rest.
Proof.
  intros Hbefore Hb. induction before as [|x before IH]; simpl.
  - rewrite Hb. reflexivity.
  - rewrite (Hbefore x (or_introl eq_refl)). simpl. f_equal.
    apply IH. intros y Hy. apply Hbefore. right. exact Hy.
Qed.

(** C4 on a concrete run.  Page 1 belongs to browser 1.  Its release finds
    it in the cache, [resetPageForReuse] rejects, [removePageFromPool]
    takes it out of the cache and closes it.  The cache no longer holds
    page 1, but the count of browser 1 is where it was and browser 0 lost
    two: one in the page's "close" listener, one in
    [removePageFromPool].  Only the "targetdestroyed" event of browser 1,
    if the engine delivers it, lowers the owner's count. *)
Lemma reset_failure_decrements_first_browser_twice :
  reachable fourPages
  /\ pageOwner (engine fourPages) = [(3, 0); (2, 2); (1, 1); (0, 0)]%nat
  /\ map page (pagePool (pool fourPages)) = [0; 1; 2; 3]%nat
  /\ map activePages (browsers (pool fourPages)) = [2; 1; 1]
  /\ (exists w',
        run fourPages [EClosePage 1%nat; EResume 15%nat false; EResume 16%nat true] = Some w'
        /\ tasks w' = []
        /\ map page (pagePool (pool w')) = [0; 2; 3]%nat
        /\ map activePages (browsers (pool w')) = [0; 1; 1])
  /\ (exists w',
        run fourPages [EClosePage 1%nat; EResume 15%nat false; EResume 16%nat true;
                       ETargetDestroyed 1%nat] = Some w'
        /\ map activePages (browsers (pool w')) = [0; 0; 1]).
Proof.
  split.
  { apply run_reachable
      with (es := boot ++ acquireNew 3 ++ acquireNew 6 ++ acquireNew 9 ++ acquireNew 12)
           (w := initial);
      [apply reachable_initial | vm_compute; reflexivity]. }
  repeat (split; [reflexivity|]).
  split; eexists; (split; [vm_compute; reflexivity|]); repeat split.
Qed.

(** C5 on a concrete run.  Page 9 is not cached and belongs to browser 0,
    which has four pages.  One release of page 9 closes it and takes the
    count of browser 0 from 4 to 2: the "close" listener and [closePage]
    both decrement (the "targetdestroyed" event, if delivered, takes it
    to 1).  A second release of page 9 changes nothing. *)
Lemma single_release_decrements_twice :
  reachable tenPages
  /\ find (fun item => Nat.eqb (page item) 9%nat) (pagePool (pool tenPages)) = None
  /\ In (9%nat, 0%nat) (pageOwner (engine tenPages))
  /\ map activePages (browsers (pool tenPages)) = [4; 3; 3]
  /\ (exists w',
        run tenPages [EClosePage 9%nat; EResume 33%nat true] = Some w'
        /\ tasks w' = []
        /\ map activePages (browsers (pool w')) = [2; 3; 3]
        /\ step w' (EClosePage 9%nat) = Some w')
  /\ (exists w',
        run tenPages [EClosePage 9%nat; EResume 33%nat true; ETargetDestroyed 0%nat]
          = Some w'
        /\ map activePages (browsers (pool w')) = [1; 3; 3]).
Proof.
  split.
  { apply run_reachable
      with (es := boot ++ acquireNew 3 ++ acquireNew 6 ++ acquireNew 9 ++ acquireNew 12
                       ++ acquireNew 15 ++ acquireNew 18 ++ acquireNew 21 ++ acquireNew 24
                       ++ acquireNew 27 ++ acquireNew 30)
           (w := initial);
      [apply reachable_initial | vm_compute; reflexivity]. }
  split; [reflexivity|]. split; [vm_compute; tauto|]. split; [reflexivity|].
  split; eexists; (split; [vm_compute; reflexivity|]); repeat split.
Qed.

(** ** C10: a cached page has one holder at a time *)

Section Excl.
Variables (c cfg : list Page) (pp : list PagePoolItem) (n : nat).
Hypothesis H : excl c cfg pp n.

Lemma excl_weaken (c' cfg' : list Page) (n' : nat) :
  NoDup c' -> incl c' c -> incl cfg' cfg -> (n <= n')%nat -> excl c' cfg' pp n'.
Proof.
  destruct H as (H1 & H2 & H3 & H4 & H5 & H6). intros Hnd Hc Hcfg Hn.
  repeat split; auto.
  - intros p Hp. specialize (H2 p (Hc p Hp)). lia.
  - intros it Hit. specialize (H4 it Hit). lia.
  - intros it Hit Hl Hin. apply (H5 it Hit Hl). apply Hc, Hin.
Qed.

Lemma excl_perm (c' : list Page) : Permutation c c' -> excl c' cfg pp n.
Proof.
  intros Hp. apply excl_weaken; auto using incl_refl.
  - eapply Permutation_NoDup; [exact Hp | apply H].
  - intros p Hin. eapply Permutation_in; [symmetry; exact Hp | exact Hin].
Qed.

Lemma excl_pool (pp' : list PagePoolItem) :
  NoDup (map page pp') ->
  (forall it', In it' pp' ->
     exists it, In it pp /\ page it = page it'
                /\ (isLocked it' = false -> isLocked it = false)) ->
  excl c cfg pp' n.
Proof.
  destruct H as (H1 & H2 & H3 & H4 & H5 & H6). intros Hnd Hsub.
  repeat split; auto.
  - intros it' Hit'. destruct (Hsub it' Hit') as (it & Hit & Hpage & _).
    rewrite <- Hpage. apply H4, Hit.
  - intros it' Hit' Hl. destruct (Hsub it' Hit') as (it & Hit & Hpage & Hlock).
    rewrite <- Hpage. apply H5; auto.
  - intros p Hp Hin. apply (H6 p Hp). apply in_map_iff in Hin.
    destruct Hin as (it' & <- & Hit'). destruct (Hsub it' Hit') as (it & Hit & Hpage & _).
    rewrite <- Hpage. apply in_map, Hit.
Qed.

Lemma excl_fresh : excl (n :: c) (n :: cfg) pp (S n).
Proof.
  destruct H as (H1 & H2 & H3 & H4 & H5 & H6). repeat split; auto.
  - constructor; [|exact H1]. intros Hin. specialize (H2 n Hin). lia.
  - intros p [<-|Hp]; [lia|]. specialize (H2 p Hp). lia.
  - intros it Hit. specialize (H4 it Hit). lia.
  - intros it Hit Hl [Heq|Hin]; [|exact (H5 it Hit Hl Hin)].
    specialize (H4 it Hit). lia.
  - intros p [<-|Hp] Hin; [|exact (H6 p Hp Hin)].
    apply in_map_iff in Hin. destruct Hin as (it & Heq & Hit).
    specialize (H4 it Hit). lia.
Qed.

Lemma excl_push (cfg' : list Page) (p : Page) (a b : Z) :
  In p c -> ~ In p (map page pp) -> ~ In p cfg' -> incl cfg' cfg ->
  excl c cfg' (pp ++ [mkPagePoolItem p a b true]) n.
Proof.
  destruct H as (H1 & H2 & H3 & H4 & H5 & H6). intros Hp Hnew Hcfg' Hincl.
  repeat split; auto.
  - rewrite map_app. simpl. apply NoDup_app_remove_l with (l := []).
    simpl. apply Permutation_NoDup with (l := p :: map page pp).
    + apply Permutation_cons_append.
    + constructor; assumption.
  - intros it Hit. apply in_app_or in Hit. destruct Hit as [Hit|[<-|[]]]; auto.
  - intros it Hit Hl. apply in_app_or in Hit.
    destruct Hit as [Hit|[<-|[]]]; [auto | discriminate].
  - intros q Hq Hin. rewrite map_app in Hin. apply in_app_or in Hin.
    destruct Hin as [Hin|[<-|[]]]; [exact (H6 q (Hincl q Hq) Hin) | exact (Hcfg' Hq)].
Qed.

Lemma excl_unlock (p : Page) (now : Z) :
  ~ In p c ->
  excl c cfg
       (map (fun it => if Nat.eqb (page it) p then setLock false now it else it) pp) n.
Proof.
  destruct H as (H1 & H2 & H3 & H4 & H5 & H6). intros Hp.
  assert (Hpages :
    map page (map (fun it => if Nat.eqb (page it) p then setLock false now it else it) pp)
    = map page pp).
  { rewrite map_map. apply map_ext. intros it.
    destruct (Nat.eqb (page it) p); reflexivity. }
  repeat split; auto.
  - rewrite Hpages. exact H3.
  - intros it' Hit'. apply in_map_iff in Hit'. destruct Hit' as (it & <- & Hit).
    specialize (H4 it Hit). destruct (Nat.eqb (page it) p); exact H4.
  - intros it' Hit' Hl. apply in_map_iff in Hit'. destruct Hit' as (it & <- & Hit).
    destruct (Nat.eqb_spec (page it) p) as [Heq|Hne].
    + simpl. rewrite Heq. exact Hp.
    + apply H5; assumption.
  - rewrite Hpages. exact H6.
Qed.
End Excl.

Lemma in_splice1 {A : Type} (i : nat) (l : list A) (x : A) :
  In x (splice1 i l) -> In x l.
Proof.
  revert i. induction l as [|y l IH]; intros [|i] Hin; simpl in *; auto.
  destruct Hin as [->|Hin]; [auto | right; eapply IH, Hin].
Qed.

Lemma NoDup_map_splice1 {A B : Type} (f : A -> B) (i : nat) (l : list A) :
  NoDup (map f l) -> NoDup (map f (splice1 i l)).
Proof.
  revert i. induction l as [|y l IH]; intros [|i] Hnd; simpl in *; auto.
  - inversion Hnd; assumption.
  - inversion Hnd as [|? ? Hnotin Hnd']; subst. constructor; [|apply IH, Hnd'].
    intros Hin. apply Hnotin. apply in_map_iff in Hin. destruct Hin as (x & <- & Hx).
    apply in_map. eapply in_splice1, Hx.
Qed.

Lemma map_page_lock (i : nat) (locked : bool) (now : Z) (l : list PagePoolItem) :
  map page (updateAt i (setLock locked now) l) = map page l.
Proof.
  revert i. induction l as [|y l IH]; intros [|i]; simpl; auto. rewrite IH. reflexivity.
Qed.

Lemma in_updateAt {A : Type} (i : nat) (g : A -> A) (l : list A) (x y : A) :
  nth_error l i = Some x -> In y (updateAt i g l) ->
  y = g x \/ exists j, j <> i /\ nth_error l j = Some y.
Proof.
  revert i. induction l as [|z l IH]; intros [|i] Hnth Hin; simpl in *; try discriminate.
  - injection Hnth as ->. destruct Hin as [<-|Hin]; [auto|].
    right. apply In_nth_error in Hin. destruct Hin as [j Hj]. exists (S j).
    split; [lia | exact Hj].
  - destruct Hin as [<-|Hin].
    + right. exists O. split; [lia | reflexivity].
    + destruct (IH i Hnth Hin) as [->|(j & Hne & Hj)]; [auto|].
      right. exists (S j). split; [lia|exact Hj].
Qed.

Lemma findIndex_nth {A : Type} (f : A -> bool) (l : list A) (i : nat) :
  findIndex f l = Some i -> exists x, nth_error l i = Some x /\ f x = true.
Proof.
  revert i. induction l as [|y l IH]; intros i Hfind; simpl in *; [discriminate|].
  destruct (f y) eqn:Hy.
  - injection Hfind as <-. exists y. split; [reflexivity | exact Hy].
  - destruct (findIndex f l) as [j|]; [|discriminate]. injection Hfind as <-.
    apply IH. reflexivity.
Qed.

(** Taking an unlocked entry: it becomes locked and claimed. *)
Lemma excl_claim (c cfg : list Page) (pp : list PagePoolItem) (n i : nat)
    (it : PagePoolItem) (now : Z) :
  excl c cfg pp n -> nth_error pp i = Some it -> isLocked it = false ->
  excl (page it :: c) cfg (updateAt i (setLock true now) pp) n.
Proof.
  intros (H1 & H2 & H3 & H4 & H5 & H6) Hnth Hunlocked.
  pose proof (nth_error_In _ _ Hnth) as Hin.
  repeat split.
  - constructor; [apply H5; assumption | exact H1].
  - intros p [<-|Hp]; [apply H4, Hin | apply H2, Hp].
  - rewrite map_page_lock. exact H3.
  - intros it' Hit'. destruct (@in_updateAt _ _ _ _ _ _ Hnth Hit') as [->|(j & _ & Hj)].
    + exact (H4 it Hin).
    + apply H4. eapply nth_error_In, Hj.
  - intros it' Hit' Hl. destruct (@in_updateAt _ _ _ _ _ _ Hnth Hit') as [->|(j & Hne & Hj)].
    + discriminate.
    + intros [Heq|Hc].
      * apply Hne. apply (proj1 (NoDup_nth_error (map page pp)) H3).
        -- rewrite length_map. apply nth_error_Some. congruence.
        -- rewrite !nth_error_map, Hnth, Hj. simpl. congruence.
      * apply (H5 it'); [eapply nth_error_In, Hj | exact Hl | exact Hc].
  - rewrite map_page_lock. exact H6.
Qed.

Lemma excl_perm_cfg (c cfg c' cfg' : list Page) (pp : list PagePoolItem) (n : nat) :
  excl c cfg pp n -> Permutation c c' -> incl cfg' cfg -> excl c' cfg' pp n.
Proof.
  intros H Hp Hcfg. apply (excl_perm H) in Hp.
  apply (excl_weaken Hp); auto using incl_refl. apply Hp.
Qed.

(** Dropping a claim. *)
Lemma excl_drop (p : Page) (c cfg : list Page) (pp : list PagePoolItem) (n : nat) :
  excl (p :: c) cfg pp n -> excl c cfg pp n /\ ~ In p c.
Proof.
  intros H. pose proof H as (Hnd & _). inversion Hnd; subst. split; [|assumption].
  apply (excl_weaken H); auto using incl_refl, incl_tl.
Qed.

Lemma exclusive_custody (extra : list Page) (w w' : World) :
  custody w' = custody w -> exclusive extra w -> exclusive extra w'.
Proof.
  unfold custody, exclusive, claims. intros [= -> -> -> -> ->]. auto.
Qed.

Lemma inTransit_snoc (l : list (TaskId * Task)) (n : TaskId) (k : Task) :
  inTransit (l ++ [(n, k)]) = inTransit l ++ taskPages k.
Proof. unfold inTransit. rewrite flat_map_app. simpl. rewrite app_nil_r. reflexivity. Qed.

Lemma configuring_snoc (l : list (TaskId * Task)) (n : TaskId) (k : Task) :
  configuring (l ++ [(n, k)]) = configuring l ++ configuringPages k.
Proof. unfold configuring. rewrite flat_map_app. simpl. rewrite app_nil_r. reflexivity. Qed.

Lemma inTransit_dropTask (t : TaskId) (k : Task) (l : list (TaskId * Task)) :
  lookupTask t l = Some k ->
  Permutation (inTransit l) (taskPages k ++ inTransit (dropTask t l)).
Proof.
  induction l as [|[t' k'] l IH]; simpl; [discriminate|].
  destruct (Nat.eqb t' t).
  - intros [= ->]. reflexivity.
  - intros H. specialize (IH H). simpl.
    rewrite IH, !app_assoc. apply Permutation_app_tail, Permutation_app_comm.
Qed.

Lemma configuring_dropTask (t : TaskId) (l : list (TaskId * Task)) :
  incl (configuring (dropTask t l)) (configuring l).
Proof.
  induction l as [|[t' k'] l IH]; simpl; [apply incl_refl|].
  destruct (Nat.eqb t' t).
  - apply incl_appr, incl_refl.
  - simpl. apply incl_app; [apply incl_appl, incl_refl | apply incl_appr, IH].
Qed.

Lemma configuring_lookup (t : TaskId) (k : Task) (l : list (TaskId * Task)) :
  lookupTask t l = Some k -> incl (configuringPages k) (configuring l).
Proof.
  induction l as [|[t' k'] l IH]; simpl; [discriminate|].
  destruct (Nat.eqb t' t).
  - intros [= ->]. apply incl_appl, incl_refl.
  - intros H. apply incl_appr, IH, H.
Qed.

Lemma configuring_inTransit (l : list (TaskId * Task)) :
  incl (configuring l) (inTransit l).
Proof.
  induction l as [|[t k] l IH]; simpl; [apply incl_refl|].
  apply incl_app; [|apply incl_appr, IH].
  apply incl_appl. destruct k; simpl; auto using incl_refl, incl_nil_l.
Qed.

(** Closes goals stating that a segment leaves custody alone. *)
Ltac custody_tac :=
  intros; unfold custody; unfold_segments; unfold maxBrowsers in *; simpl;
  repeat (break_match; simpl);
  rewrite ?inTransit_snoc, ?configuring_snoc; simpl; rewrite ?app_nil_r; reflexivity.

Ltac neutral := eapply exclusive_custody; [|eassumption]; custody_tac.

Lemma exclusive_unpark (w : World) (t : TaskId) (k : Task) :
  exclusive [] w -> lookupTask t (tasks w) = Some k ->
  exclusive (taskPages k) (unpark t w)
  /\ forall p, In p (configuringPages k) -> ~ In p (map page (pagePool (pool w))).
Proof.
  unfold exclusive, claims. intros H Hk. split.
  - eapply excl_perm_cfg; [exact H | | apply configuring_dropTask].
    simpl. rewrite app_assoc. apply Permutation_app_tail, inTransit_dropTask, Hk.
  - intros p Hp. destruct H as (_ & _ & _ & _ & _ & H6). apply H6.
    eapply configuring_lookup; eassumption.
Qed.

Lemma exclusive_settle (extra : list Page) (r : ReqId) (res : Result) (w : World) :
  exclusive (taskPages (TSettled r res) ++ extra) w -> exclusive extra (settle r res w).
Proof.
  unfold exclusive, claims. intros H.
  eapply excl_perm_cfg; [exact H | | apply incl_refl].
  destruct res as [p|e]; simpl; [|reflexivity].
  rewrite !app_assoc. apply Permutation_cons_app. reflexivity.
Qed.

Lemma exclusive_removePageFromPool (extra : list Page) (p : Page) (rest : list Page)
    (w : World) :
  exclusive extra w -> exclusive extra (removePageFromPool p rest w).
Proof.
  intros H. unfold removePageFromPool.
  set (w1 := match findIndex _ (pagePool (pool w)) with
             | Some index => _
             | None => w
             end).
  assert (H1 : exclusive extra w1).
  { subst w1. destruct (findIndex _ (pagePool (pool w))) as [index|]; [|exact H].
    unfold exclusive, claims in *. simpl. apply (excl_pool H).
    - apply NoDup_map_splice1, H.
    - intros it Hit. exists it. split; [eapply in_splice1, Hit | auto]. }
  clearbody w1. destruct (negb (isClosed w1 p)); [|destruct rest]; neutral.
Qed.

Lemma getPage_fuel_exclusive (fuel : nat) :
  forall extra r w w',
    exclusive extra w -> getPage_fuel fuel r w = Some w' -> exclusive extra w'.
Proof.
  induction fuel as [|fuel IH]; intros extra r w w' Hinv H; [discriminate|].
  simpl in H. destruct (activeRequests (pool w) >=? maxConcurrentRequests).
  - injection H as <-. neutral.
  - destruct (getPooledPage (takeSlot r w)) as [[pooledPage w2]|] eqn:Hpooled.
    + apply getPooledPage_some in Hpooled.
      destruct Hpooled as (index & pageItem & Hidx & Hnth & <- & ->).
      apply findIndex_nth in Hidx. destruct Hidx as (it & Hnth' & Hfree).
      simpl in Hnth, Hnth'. rewrite Hnth in Hnth'. injection Hnth' as <-.
      apply andb_true_iff in Hfree. destruct Hfree as [Hunlocked _].
      apply negb_true_iff in Hunlocked.
      set (w2 := withPool _ (takeSlot r w)) in H.
      assert (Hw2 : exclusive (page pageItem :: extra) w2).
      { unfold exclusive, claims in *. simpl.
        apply excl_claim; assumption. }
      unfold processNextQueuedRequest_with in H.
      destruct (requestQueue (pool (releaseSlot w2))) as [|nextRequest rest].
      * injection H as <-. apply exclusive_settle. simpl. neutral.
      * destruct (activeRequests (pool (releaseSlot w2)) <? maxConcurrentRequests).
        -- destruct (getPage_fuel fuel _ _) as [w3|] eqn:Hnested; [|discriminate].
           injection H as <-. apply exclusive_settle. simpl.
           eapply IH; [|exact Hnested]. neutral.
        -- injection H as <-. apply exclusive_settle. simpl. neutral.
    + injection H as <-. neutral.
Qed.

Lemma resume_exclusive (k : Task) (ok : bool) (w w' : World) :
  exclusive (taskPages k) w ->
  (forall p, In p (configuringPages k) -> ~ In p (map page (pagePool (pool w)))) ->
  resume k ok w = Some w' -> exclusive [] w'.
Proof.
  intros Hinv Hcfg.
  destruct k as [b a|index a|a|r b|r b p|r res|p|p rest|rest]; simpl in *;
    try destruct ok; try destruct a; intros H;
    try (injection H as <-); try solve [neutral].
  - (* newPage() resolved: a fresh page *)
    unfold exclusive, claims in *. simpl in *.
    rewrite inTransit_snoc, configuring_snoc. simpl.
    eapply excl_perm_cfg; [apply (excl_fresh Hinv) | |].
    + rewrite <- app_assoc. apply Permutation_cons_app. reflexivity.
    + apply incl_app; [apply incl_tl, incl_refl | intros q [<-|[]]; left; reflexivity].
  - (* configurePage resolved: the page may join the cache, locked *)
    assert (Hclaims : excl (claims [] (park (TSettled r (Resolved p)) w))
                           (configuring (tasks w)) (pagePool (pool w))
                           (nextPage (engine w))).
    { unfold exclusive, claims in *. simpl in *. rewrite inTransit_snoc. simpl.
      eapply excl_perm_cfg; [exact Hinv | | apply incl_refl].
      rewrite <- app_assoc. apply Permutation_cons_app. reflexivity. }
    assert (Hp : In p (claims [] (park (TSettled r (Resolved p)) w))).
    { unfold claims. simpl. rewrite inTransit_snoc. simpl.
      apply in_or_app. left. apply in_or_app. right. left. reflexivity. }
    assert (Hnot : ~ In p (configuring (tasks w))).
    { intros Hin. apply configuring_inTransit in Hin.
      destruct Hinv as (Hnd & _). unfold claims in Hnd. simpl in Hnd.
      inversion Hnd as [|? ? Hnotin _]; subst. apply Hnotin.
      apply in_or_app. left. exact Hin. }
    unfold exclusive, createNewPage_afterConfigurePage.
    cbn [withEngine pool pagePool].
    destruct (length (pagePool (pool w)) <? pagePoolSize)%nat.
    + cbn [park withPool withEngine tasks pool pagePool setPagePool engine nextPage].
      rewrite configuring_snoc. simpl. rewrite app_nil_r.
      apply (excl_push Hclaims); auto using incl_refl.
    + cbn [park withEngine tasks pool pagePool engine nextPage].
      rewrite configuring_snoc. simpl. rewrite app_nil_r. exact Hclaims.
  - (* configurePage rejected: the page is dropped *)
    unfold exclusive, claims in *. simpl in *.
    rewrite inTransit_snoc, configuring_snoc. simpl. rewrite !app_nil_r.
    apply (excl_drop Hinv).
  - (* the finally block of getPage *)
    unfold getPage_finally, processNextQueuedRequest, processNextQueuedRequest_with in H.
    destruct (requestQueue (pool (releaseSlot w))) as [|nextRequest rest].
    + injection H as <-. apply exclusive_settle. rewrite app_nil_r. neutral.
    + destruct (activeRequests (pool (releaseSlot w)) <? maxConcurrentRequests).
      * destruct (getPage_fuel _ _ _) as [w3|] eqn:Hnested; [|discriminate].
        injection H as <-. apply exclusive_settle. rewrite app_nil_r.
        eapply getPage_fuel_exclusive; [|exact Hnested]. neutral.
      * injection H as <-. apply exclusive_settle. rewrite app_nil_r. neutral.
  - unfold getPage_finally, processNextQueuedRequest, processNextQueuedRequest_with in H.
    destruct (requestQueue (pool (releaseSlot w))) as [|nextRequest rest].
    + injection H as <-. apply exclusive_settle. rewrite app_nil_r. neutral.
    + destruct (activeRequests (pool (releaseSlot w)) <? maxConcurrentRequests).
      * destruct (getPage_fuel _ _ _) as [w3|] eqn:Hnested; [|discriminate].
        injection H as <-. apply exclusive_settle. rewrite app_nil_r.
        eapply getPage_fuel_exclusive; [|exact Hnested]. neutral.
      * injection H as <-. apply exclusive_settle. rewrite app_nil_r. neutral.
  - (* resetPageForReuse resolved: the entry is unlocked *)
    unfold exclusive, claims in *. simpl in *.
    destruct (excl_drop Hinv) as [Hrest Hnotin].
    apply (excl_unlock Hrest). exact Hnotin.
  - (* resetPageForReuse rejected: the entry is removed *)
    apply exclusive_removePageFromPool.
    unfold exclusive, claims in *. simpl in *. apply (excl_drop Hinv).
  - (* cleanupPagePool goes on *)
    destruct rest as [|p rest]; [exact Hinv|]. simpl.
    apply exclusive_removePageFromPool, Hinv.
  - destruct rest as [|p rest]; [exact Hinv|]. simpl.
    apply exclusive_removePageFromPool, Hinv.
Qed.

Lemma removeOne_perm (p : Page) (l : list Page) :
  In p l -> Permutation l (p :: removeOne p l).
Proof.
  induction l as [|q l IH]; intros Hin; [destruct Hin|]. simpl.
  destruct (Nat.eqb_spec q p) as [->|Hne]; [reflexivity|].
  destruct Hin as [Heq|Hin]; [congruence|].
  rewrite (IH Hin) at 1. apply perm_swap.
Qed.

(** A caller that holds [p] hands it to [closePage]. *)
Lemma closePage_exclusive (p : Page) (w : World) :
  In p (held (ghost w)) -> exclusive [] w -> exclusive [] (closePage p (giveBack p w)).
Proof.
  intros Hheld Hinv.
  assert (Hgive : exclusive [p] (giveBack p w)).
  { unfold exclusive, claims in *. simpl in *.
    eapply excl_perm_cfg; [exact Hinv | | apply incl_refl].
    rewrite (removeOne_perm _ _ Hheld) at 1. symmetry. apply Permutation_middle. }
  unfold closePage.
  destruct (find _ (pagePool (pool (giveBack p w)))) as [pageItem|] eqn:Hfind.
  - apply find_some in Hfind. destruct Hfind as [_ Heq]. apply Nat.eqb_eq in Heq.
    rewrite Heq. unfold exclusive, claims in *. simpl in *.
    rewrite inTransit_snoc, configuring_snoc. simpl. rewrite app_nil_r.
    eapply excl_perm_cfg; [exact Hgive | | apply incl_refl].
    rewrite <- app_assoc. apply Permutation_cons_app. reflexivity.
  - assert (Hdrop : exclusive [] (giveBack p w)).
    { unfold exclusive, claims in *. simpl in *. apply (excl_drop Hgive). }
    destruct (negb (isClosed (giveBack p w) p)); [neutral | exact Hdrop].
Qed.

Lemma cleanupPagePool_exclusive (w : World) :
  exclusive [] w -> exclusive [] (cleanupPagePool w).
Proof.
  intros Hinv. unfold cleanupPagePool.
  destruct (map page _) as [|p rest]; simpl; [exact Hinv|].
  apply exclusive_removePageFromPool, Hinv.
Qed.

Lemma reachable_by_protocol_reachable (w : World) :
  reachable_by_protocol w -> reachable w.
Proof.
  induction 1 as [|w e w' _ IH _ Hstep]; [apply reachable_initial|].
  eapply reachable_step; eassumption.
Qed.

Lemma step_exclusive (w : World) (e : Event) (w' : World) :
  follows_protocol w e -> exclusive [] w -> step w e = Some w' -> exclusive [] w'.
Proof.
  intros Hproto Hinv.
  destruct e as [| |p|t ok|b|b|p| | |ms]; simpl; intros H;
    try (injection H as <-); try solve [neutral].
  - eapply getPage_fuel_exclusive; [|exact H]. neutral.
  - apply closePage_exclusive; assumption.
  - destruct (lookupTask t (tasks w)) as [k|] eqn:Hk; [|injection H as <-; exact Hinv].
    destruct (exclusive_unpark _ Hinv Hk) as [Hun Hcfg].
    eapply resume_exclusive; [exact Hun | exact Hcfg | exact H].
  - apply cleanupPagePool_exclusive, Hinv.
Qed.

Lemma initial_exclusive : exclusive [] initial.
Proof.
  unfold exclusive, claims, excl. simpl.
  repeat split; try constructor; intros ? [].
Qed.

Lemma reachable_exclusive (w : World) : reachable_by_protocol w -> exclusive [] w.
Proof.
  induction 1 as [|w e w' _ IH Hproto Hstep]; [apply initial_exclusive|].
  eapply step_exclusive; eassumption.
Qed.

Lemma follows_protocolb_sound (w : World) (e : Event) :
  follows_protocolb w e = true -> follows_protocol w e.
Proof.
  destruct e; simpl; auto. unfold memb. intros H.
  apply existsb_exists in H. destruct H as (q & Hq & Heq).
  apply Nat.eqb_eq in Heq. subst. exact Hq.
Qed.

Lemma run_by_protocol_reachable (es : list Event) :
  forall w w',
    reachable_by_protocol w -> run_by_protocol w es = Some w' -> reachable_by_protocol w'.
Proof.
  induction es as [|e es IH]; intros w w' Hw H; simpl in H.
  - injection H as <-. exact Hw.
  - destruct (follows_protocolb w e) eqn:Hproto; [|discriminate].
    destruct (step w e) as [w1|] eqn:Hstep; [|discriminate].
    eapply IH; [|exact H].
    eapply protocol_step; [exact Hw | apply follows_protocolb_sound, Hproto | exact Hstep].
Qed.

(** *** Entries are unlocked by a successful release only *)

Lemma no_new_unlocked_refl (w : World) : no_new_unlocked w w.
Proof. intros item Hin Hl. eauto. Qed.

Lemma no_new_unlocked_trans (w1 w2 w3 : World) :
  no_new_unlocked w1 w2 -> no_new_unlocked w2 w3 -> no_new_unlocked w1 w3.
Proof.
  intros H12 H23 item3 Hin3 Hl3.
  destruct (H23 item3 Hin3 Hl3) as (item2 & Hin2 & Hp2 & Hl2).
  destruct (H12 item2 Hin2 Hl2) as (item1 & Hin1 & Hp1 & Hl1).
  exists item1. repeat split; congruence.
Qed.

Lemma no_new_unlocked_pool (w w' : World) :
  pagePool (pool w') = pagePool (pool w) -> no_new_unlocked w w'.
Proof. intros Hpool item Hin Hl. rewrite Hpool in Hin. eauto. Qed.

Ltac same_pool := apply no_new_unlocked_pool; frame.

Lemma no_new_unlocked_removePageFromPool (p : Page) (rest : list Page) (w : World) :
  no_new_unlocked w (removePageFromPool p rest w).
Proof.
  unfold removePageFromPool.
  set (w1 := match findIndex _ (pagePool (pool w)) with
             | Some index => _
             | None => w
             end).
  assert (H1 : no_new_unlocked w w1).
  { subst w1. destruct (findIndex _ (pagePool (pool w))) as [index|];
      [|apply no_new_unlocked_refl].
    intros item Hin Hl. simpl in Hin. apply in_splice1 in Hin. eauto. }
  eapply no_new_unlocked_trans; [exact H1|]. clearbody w1.
  destruct (negb (isClosed w1 p)); [|destruct rest]; same_pool.
Qed.

Lemma no_new_unlocked_getPooledPage (w : World) (p : Page) (w' : World) :
  getPooledPage w = Some (p, w') -> no_new_unlocked w w'.
Proof.
  intros H. apply getPooledPage_some in H.
  destruct H as (index & pageItem & Hidx & Hnth & _ & ->).
  intros item' Hin Hl. simpl in Hin.
  destruct (@in_updateAt _ _ _ _ _ _ Hnth Hin) as [->|(j & _ & Hj)]; [discriminate|].
  exists item'. split; [eapply nth_error_In, Hj | auto].
Qed.

Lemma getPage_fuel_no_new_unlocked (fuel : nat) :
  forall r w w', getPage_fuel fuel r w = Some w' -> no_new_unlocked w w'.
Proof.
  induction fuel as [|fuel IH]; intros r w w' H; [discriminate|].
  simpl in H. destruct (activeRequests (pool w) >=? maxConcurrentRequests).
  - injection H as <-. same_pool.
  - destruct (getPooledPage (takeSlot r w)) as [[pooledPage w2]|] eqn:Hpooled.
    + apply no_new_unlocked_getPooledPage in Hpooled.
      assert (Hw2 : no_new_unlocked w (releaseSlot w2)).
      { intros item Hin Hl. exact (Hpooled item Hin Hl). }
      unfold processNextQueuedRequest_with in H.
      destruct (requestQueue (pool (releaseSlot w2))) as [|nextRequest rest].
      * injection H as <-. eapply no_new_unlocked_trans; [exact Hw2 | same_pool].
      * destruct (activeRequests (pool (releaseSlot w2)) <? maxConcurrentRequests).
        -- destruct (getPage_fuel fuel _ _) as [w3|] eqn:Hnested; [|discriminate].
           injection H as <-. apply IH in Hnested.
           eapply no_new_unlocked_trans; [exact Hw2|].
           eapply no_new_unlocked_trans; [|eapply no_new_unlocked_trans; [exact Hnested|]];
             same_pool.
        -- injection H as <-. eapply no_new_unlocked_trans; [exact Hw2 | same_pool].
    + injection H as <-. same_pool.
Qed.

Lemma resume_no_new_unlocked (k : Task) (ok : bool) (w w' : World) :
  (forall p, k = TReset p -> ok = false) ->
  resume k ok w = Some w' -> no_new_unlocked w w'.
Proof.
  intros Hk.
  destruct k as [b a|index a|a|r b|r b p|r res|p|p rest|rest]; simpl in *;
    try destruct ok; try destruct a; intros H;
    try (injection H as <-); try solve [same_pool];
    try apply no_new_unlocked_removePageFromPool.
  - (* configurePage resolved: the new entry is locked *)
    intros item Hin Hl. unfold createNewPage_afterConfigurePage in Hin. simpl in Hin.
    destruct (length (pagePool (pool w)) <? pagePoolSize)%nat; simpl in Hin; [|eauto].
    apply in_app_or in Hin. destruct Hin as [Hin|[<-|[]]]; [eauto | discriminate].
  - unfold getPage_finally, processNextQueuedRequest, processNextQueuedRequest_with in H.
    destruct (requestQueue (pool (releaseSlot w))) as [|nextRequest rest].
    + injection H as <-. same_pool.
    + destruct (activeRequests (pool (releaseSlot w)) <? maxConcurrentRequests).
      * destruct (getPage_fuel _ _ _) as [w3|] eqn:Hnested; [|discriminate].
        injection H as <-. apply getPage_fuel_no_new_unlocked in Hnested.
        eapply no_new_unlocked_trans; [|eapply no_new_unlocked_trans; [exact Hnested|]];
          same_pool.
      * injection H as <-. same_pool.
  - unfold getPage_finally, processNextQueuedRequest, processNextQueuedRequest_with in H.
    destruct (requestQueue (pool (releaseSlot w))) as [|nextRequest rest].
    + injection H as <-. same_pool.
    + destruct (activeRequests (pool (releaseSlot w)) <? maxConcurrentRequests).
      * destruct (getPage_fuel _ _ _) as [w3|] eqn:Hnested; [|discriminate].
        injection H as <-. apply getPage_fuel_no_new_unlocked in Hnested.
        eapply no_new_unlocked_trans; [|eapply no_new_unlocked_trans; [exact Hnested|]];
          same_pool.
      * injection H as <-. same_pool.
  - specialize (Hk p eq_refl). discriminate.
  - destruct rest as [|p rest]; [apply no_new_unlocked_refl|].
    apply no_new_unlocked_removePageFromPool.
  - destruct rest as [|p rest]; [apply no_new_unlocked_refl|].
    apply no_new_unlocked_removePageFromPool.
Qed.

Lemma step_no_new_unlocked (w : World) (e : Event) (w' : World) :
  step w e = Some w' ->
  no_new_unlocked w w'
  \/ exists t p, e = EResume t true /\ lookupTask t (tasks w) = Some (TReset p)
                 /\ w' = returnPageToPool_afterReset p (unpark t w).
Proof.
  destruct e as [| |p|t ok|b|b|p| | |ms]; simpl; intros H;
    try (injection H as <-); try solve [left; same_pool].
  - left. apply getPage_fuel_no_new_unlocked in H.
    eapply no_new_unlocked_trans; [|exact H]. same_pool.
  - destruct (lookupTask t (tasks w)) as [k|] eqn:Hk;
      [|injection H as <-; left; apply no_new_unlocked_refl].
    destruct k as [b a|index a|a|r b|r b p|r res|p|p rest|rest];
      try (left; eapply no_new_unlocked_trans;
           [|eapply resume_no_new_unlocked; [|exact H]; intros; discriminate]; same_pool).
    destruct ok.
    + right. injection H as <-. eauto.
    + left. eapply no_new_unlocked_trans;
        [|eapply resume_no_new_unlocked; [|exact H]; auto]. same_pool.
  - left. unfold cleanupPagePool. destruct (map page _) as [|p rest]; simpl;
      [apply no_new_unlocked_refl | apply no_new_unlocked_removePageFromPool].
Qed.

Lemma nth_error_updateAt {A : Type} (i : nat) (g : A -> A) (l : list A) (x : A) :
  nth_error l i = Some x -> nth_error (updateAt i g l) i = Some (g x).
Proof.
  revert i. induction l as [|y l IH]; intros [|i] H; simpl in *; try discriminate.
  - injection H as ->. reflexivity.
  - apply IH, H.
Qed.

(** C10.  [getPooledPage] returns only an entry that is unlocked and was
    used less than [maxPageAge] ago, and has locked it when it returns;
    the entry [createNewPage] adds for a new page is locked; an entry
    becomes unlocked only when [resetPageForReuse] resolves during a
    release of that page.  So, among callers that release what they
    hold, a cached page is never in two hands: in every state reached
    under that protocol no page is held twice and an unlocked entry is
    held by nobody, that is, each locked entry has at most one holder. *)
Theorem cached_page_has_one_holder (w : World) :
  (forall p w', getPooledPage w = Some (p, w') ->
     exists index pageItem,
       nth_error (pagePool (pool w)) index = Some pageItem
       /\ page pageItem = p
       /\ isLocked pageItem = false
       /\ dateNow (engine w) - itemLastUsed pageItem < maxPageAge
       /\ nth_error (pagePool (pool w')) index
          = Some (setLock true (dateNow (engine w)) pageItem))
  /\ (forall p item, In item (pagePool (pool (createNewPage_afterConfigurePage p w))) ->
        In item (pagePool (pool w)) \/ (page item = p /\ isLocked item = true))
  /\ (forall e w', step w e = Some w' ->
        no_new_unlocked w w'
        \/ exists t p, e = EResume t true
                       /\ lookupTask t (tasks w) = Some (TReset p)
                       /\ w' = returnPageToPool_afterReset p (unpark t w))
  /\ (reachable_by_protocol w ->
      NoDup (held (ghost w))
      /\ (forall item, In item (pagePool (pool w)) -> isLocked item = false ->
            ~ In (page item) (held (ghost w)))
      /\ (forall item, In item (pagePool (pool w)) ->
            (count_occ Nat.eq_dec (held (ghost w)) (page item) <= 1)%nat)).
Proof.
  split; [|split; [|split]].
  - intros p w' H. apply getPooledPage_some in H.
    destruct H as (index & pageItem & Hidx & Hnth & Hpage & ->).
    apply findIndex_nth in Hidx. destruct Hidx as (it & Hnth' & Hfree).
    rewrite Hnth in Hnth'. injection Hnth' as <-.
    apply andb_true_iff in Hfree. destruct Hfree as [Hl Hage].
    apply negb_true_iff in Hl. apply Z.ltb_lt in Hage.
    exists index, pageItem. repeat split; auto.
    simpl. apply nth_error_updateAt, Hnth.
  - intros p item Hin. unfold createNewPage_afterConfigurePage in Hin. simpl in Hin.
    destruct (length (pagePool (pool w)) <? pagePoolSize)%nat; simpl in Hin; [|auto].
    apply in_app_or in Hin. destruct Hin as [Hin|[<-|[]]]; auto.
  - intros e w'. apply step_no_new_unlocked.
  - intros Hreach. pose proof (reachable_exclusive Hreach) as Hinv.
    unfold exclusive, claims in Hinv. simpl in Hinv.
    destruct Hinv as (Hnd & _ & _ & _ & Hunlocked & _).
    assert (Hheld : NoDup (held (ghost w))) by (eapply NoDup_app_remove_l, Hnd).
    repeat split.
    + exact Hheld.
    + intros item Hin Hl Hh. apply (Hunlocked item Hin Hl).
      apply in_or_app. right. exact Hh.
    + intros item _. apply NoDup_count_occ. exact Hheld.
Qed.

Lemma cached_page_has_one_holder_witness :
  reachable_by_protocol reused
  /\ held (ghost reused) = [1; 0]%nat
  /\ map isLocked (pagePool (pool reused)) = [true; true]
  /\ (forall p w', getPooledPage reused = Some (p, w') ->
     exists index pageItem,
       nth_error (pagePool (pool reused)) index = Some pageItem
       /\ page pageItem = p
       /\ isLocked pageItem = false
       /\ dateNow (engine reused) - itemLastUsed pageItem < maxPageAge
       /\ nth_error (pagePool (pool w')) index
          = Some (setLock true (dateNow (engine reused)) pageItem))
  /\ (forall p item, In item (pagePool (pool (createNewPage_afterConfigurePage p reused))) ->
        In item (pagePool (pool reused)) \/ (page item = p /\ isLocked item = true))
  /\ (forall e w', step reused e = Some w' ->
        no_new_unlocked reused w'
        \/ exists t p, e = EResume t true
                       /\ lookupTask t (tasks reused) = Some (TReset p)
                       /\ w' = returnPageToPool_afterReset p (unpark t reused))
  /\ NoDup (held (ghost reused))
  /\ (forall item, In item (pagePool (pool reused)) -> isLocked item = false ->
        ~ In (page item) (held (ghost reused)))
  /\ (forall item, In item (pagePool (pool reused)) ->
        (count_occ Nat.eq_dec (held (ghost reused)) (page item) <= 1)%nat).
Proof.
  assert (Hreach : reachable_by_protocol reused).
  { apply run_by_protocol_reachable
      with (es := boot ++ acquireNew 3 ++ [EClosePage 0%nat; EResume 6%nat true; EGetPage]
                       ++ acquireNew 7)
           (w := initial);
      [apply protocol_initial | vm_compute; reflexivity]. }
  split; [exact Hreach|]. split; [reflexivity|]. split; [reflexivity|].
  destruct (cached_page_has_one_holder reused) as (M1 & M2 & M3 & Hheld).
  split; [exact M1|]. split; [exact M2|]. split; [exact M3|]. exact (Hheld Hreach).
Defined.

(** C10 as stated fails: the protocol matters.  The caller of request 0
    releases page 0 and then calls [closePage] on it once more, when it
    holds nothing; while that second reset is under way request 1 takes
    the page from the cache, the reset resolves and unlocks the entry
    under request 1, and request 2 takes the same page.  The state is
    reachable, the entry of page 0 is locked, and page 0 is in two
    hands. *)
Lemma release_by_non_holder_shares_page :
  exists w1 w',
    run initial (boot ++ acquireNew 3 ++ [EClosePage 0%nat; EResume 6%nat true]) = Some w1
    /\ held (ghost w1) = []
    /\ follows_protocolb w1 (EClosePage 0%nat) = false
    /\ run w1 [EClosePage 0%nat; EGetPage; EResume 7%nat true; EGetPage] = Some w'
    /\ reachable w'
    /\ map page (pagePool (pool w')) = [0%nat]
    /\ map isLocked (pagePool (pool w')) = [true]
    /\ held (ghost w') = [0; 0]%nat
    /\ count_occ Nat.eq_dec (held (ghost w')) 0%nat = 2%nat
    /\ ~ NoDup (held (ghost w'))
    /\ settled (ghost w') = [(0, Resolved 0); (1, Resolved 0); (2, Resolved 0)]%nat.
Proof.
  do 2 eexists. split; [vm_compute; reflexivity|].
  split; [reflexivity|].
  split; [vm_compute; reflexivity|].
  split; [vm_compute; reflexivity|].
  split.
  { apply run_reachable
      with (es := boot ++ acquireNew 3
                  ++ [EClosePage 0%nat; EResume 6%nat true;
                      EClosePage 0%nat; EGetPage; EResume 7%nat true; EGetPage])
           (w := initial);
      [apply reachable_initial | vm_compute; reflexivity]. }
  repeat (split; [reflexivity|]).
  split; [|reflexivity].
  intros Hnodup. inversion Hnodup as [|x l Hnotin _]. apply Hnotin. left. reflexivity.
Qed.

(** ** C4: what the failed reset does to the cache *)

Lemma registers_refl (w : World) : registers [] w w.
Proof. repeat split; auto. Qed.

Lemma registers_trans (extra : list Page) (w1 w2 w3 : World) :
  registers extra w1 w2 -> registers [] w2 w3 -> registers extra w1 w3.
Proof.
  intros (Hn1 & Hp1 & Hc1) (Hn2 & Hp2 & Hc2). repeat split; [lia| |].
  - intros q Hq. destruct (Hp2 q Hq) as [H|[H|H]].
    + apply Hp1, H.
    + simpl in H. destruct (Hc1 q H) as [H'|H']; [|right; right; exact H'].
      right. left. apply in_or_app. right. exact H'.
    + right. right. lia.
  - intros q Hq. destruct (Hc2 q Hq) as [H|H]; [apply Hc1, H | right; lia].
Qed.

Lemma registers_registry (w w' : World) :
  registry w' = registry w -> registers [] w w'.
Proof.
  unfold registry. intros [= Hc Hp Hn]. unfold registers. rewrite Hc, Hp, Hn. auto.
Qed.

Lemma registers_extra (extra : list Page) (w w' : World) :
  registers [] w w' -> registers extra w w'.
Proof.
  intros (Hn & Hp & Hc). repeat split; auto.
  intros q Hq. destruct (Hp q Hq) as [H|[H|H]]; auto.
  right. left. apply in_or_app. right. exact H.
Qed.

(** Closes goals stating that a segment leaves the registry alone. *)
Ltac registry_tac :=
  intros; unfold registry; unfold_segments; unfold maxBrowsers in *; simpl;
  repeat (break_match; simpl);
  rewrite ?configuring_snoc; simpl; rewrite ?app_nil_r; reflexivity.

Ltac same_registry := apply registers_registry; registry_tac.

Lemma registers_removePageFromPool (p : Page) (rest : list Page) (w : World) :
  registers [] w (removePageFromPool p rest w).
Proof.
  unfold removePageFromPool.
  set (w1 := match findIndex _ (pagePool (pool w)) with
             | Some index => _
             | None => w
             end).
  assert (H1 : registers [] w w1).
  { subst w1. destruct (findIndex _ (pagePool (pool w))) as [index|];
      [|apply registers_refl].
    repeat split; simpl; auto. intros q Hq. left.
    apply in_map_iff in Hq. destruct Hq as (it & <- & Hit).
    apply in_map. eapply in_splice1, Hit. }
  eapply registers_trans; [exact H1|]. clearbody w1.
  destruct (negb (isClosed w1 p)); [|destruct rest]; same_registry.
Qed.

Lemma registers_getPooledPage (w : World) (p : Page) (w' : World) :
  getPooledPage w = Some (p, w') -> registers [] w w'.
Proof.
  intros H. apply getPooledPage_some in H.
  destruct H as (index & pageItem & _ & _ & _ & ->).
  apply registers_registry. unfold registry. simpl. rewrite map_page_lock. reflexivity.
Qed.

Lemma getPage_fuel_registers (fuel : nat) :
  forall r w w', getPage_fuel fuel r w = Some w' -> registers [] w w'.
Proof.
  induction fuel as [|fuel IH]; intros r w w' H; [discriminate|].
  simpl in H. destruct (activeRequests (pool w) >=? maxConcurrentRequests).
  - injection H as <-. same_registry.
  - destruct (getPooledPage (takeSlot r w)) as [[pooledPage w2]|] eqn:Hpooled.
    + apply registers_getPooledPage in Hpooled.
      assert (Hw2 : registers [] w (releaseSlot w2)) by exact Hpooled.
      unfold processNextQueuedRequest_with in H.
      destruct (requestQueue (pool (releaseSlot w2))) as [|nextRequest rest].
      * injection H as <-. eapply registers_trans; [exact Hw2 | same_registry].
      * destruct (activeRequests (pool (releaseSlot w2)) <? maxConcurrentRequests).
        -- destruct (getPage_fuel fuel _ _) as [w3|] eqn:Hnested; [|discriminate].
           injection H as <-. apply IH in Hnested.
           eapply registers_trans; [exact Hw2|].
           eapply registers_trans; [|same_registry].
           eapply registers_trans; [|exact Hnested]. same_registry.
        -- injection H as <-. eapply registers_trans; [exact Hw2 | same_registry].
    + injection H as <-. same_registry.
Qed.

Lemma getPage_finally_registers (r : ReqId) (res : Result) (w w' : World) :
  getPage_finally r res w = Some w' -> registers [] w w'.
Proof.
  intros H.
  unfold getPage_finally, processNextQueuedRequest, processNextQueuedRequest_with in H.
  destruct (requestQueue (pool (releaseSlot w))) as [|nextRequest rest].
  - injection H as <-. same_registry.
  - destruct (activeRequests (pool (releaseSlot w)) <? maxConcurrentRequests).
    + destruct (getPage_fuel _ _ _) as [w3|] eqn:Hnested; [|discriminate].
      injection H as <-. apply getPage_fuel_registers in Hnested.
      eapply registers_trans; [|same_registry].
      eapply registers_trans; [|exact Hnested]. same_registry.
    + injection H as <-. same_registry.
Qed.

Lemma resume_registers (k : Task) (ok : bool) (w w' : World) :
  resume k ok w = Some w' -> registers (configuringPages k) w w'.
Proof.
  destruct k as [b a|index a|a|r b|r b p|r res|p|p rest|rest]; simpl;
    try destruct ok; try destruct a; intros H;
    try (injection H as <-);
    try solve [apply registers_extra; same_registry];
    try solve [apply registers_extra, registers_removePageFromPool];
    try solve [apply registers_extra; eapply getPage_finally_registers; eassumption].
  - (* newPage() resolved *)
    repeat split; simpl; [lia | auto |].
    rewrite configuring_snoc. simpl. intros q Hq. apply in_app_or in Hq.
    destruct Hq as [Hq|[<-|[]]]; [auto | right; lia].
  - (* configurePage resolved *)
    repeat split; [unfold createNewPage_afterConfigurePage; simpl; break_match; simpl; lia | |].
    + intros q Hq. unfold createNewPage_afterConfigurePage in Hq. simpl in Hq.
      destruct (length (pagePool (pool w)) <? pagePoolSize)%nat; simpl in Hq; [|auto].
      rewrite map_app in Hq. apply in_app_or in Hq.
      destruct Hq as [Hq|[<-|[]]]; [auto | right; left; left; reflexivity].
    + intros q Hq. left. unfold createNewPage_afterConfigurePage in Hq. simpl in Hq.
      destruct (length (pagePool (pool w)) <? pagePoolSize)%nat; simpl in Hq;
        rewrite configuring_snoc in Hq; simpl in Hq; rewrite app_nil_r in Hq; exact Hq.
  - (* resetPageForReuse resolved *)
    apply registers_registry. unfold registry, returnPageToPool_afterReset. simpl. f_equal. f_equal.
    rewrite map_map. apply map_ext. intros it. destruct (Nat.eqb (page it) p); reflexivity.
  - destruct rest as [|p rest]; [apply registers_refl|]. apply registers_removePageFromPool.
  - destruct rest as [|p rest]; [apply registers_refl|]. apply registers_removePageFromPool.
Qed.

Lemma step_registers (w : World) (e : Event) (w' : World) :
  step w e = Some w' -> registers [] w w'.
Proof.
  destruct e as [| |p|t ok|b|b|p| | |ms]; simpl; intros H;
    try (injection H as <-); try solve [same_registry].
  - apply getPage_fuel_registers in H.
    eapply registers_trans; [|exact H]. same_registry.
  - destruct (lookupTask t (tasks w)) as [k|] eqn:Hk;
      [|injection H as <-; apply registers_refl].
    apply resume_registers in H. destruct H as (Hn & Hp & Hc).
    pose proof (configuring_lookup _ _ Hk) as Hk'.
    pose proof (@configuring_dropTask t (tasks w)) as Hdrop.
    repeat split; [exact Hn | |].
    + intros q Hq. destruct (Hp q Hq) as [H|[H|H]]; auto.
      right. left. apply in_app_or in H. destruct H as [H|H]; [apply Hk', H | apply Hdrop, H].
    + intros q Hq. destruct (Hc q Hq) as [H|H]; [left; apply Hdrop, H | auto].
  - unfold cleanupPagePool. destruct (map page _) as [|p rest]; simpl;
      [apply registers_refl | apply registers_removePageFromPool].
Qed.

Lemma retiredPage_registers (p : Page) (w w' : World) :
  retiredPage p w -> registers [] w w' -> retiredPage p w'.
Proof.
  intros (Hlt & Hpool & Hcfg) (Hn & Hp & Hc). repeat split; [lia| |].
  - intros Hq. destruct (Hp p Hq) as [H|[H|H]]; [auto | auto | lia].
  - intros Hq. destruct (Hc p Hq) as [H|H]; [auto | lia].
Qed.

(** Once retired from the cache a page never comes back, so no later
    [getPage] finds it there. *)
Lemma retiredPage_forever (es : list Event) :
  forall p w w', retiredPage p w -> run w es = Some w' ->
    retiredPage p w'
    /\ forall q w'', getPooledPage w' = Some (q, w'') -> q <> p.
Proof.
  induction es as [|e es IH]; intros p w w' Hret H; simpl in H.
  - injection H as <-. split; [exact Hret|].
    intros q w'' Hq ->. apply getPooledPage_some in Hq.
    destruct Hq as (index & pageItem & _ & Hnth & Hpage & _).
    destruct Hret as (_ & Hpool & _). apply Hpool. rewrite <- Hpage.
    apply in_map. eapply nth_error_In, Hnth.
  - destruct (step w e) as [w1|] eqn:Hstep; [|discriminate].
    eapply IH; [|exact H]. eapply retiredPage_registers; [exact Hret|].
    eapply step_registers, Hstep.
Qed.

Lemma splice_found_removes (p : Page) (l : list PagePoolItem) :
  NoDup (map page l) ->
  ~ In p (map page
            match findIndex (fun item => Nat.eqb (page item) p) l with
            | Some index => splice1 index l
            | None => l
            end).
Proof.
  induction l as [|x l IH]; intros Hnd; simpl; [auto|].
  inversion Hnd as [|? ? Hnotin Hnd']; subst. specialize (IH Hnd').
  destruct (Nat.eqb_spec (page x) p) as [Heq|Hne]; [subst p; exact Hnotin|].
  destruct (findIndex _ l) as [index|]; simpl; intros [H|H]; auto.
Qed.

(** The part of C4 the code keeps: when the reset of a cached page fails
    during its release, the entry leaves the cache for good. *)
Lemma reset_failure_retires_page (w : World) (t : TaskId) (p : Page) :
  reachable_by_protocol w ->
  lookupTask t (tasks w) = Some (TReset p) ->
  exists w',
    step w (EResume t false) = Some w'
    /\ retiredPage p w'
    /\ forall es w'', run w' es = Some w'' ->
         ~ In p (map page (pagePool (pool w'')))
         /\ forall q w3, getPooledPage w'' = Some (q, w3) -> q <> p.
Proof.
  intros Hreach Hk. pose proof (reachable_exclusive Hreach) as Hinv.
  destruct (exclusive_unpark _ Hinv Hk) as [Hun _].
  unfold exclusive, claims in Hun. simpl in Hun.
  destruct Hun as (Hnd & Hknown & Hpages & _).
  eexists. split; [cbn [step]; rewrite Hk; reflexivity|].
  assert (Hret : retiredPage p (removePageFromPool p [] (unpark t w))).
  { inversion Hnd as [|? ? Hnotin _]; subst.
    assert (Hret1 : retiredPage p
              (match findIndex (fun item => Nat.eqb (page item) p)
                               (pagePool (pool (unpark t w))) with
               | Some index =>
                   withPool (fun pl => setPagePool (splice1 index (pagePool pl)) pl)
                            (unpark t w)
               | None => unpark t w
               end)).
    { repeat split.
      - destruct (findIndex _ _); simpl; apply Hknown; left; reflexivity.
      - pose proof (@splice_found_removes p _ Hpages) as Hrm. simpl in Hrm.
        destruct (findIndex _ _); exact Hrm.
      - intros Hc. apply Hnotin. apply in_or_app. left.
        apply configuring_inTransit.
        destruct (findIndex _ _); exact Hc. }
    unfold removePageFromPool.
    destruct (findIndex _ _) as [index|];
      (destruct (negb (isClosed _ p));
       [eapply retiredPage_registers; [exact Hret1 | same_registry] | exact Hret1]). }
  split; [exact Hret|].
  intros es w'' Hrun. destruct (retiredPage_forever _ Hret Hrun) as [(_ & Hpool & _) Hget].
  split; assumption.
Qed.

(** * Further properties of the pool *)

(** ** Admission and the cache *)


(** X1.  Nobody waits while a slot is free.  In every reachable state a
    free slot means an empty queue, and a [getPage] arriving then takes
    its slot at once: it is the next entry of the grant log and the queue
    is still empty afterwards. *)
Theorem free_slot_means_empty_queue (w : World) :
  reachable w ->
  activeRequests (pool w) < maxConcurrentRequests ->
  requestQueue (pool w) = []
  /\ exists w',
       step w EGetPage = Some w'
       /\ grantLog (ghost w') = grantLog (ghost w) ++ [nextReq (ghost w)]
       /\ requestQueue (pool w') = [].
Proof.
  intros Hreach Hfree.
  assert (Hempty : requestQueue (pool w) = []).
  { destruct (reachable_admission Hreach) as [_ Hbacklog _].
    destruct (requestQueue (pool w)); [reflexivity|].
    specialize (Hbacklog ltac:(discriminate)). lia. }
  split; [exact Hempty|].
  destruct (step_total w EGetPage) as [w' Hstep]. exists w'.
  split; [exact Hstep|].
  cbn [step] in Hstep. unfold getPage in Hstep.
  cbn [getPage_fuel withGhost pool] in Hstep.
  destruct (Z.geb_spec (activeRequests (pool w)) maxConcurrentRequests) as [|_]; [lia|].
  destruct (getPooledPage _) as [[pooledPage w2]|] eqn:Hpooled.
  - pose proof (admission_getPooledPage _ Hpooled) as Hadm.
    unfold admission in Hadm. injection Hadm as Ha Hq Hg Hn. simpl in Hq, Hg.
    unfold processNextQueuedRequest_with in Hstep.
    cbn [releaseSlot withPool pool requestQueue setActiveRequests] in Hstep.
    rewrite Hq, Hempty in Hstep. simpl in Hstep. injection Hstep as <-.
    simpl. rewrite Hq, Hg. auto.
  - injection Hstep as <-.
    pose proof (admission_createNewPage
                  (takeSlot (nextReq (ghost w)) (withGhost newRequest w))
                  (nextReq (ghost w))) as Hadm.
    unfold admission in Hadm. injection Hadm as Ha Hq Hg Hn.
    rewrite Hq, Hg. simpl. auto.
Qed.

Lemma free_slot_means_empty_queue_witness :
  requestQueue (pool oneBusy) = []
  /\ exists w',
       step oneBusy EGetPage = Some w'
       /\ grantLog (ghost w') = grantLog (ghost oneBusy) ++ [nextReq (ghost oneBusy)]
       /\ requestQueue (pool w') = [].
Proof.
  assert (Hreach : reachable oneBusy).
  { apply run_reachable with (es := boot ++ acquireNew 3) (w := initial);
      [apply reachable_initial | vm_compute; reflexivity]. }
  assert (Hfree : activeRequests (pool oneBusy) < maxConcurrentRequests)
    by (vm_compute; reflexivity).
  exact (free_slot_means_empty_queue Hreach Hfree).
Defined.

(** X2.  A cache hit is served within the calling segment.  With a free
    slot and an entry [getPooledPage] accepts, [getPage] settles the
    caller's promise with that page, leaves the entry locked, has given
    its slot back when it returns and starts nothing: no continuation is
    parked, the queue stays empty, browsers and engine are untouched. *)
Theorem cache_hit_is_served_in_one_segment (w : World) (p : Page) (w1 : World) :
  reachable w ->
  activeRequests (pool w) < maxConcurrentRequests ->
  getPooledPage w = Some (p, w1) ->
  exists w',
    step w EGetPage = Some w'
    /\ settled (ghost w') = settled (ghost w) ++ [(nextReq (ghost w), Resolved p)]
    /\ held (ghost w') = p :: held (ghost w)
    /\ pagePool (pool w') = pagePool (pool w1)
    /\ activeRequests (pool w') = activeRequests (pool w)
    /\ requestQueue (pool w') = []
    /\ browsers (pool w') = browsers (pool w)
    /\ tasks w' = tasks w
    /\ engine w' = engine w.
Proof.
  intros Hreach Hfree Hhit.
  pose proof (free_slot_empty_queue Hreach Hfree) as Hempty.
  rewrite (step_getPage_hit _ Hempty Hfree Hhit).
  eexists. split; [reflexivity|].
  cbn. repeat split; try reflexivity; try assumption. lia.
Qed.

Lemma released_reachable : reachable released.
Proof.
  apply run_reachable
    with (es := boot ++ acquireNew 3 ++ [EClosePage 0%nat; EResume 6%nat true]) (w := initial);
    [apply reachable_initial | vm_compute; reflexivity].
Qed.

Lemma cache_hit_is_served_in_one_segment_witness :
  exists w',
    step released EGetPage = Some w'
    /\ settled (ghost w') = settled (ghost released) ++ [(nextReq (ghost released), Resolved 0%nat)]
    /\ held (ghost w') = 0%nat :: held (ghost released)
    /\ activeRequests (pool w') = activeRequests (pool released)
    /\ tasks w' = tasks released.
Proof.
  destruct (getPooledPage released) as [[p w1]|] eqn:Hhit; [|vm_compute in Hhit; discriminate].
  assert (Hp : p = 0%nat) by (vm_compute in Hhit; congruence). subst p.
  assert (Hfree : activeRequests (pool released) < maxConcurrentRequests)
    by (vm_compute; reflexivity).
  destruct (cache_hit_is_served_in_one_segment released_reachable Hfree Hhit)
    as (w' & H1 & H2 & H3 & _ & H5 & _ & _ & H8 & _).
  exists w'. auto.
Defined.





(** ** Page counts and the status report *)

Lemma pages_nonneg_onInstance (b : Browser) (f : BrowserInstance -> BrowserInstance)
    (bs : list BrowserInstance) :
  (forall bi, 0 <= activePages bi -> 0 <= activePages (f bi)) ->
  pages_nonneg bs -> pages_nonneg (onInstance b f bs).
Proof.
  intros Hf H. unfold onInstance. induction H as [|x l Hx _ IH]; constructor; [|exact IH].
  destruct (Nat.eqb (browser x) b); auto.
Qed.

Lemma pages_nonneg_decrement (gone : list Browser) (bs : list BrowserInstance) :
  pages_nonneg bs -> pages_nonneg (decrementFirstConnected gone bs).
Proof.
  induction 1 as [|x l Hx Hl IH]; [constructor|]. simpl.
  destruct (negb (memb (browser x) gone)); constructor; auto. simpl. lia.
Qed.

Lemma pages_nonneg_splice1 (i : nat) (bs : list BrowserInstance) :
  pages_nonneg bs -> pages_nonneg (splice1 i bs).
Proof.
  unfold pages_nonneg. intros H. revert i.
  induction H as [|x l Hx Hl IH]; intros [|i]; simpl; auto.
Qed.

Lemma getPage_fuel_browsers (fuel : nat) :
  forall r w w', getPage_fuel fuel r w = Some w' -> browsers (pool w') = browsers (pool w).
Proof.
  induction fuel as [|fuel IH]; intros r w w' H; [discriminate|].
  simpl in H. destruct (activeRequests (pool w) >=? maxConcurrentRequests).
  - injection H as <-. reflexivity.
  - destruct (getPooledPage (takeSlot r w)) as [[pooledPage w2]|] eqn:Hpooled.
    + apply getPooledPage_some in Hpooled.
      destruct Hpooled as (index & pageItem & _ & _ & _ & ->).
      unfold processNextQueuedRequest_with in H. simpl in H.
      destruct (requestQueue (pool w)) as [|nextRequest rest].
      * injection H as <-. reflexivity.
      * destruct (_ <? _).
        -- destruct (getPage_fuel fuel _ _) as [w3|] eqn:Hnested; [|discriminate].
           injection H as <-. apply IH in Hnested. simpl in *. exact Hnested.
        -- injection H as <-. reflexivity.
    + injection H as <-. frame.
Qed.

Lemma getPage_finally_browsers (r : ReqId) (res : Result) (w w' : World) :
  getPage_finally r res w = Some w' -> browsers (pool w') = browsers (pool w).
Proof.
  unfold getPage_finally, processNextQueuedRequest, processNextQueuedRequest_with.
  simpl. intros H. destruct (requestQueue (pool w)) as [|nextRequest rest].
  - injection H as <-. reflexivity.
  - destruct (_ <? _).
    + destruct (getPage_fuel _ _ _) as [w3|] eqn:Hnested; [|discriminate].
      injection H as <-. apply getPage_fuel_browsers in Hnested. exact Hnested.
    + injection H as <-. reflexivity.
Qed.

(** Closes goals stating that a segment keeps the page counts at 0 or
    above. *)
Ltac nonneg_tac :=
  unfold_segments; unfold maxBrowsers in *; simpl;
  repeat first
    [ assumption
    | apply pages_nonneg_decrement
    | apply pages_nonneg_splice1
    | apply pages_nonneg_onInstance; [simpl; intros; lia|]
    | apply Forall_app; split; [|repeat constructor; simpl; lia]
    | match goal with H : ?x = _ |- context [?x] => rewrite H end
    | break_match; simpl ].

Lemma resume_pages_nonneg (k : Task) (ok : bool) (w w' : World) :
  resume k ok w = Some w' ->
  pages_nonneg (browsers (pool w)) -> pages_nonneg (browsers (pool w')).
Proof.
  intros H Hinv.
  destruct k as [b a|index a|a|r b|r b p|r res|p|p rest|rest]; simpl in H;
    try (destruct ok); try (destruct a);
    try (injection H as <-; unfold pages_nonneg in *; nonneg_tac; fail).
  all: try (apply getPage_finally_browsers in H; rewrite H; exact Hinv).
Qed.

Lemma step_pages_nonneg (w : World) (e : Event) (w' : World) :
  step w e = Some w' ->
  pages_nonneg (browsers (pool w)) -> pages_nonneg (browsers (pool w')).
Proof.
  intros H Hinv. destruct e as [| |p|t ok|b|b|p| | |ms]; simpl in H;
    try (injection H as <-; unfold pages_nonneg in *; nonneg_tac; fail).
  - unfold getPage in H. apply getPage_fuel_browsers in H. rewrite H. exact Hinv.
  - destruct (lookupTask t (tasks w)) as [k|]; [|injection H as <-; exact Hinv].
    eapply resume_pages_nonneg; [exact H|exact Hinv].
Qed.

Lemma reachable_pages_nonneg (w : World) :
  reachable w -> pages_nonneg (browsers (pool w)).
Proof.
  induction 1 as [|w e w' _ IH Hstep]; [constructor|].
  eapply step_pages_nonneg; eassumption.
Qed.

Lemma fold_left_sum_nonneg (bs : list BrowserInstance) :
  pages_nonneg bs -> forall acc, 0 <= acc ->
  0 <= fold_left (fun sum browser => sum + activePages browser) bs acc.
Proof.
  induction 1 as [|x l Hx _ IH]; intros acc Hacc; simpl; [exact Hacc|].
  apply IH. lia.
Qed.

Lemma slotTasks_nonneg (l : list (TaskId * Task)) : 0 <= slotTasks l.
Proof. unfold slotTasks. lia. Qed.

(** X4.  What [getBrowserStatus] reports in a reachable state is
    consistent: the page total is not negative, there are no more healthy
    browsers than browsers, [activeRequests] lies between 0 and the
    ceiling, at most [pagePoolSize] pages are cached, requests are queued
    only when every slot is taken, and a pool that reports itself
    uninitialised reports nothing healthy and nothing active. *)
Theorem getBrowserStatus_is_consistent (w : World) :
  reachable w ->
  let status := getBrowserStatus (pool w) in
  0 <= totalActivePages status
  /\ (healthyBrowsers status <= browsersCount status)%nat
  /\ 0 <= statusActiveRequests status <= statusMaxConcurrentRequests status
  /\ (pagePoolActive status <= statusPagePoolSize status)%nat
  /\ ((0 < queueSize status)%nat ->
      statusActiveRequests status = statusMaxConcurrentRequests status)
  /\ (isInitialized status = false ->
      healthyBrowsers status = 0%nat /\ totalActivePages status = 0).
Proof.
  intros Hreach. cbn.
  destruct (reachable_admission Hreach) as [Hceil Hbacklog _].
  repeat split.
  - apply fold_left_sum_nonneg; [apply reachable_pages_nonneg, Hreach|lia].
  - apply filter_length_le.
  - rewrite (reachable_balance Hreach). apply slotTasks_nonneg.
  - exact Hceil.
  - apply reachable_cache, Hreach.
  - intros Hq. apply Hbacklog. intros Hnil. rewrite Hnil in Hq. simpl in Hq. lia.
  - destruct (browsers (pool w)); [reflexivity|discriminate].
  - destruct (browsers (pool w)); [reflexivity|discriminate].
Qed.

Lemma getBrowserStatus_is_consistent_witness :
  let status := getBrowserStatus (pool backlogged) in
  0 <= totalActivePages status
  /\ (healthyBrowsers status <= browsersCount status)%nat
  /\ 0 <= statusActiveRequests status <= statusMaxConcurrentRequests status
  /\ (pagePoolActive status <= statusPagePoolSize status)%nat
  /\ ((0 < queueSize status)%nat ->
      statusActiveRequests status = statusMaxConcurrentRequests status)
  /\ (isInitialized status = false ->
      healthyBrowsers status = 0%nat /\ totalActivePages status = 0).
Proof.
  assert (Hreach : reachable backlogged).
  { apply run_reachable with (es := boot ++ repeat EGetPage 12) (w := initial);
      [apply reachable_initial | vm_compute; reflexivity]. }
  exact (getBrowserStatus_is_consistent Hreach).
Defined.

(** ** The engine processes behind [browsers] *)

Lemma map_browser_onInstance (b : Browser) (f : BrowserInstance -> BrowserInstance)
    (l : list BrowserInstance) :
  (forall x, browser (f x) = browser x) ->
  map browser (onInstance b f l) = map browser l.
Proof.
  intros Hf. unfold onInstance. rewrite map_map. apply map_ext.
  intros x. destruct (Nat.eqb (browser x) b); [apply Hf|reflexivity].
Qed.

Lemma map_browser_decrement (gone : list Browser) (l : list BrowserInstance) :
  map browser (decrementFirstConnected gone l) = map browser l.
Proof.
  induction l as [|x l IH]; [reflexivity|]. simpl.
  destruct (negb (memb (browser x) gone)); simpl; [reflexivity|]. rewrite IH. reflexivity.
Qed.

Lemma fleet_ok_splice1 (i : nat) (l : list BrowserInstance) (n : Browser) :
  fleet_ok (map browser l, n) -> fleet_ok (map browser (splice1 i l), n).
Proof.
  intros [Hnd Hlt]. split; simpl in *.
  - apply NoDup_map_splice1, Hnd.
  - intros b Hin. apply Hlt. apply in_map_iff in Hin. destruct Hin as (x & <- & Hx).
    apply in_map. eapply in_splice1, Hx.
Qed.

Lemma fleet_ok_launch (l : list BrowserInstance) (n : Browser) (x : BrowserInstance) :
  browser x = n -> fleet_ok (map browser l, n) -> fleet_ok (map browser (l ++ [x]), S n).
Proof.
  intros Hx [Hnd Hlt]. simpl in *. rewrite map_app. simpl. rewrite Hx. split; simpl.
  - apply NoDup_app; [exact Hnd | constructor; [intros []|constructor] |].
    intros b Hin [Heq|[]]. specialize (Hlt b Hin). lia.
  - intros b Hin. apply in_app_or in Hin. destruct Hin as [Hin|[Heq|[]]]; [|lia].
    specialize (Hlt b Hin). lia.
Qed.

Lemma getPage_fuel_engine (fuel : nat) :
  forall r w w', getPage_fuel fuel r w = Some w' -> engine w' = engine w.
Proof.
  induction fuel as [|fuel IH]; intros r w w' H; [discriminate|].
  simpl in H. destruct (activeRequests (pool w) >=? maxConcurrentRequests).
  - injection H as <-. reflexivity.
  - destruct (getPooledPage (takeSlot r w)) as [[pooledPage w2]|] eqn:Hpooled.
    + apply getPooledPage_some in Hpooled.
      destruct Hpooled as (index & pageItem & _ & _ & _ & ->).
      unfold processNextQueuedRequest_with in H. simpl in H.
      destruct (requestQueue (pool w)) as [|nextRequest rest].
      * injection H as <-. reflexivity.
      * destruct (_ <? _).
        -- destruct (getPage_fuel fuel _ _) as [w3|] eqn:Hnested; [|discriminate].
           injection H as <-. apply IH in Hnested. simpl in *. exact Hnested.
        -- injection H as <-. reflexivity.
    + injection H as <-. frame.
Qed.

Lemma getPage_finally_engine (r : ReqId) (res : Result) (w w' : World) :
  getPage_finally r res w = Some w' -> engine w' = engine w.
Proof.
  unfold getPage_finally, processNextQueuedRequest, processNextQueuedRequest_with.
  simpl. intros H. destruct (requestQueue (pool w)) as [|nextRequest rest].
  - injection H as <-. reflexivity.
  - destruct (_ <? _).
    + destruct (getPage_fuel _ _ _) as [w3|] eqn:Hnested; [|discriminate].
      injection H as <-. apply getPage_fuel_engine in Hnested. exact Hnested.
    + injection H as <-. reflexivity.
Qed.

(** Closes goals stating that a segment keeps [fleet_ok]. *)
Ltac fleet_tac :=
  unfold fleet in *; unfold_segments; unfold maxBrowsers in *; simpl;
  repeat first
    [ assumption
    | rewrite map_browser_decrement
    | rewrite map_browser_onInstance by reflexivity
    | apply fleet_ok_splice1
    | apply fleet_ok_launch; [reflexivity|]
    | match goal with H : ?x = _ |- context [?x] => rewrite H end
    | break_match; simpl ].

Lemma resume_fleet (k : Task) (ok : bool) (w w' : World) :
  resume k ok w = Some w' -> fleet_ok (fleet w) -> fleet_ok (fleet w').
Proof.
  intros H Hinv.
  destruct k as [b a|index a|a|r b|r b p|r res|p|p rest|rest]; simpl in H;
    try (destruct ok); try (destruct a);
    try (injection H as <-; fleet_tac; fail).
  all: try (unfold fleet in *; rewrite (getPage_finally_browsers _ _ _ H),
              (getPage_finally_engine _ _ _ H); exact Hinv).
Qed.

Lemma step_fleet (w : World) (e : Event) (w' : World) :
  step w e = Some w' -> fleet_ok (fleet w) -> fleet_ok (fleet w').
Proof.
  intros H Hinv. destruct e as [| |p|t ok|b|b|p| | |ms]; simpl in H;
    try (injection H as <-; fleet_tac; fail).
  - unfold getPage in H. unfold fleet in *.
    rewrite (getPage_fuel_browsers _ _ _ H), (getPage_fuel_engine _ _ _ H). exact Hinv.
  - destruct (lookupTask t (tasks w)) as [k|]; [|injection H as <-; exact Hinv].
    eapply resume_fleet; [exact H|exact Hinv].
Qed.

Lemma reachable_fleet (w : World) : reachable w -> fleet_ok (fleet w).
Proof.
  induction 1 as [|w e w' _ IH Hstep].
  - split; simpl; [constructor | intros b []].
  - eapply step_fleet; eassumption.
Qed.

(** ** Replacing a browser *)

Lemma lookupTask_snoc (l : list (TaskId * Task)) (n : TaskId) (k : Task) :
  (forall t k', In (t, k') l -> (t < n)%nat) ->
  lookupTask n (l ++ [(n, k)]) = Some k.
Proof.
  intros H.
  apply (@lookupTask_parked (mkWorld (pool initial) (engine initial) l n (ghost initial)) k).
  exact H.
Qed.

Lemma dropTask_snoc (l : list (TaskId * Task)) (n : TaskId) (k : Task) :
  (forall t k', In (t, k') l -> (t < n)%nat) ->
  dropTask n (l ++ [(n, k)]) = l.
Proof.
  intros H.
  apply (@dropTask_parked (mkWorld (pool initial) (engine initial) l n (ghost initial)) k).
  exact H.
Qed.

Lemma map_browser_splice1_found (l : list BrowserInstance) (b : Browser) :
  map browser
    match findIndex (fun x => Nat.eqb (browser x) b) l with
    | Some index => splice1 index l
    | None => l
    end
  = removeOne b (map browser l).
Proof.
  induction l as [|x l IH]; [reflexivity|]. simpl.
  destruct (Nat.eqb (browser x) b); [reflexivity|].
  destruct (findIndex _ l) as [index|]; simpl; f_equal; exact IH.
Qed.

Lemma length_removeOne (b : nat) (l : list nat) :
  (length (removeOne b l) + (if existsb (fun x => Nat.eqb x b) l then 1 else 0)
   = length l)%nat.
Proof.
  induction l as [|x l IH]; [reflexivity|]. simpl.
  destruct (Nat.eqb x b); simpl; lia.
Qed.

Lemma removeOne_absent (b : nat) (l : list nat) : ~ In b l -> removeOne b l = l.
Proof.
  induction l as [|x l IH]; intros H; [reflexivity|]. simpl.
  destruct (Nat.eqb_spec x b) as [->|_]; [exfalso; apply H; left; reflexivity|].
  rewrite IH; [reflexivity|]. intros Hin. apply H. right. exact Hin.
Qed.

Lemma removeOne_middle (b : nat) (l1 l2 : list nat) :
  ~ In b l1 -> removeOne b (l1 ++ b :: l2) = l1 ++ l2.
Proof.
  induction l1 as [|x l IH]; intros H; simpl.
  - rewrite Nat.eqb_refl. reflexivity.
  - destruct (Nat.eqb_spec x b) as [->|_]; [exfalso; apply H; left; reflexivity|].
    rewrite IH; [reflexivity|]. intros Hin. apply H. right. exact Hin.
Qed.

(** [replaceUnhealthyBrowser] from its [await browser.close()], which
    resolves, to its return: the first instance wrapping [b] has left the
    array and, if the launch succeeded, a new instance was appended; the
    caller is resumed either way. *)
Lemma replacement_run (w : World) (t : TaskId) (b : Browser) (k : AfterReplace)
    (launched : bool) :
  tasks_fresh w ->
  lookupTask t (tasks w) = Some (TBrowserClose b k) ->
  exists w',
    run w [EResume t true; EResume (nextTask w) launched] = Some w'
    /\ map browser (browsers (pool w'))
       = removeOne b (map browser (browsers (pool w)))
           ++ (if launched then [nextBrowser (engine w)] else [])
    /\ (launched = true ->
        exists others,
          browsers (pool w') =
          others ++ [mkBrowserInstance (nextBrowser (engine w))
                       (length others, dateNow (engine w)) 0
                       (dateNow (engine w)) (dateNow (engine w)) true])
    /\ nextBrowser (engine w')
       = (if launched then S (nextBrowser (engine w)) else nextBrowser (engine w))
    /\ dateNow (engine w') = dateNow (engine w)
    /\ tasks w' = dropTask t (tasks w) ++ [(S (nextTask w), TReplaced k)]
    /\ nextTask w' = S (S (nextTask w)).
Proof.
  intros Hfresh Htask.
  set (w1 := replaceUnhealthyBrowser_afterClose b (browserDisconnects b (unpark t w))).
  assert (Hsame : tasks w1 = dropTask t (tasks w) /\ nextTask w1 = nextTask w
                  /\ nextBrowser (engine w1) = nextBrowser (engine w)
                  /\ dateNow (engine w1) = dateNow (engine w)).
  { subst w1. unfold replaceUnhealthyBrowser_afterClose.
    destruct (findIndex _ _); repeat split; reflexivity. }
  destruct Hsame as (Htasks & Hnext & Hnb & Hnow).
  assert (Hfresh1 : tasks_fresh w1).
  { intros t' k' Hin. rewrite Htasks in Hin. rewrite Hnext.
    apply (extends_fresh (extends_unpark w t) Hfresh t' k' Hin). }
  assert (Hids : map browser (browsers (pool w1))
                 = removeOne b (map browser (browsers (pool w)))).
  { subst w1. unfold replaceUnhealthyBrowser_afterClose.
    rewrite <- (@map_browser_onInstance b (setIsHealthy false) (browsers (pool w)))
      by reflexivity.
    rewrite <- map_browser_splice1_found.
    change (browsers (pool (browserDisconnects b (unpark t w))))
      with (onInstance b (setIsHealthy false) (browsers (pool w))).
    destruct (findIndex _ (onInstance b (setIsHealthy false) (browsers (pool w))));
      reflexivity. }
  assert (Hstep1 : step w (EResume t true)
                   = Some (park (TLaunch (length (browsers (pool w1))) (Some k)) w1)).
  { cbn [step]. rewrite Htask. reflexivity. }
  cbn [run]. rewrite Hstep1. rewrite <- Hnext, <- Hnb, <- Hnow, <- Htasks.
  rewrite step_parked by exact Hfresh1. cbn [resume].
  destruct launched; (eexists; split; [reflexivity|]).
  - cbn. rewrite map_app, Hids. repeat split; try reflexivity.
    intros _. exists (browsers (pool w1)). reflexivity.
  - cbn. rewrite Hids, app_nil_r. repeat split; try reflexivity. discriminate.
Qed.

Lemma existsb_map_browser (b : Browser) (l : list BrowserInstance) :
  existsb (fun x => Nat.eqb x b) (map browser l)
  = existsb (fun x => Nat.eqb (browser x) b) l.
Proof. induction l as [|x l IH]; [reflexivity|]. simpl. rewrite IH. reflexivity. Qed.

(** X5.  [replaceUnhealthyBrowser] once [browser.close()] has resolved.
    The array loses one instance if the replaced one was still in it and
    gains one if the launch succeeds: a failed launch leaves the pool a
    browser short, and replacing an instance that has left the array
    already adds a browser.  A launched browser is appended healthy and
    without pages.  The launch error is swallowed: the caller of
    [replaceUnhealthyBrowser] is resumed whatever the launch did. *)
Theorem replacement_changes_browser_count
    (w : World) (t : TaskId) (b : Browser) (k : AfterReplace) (launched : bool) :
  reachable w ->
  lookupTask t (tasks w) = Some (TBrowserClose b k) ->
  exists w',
    run w [EResume t true; EResume (nextTask w) launched] = Some w'
    /\ (length (browsers (pool w'))
        + (if existsb (fun x => Nat.eqb (browser x) b) (browsers (pool w)) then 1 else 0)
        = length (browsers (pool w)) + (if launched then 1 else 0))%nat
    /\ (launched = true ->
        exists others,
          browsers (pool w') =
          others ++ [mkBrowserInstance (nextBrowser (engine w))
                       (length others, dateNow (engine w)) 0
                       (dateNow (engine w)) (dateNow (engine w)) true])
    /\ lookupTask (S (nextTask w)) (tasks w') = Some (TReplaced k).
Proof.
  intros Hreach Htask.
  pose proof (reachable_tasks_fresh Hreach) as Hfresh.
  destruct (@replacement_run w t b k launched Hfresh Htask)
    as (w' & Hrun & Hids & Hlast & _ & _ & Htasks & _).
  exists w'. split; [exact Hrun|]. split; [|split; [exact Hlast|]].
  - apply (f_equal (@length nat)) in Hids. rewrite length_app, !length_map in Hids.
    pose proof (length_removeOne b (map browser (browsers (pool w)))) as Hlen.
    rewrite existsb_map_browser, length_map in Hlen.
    destruct launched; simpl in Hids; lia.
  - rewrite Htasks. apply lookupTask_snoc.
    intros t' k' Hin. apply dropTask_incl in Hin. specialize (Hfresh t' k' Hin). lia.
Qed.

Lemma replacement_changes_browser_count_witness :
  exists w',
    run replacing [EResume 27%nat true; EResume 28%nat false] = Some w'
    /\ length (browsers (pool replacing)) = 3%nat
    /\ length (browsers (pool w')) = 2%nat
    /\ lookupTask 29%nat (tasks w') = Some (TReplaced (RetryCreate 8%nat)).
Proof.
  assert (Hreach : reachable replacing).
  { apply run_reachable with (es := loadOneBrowser ++ [EGetPage]) (w := initial);
      [apply reachable_initial | vm_compute; reflexivity]. }
  assert (Htask : lookupTask 27%nat (tasks replacing)
                  = Some (TBrowserClose 0%nat (RetryCreate 8%nat))) by reflexivity.
  destruct (@replacement_changes_browser_count replacing 27%nat 0%nat (RetryCreate 8%nat)
              false Hreach Htask) as (w' & Hrun & Hlen & _ & Hcaller).
  exists w'. split; [exact Hrun|]. split; [reflexivity|]. split; [|exact Hcaller].
  cbn in Hlen. lia.
Defined.

Lemma run_app (es1 es2 : list Event) :
  forall w, run w (es1 ++ es2) =
            match run w es1 with
            | Some w' => run w' es2
            | None => None
            end.
Proof.
  induction es1 as [|e es1 IH]; intros w; simpl; [reflexivity|].
  destruct (step w e); [apply IH|reflexivity].
Qed.

Lemma healthCheck_skips (now : Z) (l : list BrowserInstance) :
  (forall x, In x l -> expired now x = false /\ isHealthy x = true) ->
  flat_map
    (fun bi =>
       (if (now - createdAt bi >? browserMaxAge)
           || ((now - lastUsed bi >? browserMaxAge) && (activePages bi =? 0))
        then [browser bi] else [])
       ++ (if negb (isHealthy bi) then [browser bi] else [])) l = [].
Proof.
  induction l as [|x l IH]; intros H; [reflexivity|]. simpl.
  destruct (H x (or_introl eq_refl)) as [Hexp Hhealthy]. unfold expired in Hexp.
  rewrite Hexp, Hhealthy. simpl. apply IH. intros y Hy. apply H. right. exact Hy.
Qed.

(** X6.  [performBrowserHealthCheck] lists a browser that is both
    expired and unhealthy twice, and replaces it twice.  When every close
    and every launch resolves, the instance has gone, two new browsers
    have been appended, and, by the time the check moves on, the array is
    one longer than when it started. *)
Theorem health_check_replaces_expired_unhealthy_browser_twice
    (w : World) (before after : list BrowserInstance) (bi : BrowserInstance) :
  reachable w ->
  browsers (pool w) = before ++ bi :: after ->
  (forall x, In x before ->
     expired (dateNow (engine w)) x = false /\ isHealthy x = true) ->
  expired (dateNow (engine w)) bi = true ->
  isHealthy bi = false ->
  exists w',
    run w [EHealthCheck; EResume (nextTask w) true; EResume (1 + nextTask w) true;
           EResume (2 + nextTask w) true; EResume (3 + nextTask w) true;
           EResume (4 + nextTask w) true] = Some w'
    /\ map browser (browsers (pool w'))
       = map browser before ++ map browser after
           ++ [nextBrowser (engine w); S (nextBrowser (engine w))]
    /\ length (browsers (pool w')) = S (length (browsers (pool w))).
Proof.
  intros Hreach Hbrowsers Hbefore Hexpired Hunhealthy.
  pose proof (reachable_tasks_fresh Hreach) as Hfresh.
  destruct (reachable_fleet Hreach) as [Hnd Hlt]. unfold fleet in Hnd, Hlt. simpl in Hnd, Hlt.
  rewrite Hbrowsers, map_app in Hnd, Hlt. simpl in Hnd, Hlt.
  set (b := browser bi) in *. set (t := nextTask w) in *.
  set (nb := nextBrowser (engine w)) in *.
  assert (Hb_before : ~ In b (map browser before) /\ ~ In b (map browser after)).
  { apply NoDup_remove_2 in Hnd. split; intros Hin; apply Hnd, in_or_app; auto. }
  destruct Hb_before as [Hb1 Hb2].
  assert (Hb_lt : (b < nb)%nat) by (apply Hlt, in_or_app; right; left; reflexivity).
  (* the sweep lists [b] twice *)
  assert (Hw0 : exists rest,
            performBrowserHealthCheck w
            = park (TBrowserClose b (NextToReplace (b :: rest))) w).
  { unfold performBrowserHealthCheck. rewrite Hbrowsers, flat_map_app.
    rewrite healthCheck_skips by exact Hbefore. cbn [flat_map app].
    unfold expired in Hexpired. rewrite Hexpired, Hunhealthy. cbn [negb app].
    eexists. reflexivity. }
  destruct Hw0 as [rest Hw0].
  set (w0 := park (TBrowserClose b (NextToReplace (b :: rest))) w).
  change [EHealthCheck; EResume t true; EResume (1 + t) true;
          EResume (2 + t) true; EResume (3 + t) true; EResume (4 + t) true]%nat
    with ([EHealthCheck] ++ [EResume t true; EResume (nextTask w0) true]
          ++ [EResume (2 + t) true]
          ++ [EResume (3 + t) true; EResume (4 + t) true])%nat.
  rewrite run_app. cbn [run step]. rewrite Hw0. fold w0.
  (* first replacement *)
  assert (Hfresh0 : tasks_fresh w0).
  { eapply extends_fresh; [apply extends_park|exact Hfresh]. }
  assert (Htask0 : lookupTask t (tasks w0)
                   = Some (TBrowserClose b (NextToReplace (b :: rest))))
    by (apply lookupTask_parked, Hfresh).
  destruct (@replacement_run w0 t b _ true Hfresh0 Htask0)
    as (w2 & Hrun2 & Hids2 & _ & Hnb2 & _ & Htasks2 & Hnext2).
  rewrite run_app, Hrun2.
  change (tasks w0) with (tasks w ++ [(t, TBrowserClose b (NextToReplace (b :: rest)))])
    in Htasks2.
  rewrite (dropTask_parked _ Hfresh) in Htasks2.
  change (nextTask w0) with (S t) in Htasks2, Hnext2.
  change (browsers (pool w0)) with (browsers (pool w)) in Hids2.
  change (nextBrowser (engine w0)) with nb in Hids2, Hnb2.
  rewrite Hbrowsers, map_app in Hids2. cbn [map] in Hids2. fold b in Hids2.
  rewrite removeOne_middle in Hids2 by exact Hb1.
  (* the sweep goes on with the second entry for [b] *)
  assert (Htask2 : lookupTask (2 + t) (tasks w2)
                   = Some (TReplaced (NextToReplace (b :: rest)))).
  { rewrite Htasks2. apply lookupTask_snoc.
    intros t' k' Hin. specialize (Hfresh t' k' Hin). fold t in Hfresh. lia. }
  set (w3 := park (TBrowserClose b (NextToReplace rest)) (unpark (2 + t) w2)).
  assert (Hstep3 : run w2 [EResume (2 + t)%nat true] = Some w3).
  { cbn [run step]. rewrite Htask2. reflexivity. }
  rewrite run_app, Hstep3.
  (* second replacement *)
  assert (Htasks3 : tasks w3 = tasks w ++ [(3 + t, TBrowserClose b (NextToReplace rest))]%nat).
  { subst w3. cbn [park unpark tasks nextTask]. rewrite Htasks2, Hnext2.
    rewrite dropTask_snoc; [reflexivity|].
    intros t' k' Hin. specialize (Hfresh t' k' Hin). fold t in Hfresh. lia. }
  assert (Hnext3 : nextTask w3 = (4 + t)%nat).
  { subst w3. cbn [park unpark nextTask]. rewrite Hnext2. reflexivity. }
  assert (Hfresh3 : tasks_fresh w3).
  { intros t' k' Hin. rewrite Htasks3 in Hin. rewrite Hnext3.
    apply in_app_or in Hin. destruct Hin as [Hin|[[= <- <-]|[]]]; [|lia].
    specialize (Hfresh t' k' Hin). fold t in Hfresh. lia. }
  assert (Htask3 : lookupTask (3 + t) (tasks w3)
                   = Some (TBrowserClose b (NextToReplace rest))).
  { rewrite Htasks3. apply lookupTask_snoc.
    intros t' k' Hin. specialize (Hfresh t' k' Hin). fold t in Hfresh. lia. }
  destruct (@replacement_run w3 (3 + t)%nat b _ true Hfresh3 Htask3)
    as (w5 & Hrun5 & Hids5 & _ & _ & _ & _ & _).
  rewrite Hnext3 in Hrun5. rewrite Hrun5.
  change (browsers (pool w3)) with (browsers (pool w2)) in Hids5.
  change (nextBrowser (engine w3)) with (nextBrowser (engine w2)) in Hids5.
  rewrite Hids2, Hnb2 in Hids5.
  rewrite removeOne_absent in Hids5.
  - exists w5. split; [reflexivity|].
    assert (Hids : map browser (browsers (pool w5))
                   = map browser before ++ map browser after ++ [nb; S nb]).
    { rewrite Hids5, <- !app_assoc. reflexivity. }
    split; [exact Hids|].
    apply (f_equal (@length nat)) in Hids.
    rewrite length_map, !length_app, !length_map in Hids.
    rewrite Hbrowsers, length_app. simpl in *. lia.
  - intros Hin. apply in_app_or in Hin. destruct Hin as [Hin|[Heq|[]]]; [|lia].
    apply in_app_or in Hin. destruct Hin; contradiction.
Qed.

Lemma health_check_replaces_expired_unhealthy_browser_twice_witness :
  exists w',
    run agedUnhealthy
      [EHealthCheck; EResume 3%nat true; EResume 4%nat true; EResume 5%nat true;
       EResume 6%nat true; EResume 7%nat true] = Some w'
    /\ length (browsers (pool agedUnhealthy)) = 3%nat
    /\ length (browsers (pool w')) = 4%nat.
Proof.
  assert (Hreach : reachable agedUnhealthy).
  { apply run_reachable
      with (es := boot ++ [EDisconnected 0%nat; ETick (Z.to_nat 600001)]) (w := initial);
      [apply reachable_initial | vm_compute; reflexivity]. }
  destruct (@health_check_replaces_expired_unhealthy_browser_twice agedUnhealthy []
              [mkBrowserInstance 1%nat (1%nat, 0) 0 0 0 true;
               mkBrowserInstance 2%nat (2%nat, 0) 0 0 0 true]
              (mkBrowserInstance 0%nat (0%nat, 0) 0 0 0 false)
              Hreach eq_refl)
    as (w' & Hrun & _ & Hlen).
  - intros x [].
  - vm_compute. reflexivity.
  - reflexivity.
  - exists w'. split; [exact Hrun|]. split; [reflexivity|exact Hlen].
Defined.

(** ** The page sweep *)

Lemma findIndex_middle {A : Type} (f : A -> bool) (l1 l2 : list A) (x : A) :
  (forall y, In y l1 -> f y = false) -> f x = true ->
  findIndex f (l1 ++ x :: l2) = Some (List.length l1).
Proof.
  intros Hl1 Hx. induction l1 as [|y l1 IH]; simpl.
  - rewrite Hx. reflexivity.
  - rewrite (Hl1 y (or_introl eq_refl)), IH; [reflexivity|].
    intros z Hz. apply Hl1. right. exact Hz.
Qed.

Lemma splice1_middle {A : Type} (l1 l2 : list A) (x : A) :
  splice1 (List.length l1) (l1 ++ x :: l2) = l1 ++ l2.
Proof. induction l1 as [|y l1 IH]; simpl; [reflexivity|]. rewrite IH. reflexivity. Qed.

Lemma filter_none {A : Type} (f : A -> bool) (l : list A) :
  (forall y, In y l -> f y = false) -> filter f l = [].
Proof.
  induction l as [|y l IH]; intros H; [reflexivity|]. simpl.
  rewrite (H y (or_introl eq_refl)). apply IH. intros z Hz. apply H. right. exact Hz.
Qed.

(** X7.  [cleanupPagePool] evicts by age, locked or not.  The first
    entry older than [maxPageAge] leaves the cache within the segment of
    the sweep, before anything is awaited, and its page is closed next
    unless it is closed already; the lock of the entry is not consulted.
    Entries in front of it that are not stale stay. *)
Theorem cleanupPagePool_evicts_by_age_locked_or_not
    (w : World) (before after : list PagePoolItem) (item : PagePoolItem) :
  pagePool (pool w) = before ++ item :: after ->
  (forall it, In it before -> stale (dateNow (engine w)) it = false) ->
  ~ In (page item) (map page before) ->
  maxPageAge < dateNow (engine w) - itemCreatedAt item ->
  exists w',
    step w ECleanupPagePool = Some w'
    /\ pagePool (pool w') = before ++ after
    /\ browsers (pool w') = browsers (pool w)
    /\ tasks w' =
       tasks w
       ++ (if isClosed w (page item)
           then match filter (stale (dateNow (engine w))) after with
                | [] => []
                | _ :: _ =>
                    [(nextTask w,
                      TCleanup (map page (filter (stale (dateNow (engine w))) after)))]
                end
           else [(nextTask w,
                  TPageClose (page item)
                    (map page (filter (stale (dateNow (engine w))) after)))]).
Proof.
  intros Hpool Hbefore Hnotin Hage.
  assert (Hstale : stale (dateNow (engine w)) item = true).
  { unfold stale. destruct (Z.gtb_spec (dateNow (engine w) - itemCreatedAt item) maxPageAge);
      [reflexivity|lia]. }
  eexists. split; [reflexivity|].
  unfold cleanupPagePool. fold (stale (dateNow (engine w))).
  rewrite Hpool, filter_app, (filter_none _ _ Hbefore). cbn [app filter].
  rewrite Hstale. cbn [map cleanupLoop]. unfold removePageFromPool.
  rewrite Hpool, (@findIndex_middle _ (fun it => Nat.eqb (page it) (page item)) before after item).
  - change (isClosed (withPool _ w) (page item)) with (isClosed w (page item)).
    unfold afterRemove.
    destruct (isClosed w (page item)); cbn [negb];
      [destruct (filter _ after)|];
      cbn; rewrite ?Hpool, ?splice1_middle, ?app_nil_r; auto.
  - intros y Hy. apply Nat.eqb_neq. intros Heq. apply Hnotin. rewrite <- Heq.
    apply in_map, Hy.
  - apply Nat.eqb_refl.
Qed.

Lemma cleanupPagePool_evicts_by_age_locked_or_not_witness :
  map isLocked (pagePool (pool agedPage)) = [true]
  /\ exists w',
       step agedPage ECleanupPagePool = Some w'
       /\ pagePool (pool w') = []
       /\ tasks w' = [(6%nat, TPageClose 0%nat [])].
Proof.
  split; [reflexivity|].
  destruct (@cleanupPagePool_evicts_by_age_locked_or_not agedPage [] []
              (mkPagePoolItem 0%nat 0 0 true) eq_refl)
    as (w' & Hstep & Hpool & _ & Htasks).
  - intros it [].
  - intros [].
  - vm_compute. reflexivity.
  - exists w'. auto.
Defined.

(** * Properties of [retryOperation] *)

Section Retry.
Variables (T : Type) (c : Call) (answer : Answers -> nat -> Thrown + T).
Variable o : Answers.


End Retry.











(** * Properties of the conversions *)

(** ** What a conversion logs *)

Section Keeps.
Variable v : option Page.

Lemma keeps_ret (A : Type) (a : A) : keeps v (ret a).
Proof. intros o s Hs. split; [exact Hs|]. exists []. rewrite app_nil_r. auto. Qed.

Lemma keeps_throw (A : Type) (error : Thrown) : keeps v (@throw A error).
Proof. intros o s Hs. split; [exact Hs|]. exists []. rewrite app_nil_r. auto. Qed.

Lemma keeps_call (c : Call) : work v c -> keeps v (call c).
Proof. intros Hc o s Hs. split; [exact Hs|]. exists [c]. auto. Qed.

Lemma keeps_await (A : Type) (c : Call) (answer : Answers -> nat -> Thrown + A) :
  work v c -> keeps v (await c answer).
Proof. intros Hc o s Hs. split; [exact Hs|]. exists [c]. auto. Qed.

Lemma keeps_bind (A B : Type) (m : M A) (k : A -> M B) :
  keeps v m -> (forall a, keeps v (k a)) -> keeps v (bind m k).
Proof.
  intros Hm Hk o s Hs. unfold bind.
  destruct (Hm o s Hs) as (Hpage & added & Hcalls & Hwork).
  destruct (m o s) as [[a|error] s']; cbn in *.
  - destruct (Hk a o s' Hpage) as (Hpage' & added' & Hcalls' & Hwork').
    split; [exact Hpage'|]. exists (added ++ added').
    rewrite Hcalls', Hcalls, app_assoc. split; [reflexivity|].
    apply Forall_app. auto.
  - split; [exact Hpage|]. exists added. auto.
Qed.

Lemma keeps_tryCatch (A : Type) (body : M A) (handler : Thrown -> M A) :
  keeps v body -> (forall error, keeps v (handler error)) -> keeps v (tryCatch body handler).
Proof.
  intros Hm Hk o s Hs. unfold tryCatch.
  destruct (Hm o s Hs) as (Hpage & added & Hcalls & Hwork).
  destruct (body o s) as [[a|error] s']; cbn in *.
  - split; [exact Hpage|]. exists added. auto.
  - destruct (Hk error o s' Hpage) as (Hpage' & added' & Hcalls' & Hwork').
    split; [exact Hpage'|]. exists (added ++ added').
    rewrite Hcalls', Hcalls, app_assoc. split; [reflexivity|].
    apply Forall_app. auto.
Qed.

Lemma keeps_readPage (B : Type) (k : option Page -> M B) :
  keeps v (k v) -> keeps v (bind readPage k).
Proof.
  intros Hk o s Hs. unfold bind, readPage. rewrite Hs. apply Hk, Hs.
Qed.

Lemma keeps_retryLoop (T : Type) (operation : M T) (maxRetries : Z) (remaining : nat) :
  keeps v operation ->
  forall attempt delay lastError,
    keeps v (retryLoop operation remaining attempt maxRetries delay lastError).
Proof.
  intros Hop. induction remaining as [|remaining IH]; intros attempt delay lastError.
  - apply keeps_throw.
  - cbn [retryLoop]. apply keeps_tryCatch; [exact Hop|]. intros error.
    destruct (attempt <? maxRetries); [|apply IH].
    apply keeps_bind; [apply keeps_call; cbn; discriminate|]. intros _. apply IH.
Qed.

Lemma keeps_retryOperation (T : Type) (operation : M T) (maxRetries delay : Z) :
  keeps v operation -> keeps v (retryOperation operation maxRetries delay).
Proof. intros Hop. apply keeps_retryLoop, Hop. Qed.

Lemma keeps_convertHtmlToPdf_catch (error : Thrown) :
  keeps v (convertHtmlToPdf_catch error).
Proof.
  unfold convertHtmlToPdf_catch.
  destruct error; cbn; repeat break_match; apply keeps_throw.
Qed.

Lemma keeps_convertUrlToPdf_catch (error : Thrown) :
  keeps v (convertUrlToPdf_catch error).
Proof.
  unfold convertUrlToPdf_catch.
  destruct error; cbn; repeat break_match; try apply keeps_throw;
    (apply keeps_bind; [apply keeps_call; cbn; discriminate | intros _; apply keeps_throw]).
Qed.
End Keeps.

(** Closes [keeps] goals by the structure of the computation. *)
Ltac keeps_tac :=
  repeat first
    [ apply keeps_ret
    | apply keeps_throw
    | apply keeps_retryOperation
    | apply keeps_readPage
    | apply keeps_tryCatch; [|intros ?]
    | apply keeps_bind; [|intros ?]
    | apply keeps_call; cbn; try discriminate; intros ? [= <-]; reflexivity
    | apply keeps_await; cbn; try discriminate; intros ? [= <-]; reflexivity
    | break_match ].

Lemma keeps_generatePdf (p : Page) (input : option string) :
  keeps (Some p) (generatePdf input).
Proof. unfold generatePdf. keeps_tac. Qed.

Lemma keeps_navigate (p : Page) (input : string) : keeps (Some p) (navigate input).
Proof. unfold navigate. keeps_tac. Qed.

Lemma keeps_convertHtmlToPdf_withPage (html : string) (p : Page) :
  keeps (Some p) (convertHtmlToPdf_withPage html p).
Proof.
  unfold convertHtmlToPdf_withPage.
  repeat (apply keeps_bind; [|intros ?]);
    try (apply keeps_await; cbn; intros ? [= <-]; reflexivity).
  - apply keeps_retryOperation, keeps_generatePdf.
  - apply keeps_ret.
Qed.

Lemma keeps_convertUrlToPdf_withPage (input : string) (p : Page) :
  keeps (Some p) (convertUrlToPdf_withPage input p).
Proof.
  unfold convertUrlToPdf_withPage.
  repeat (apply keeps_bind; [|intros ?]);
    try (apply keeps_await; cbn; intros ? [= <-]; reflexivity).
  - apply keeps_retryOperation, keeps_navigate.
  - apply keeps_retryOperation, keeps_generatePdf.
  - apply keeps_ret.
Qed.

(** The log of a conversion whose input passed validation: the page is
    acquired first and, if there is one, released last, just before the
    metrics are closed. *)
Lemma conversion_with_page (timer : string) (withPage : Page -> M Bytes)
    (catch : Thrown -> M Bytes) (o : Answers) :
  (forall p, keeps (Some p) (withPage p)) ->
  (forall v error, keeps v (catch error)) ->
  let s :=
    snd (tryFinally
           (tryCatch
              (let* p := await GetPage getPage_answer in writePage p ;; withPage p)
              catch)
           (releasePage timer) o (mkFrame [StartConversion timer] None)) in
  match getPage_answer o 1%nat with
  | inr p =>
      exists middle,
        calls s = StartConversion timer :: GetPage
                    :: middle ++ [ClosePage p; EndConversion timer "success"]
        /\ Forall (work (Some p)) middle
  | inl _ =>
      exists after,
        calls s = StartConversion timer :: GetPage
                    :: after ++ [EndConversion timer "success"]
        /\ Forall (work None) after
  end.
Proof.
  intros HwithPage Hcatch.
  unfold tryFinally, tryCatch, releasePage, bind, await, writePage, readPage, call, ret,
    logCall. cbn.
  destruct (getPage_answer o 1%nat) as [error|p].
  - destruct (Hcatch None error o (mkFrame [StartConversion timer; GetPage] None) eq_refl)
      as (Hpage & after & Hcalls & Hwork).
    destruct (catch error o _) as [outcome s1]. cbn in *. rewrite Hpage. cbn.
    exists after. rewrite Hcalls. auto.
  - destruct (HwithPage p o (mkFrame [StartConversion timer; GetPage] (Some p)) eq_refl)
      as (Hpage & middle & Hcalls & Hwork).
    destruct (withPage p o _) as [[pdf|error] s1]; cbn in *.
    + rewrite Hpage. cbn. exists middle. rewrite Hcalls. cbn. rewrite <- app_assoc. auto.
    + destruct (Hcatch (Some p) error o s1 Hpage) as (Hpage' & more & Hcalls' & Hwork').
      destruct (catch error o s1) as [outcome s2]. cbn in *. rewrite Hpage'. cbn.
      exists (middle ++ more). rewrite Hcalls', Hcalls. cbn. rewrite <- !app_assoc.
      split; [reflexivity|]. apply Forall_app. auto.
Qed.

Lemma poolCalls_work (v : option Page) (log : list Call) :
  Forall (work v) log -> poolCalls log = [].
Proof.
  induction 1 as [|c log Hc _ IH]; [reflexivity|]. unfold poolCalls in *. cbn.
  destruct c; cbn in *; try contradiction; exact IH.
Qed.

Lemma poolCalls_app (l1 l2 : list Call) : poolCalls (l1 ++ l2) = poolCalls l1 ++ poolCalls l2.
Proof. apply filter_app. Qed.

Lemma pageOf_work (v : option Page) (log : list Call) (c : Call) (q : Page) :
  Forall (work v) log -> In c log -> pageOf c = Some q -> v = Some q.
Proof.
  intros Hwork Hin Hq. rewrite Forall_forall in Hwork. specialize (Hwork c Hin).
  destruct c; cbn in *; try contradiction; try discriminate; auto.
Qed.

(** What the theorems on the release discipline state, from the shape of
    the log. *)
Lemma release_discipline (timer : string) (o : Answers) (log : list Call) :
  match getPage_answer o 1%nat with
  | inr p =>
      exists middle,
        log = StartConversion timer :: GetPage
                :: middle ++ [ClosePage p; EndConversion timer "success"]
        /\ Forall (work (Some p)) middle
  | inl _ =>
      exists after,
        log = StartConversion timer :: GetPage :: after ++ [EndConversion timer "success"]
        /\ Forall (work None) after
  end ->
  poolCalls log = GetPage :: match getPage_answer o 1%nat with
                             | inr p => [ClosePage p]
                             | inl _ => []
                             end
  /\ (forall c q, In c log -> pageOf c = Some q -> getPage_answer o 1%nat = inr q)
  /\ (forall p, getPage_answer o 1%nat = inr p ->
        exists work, log = work ++ [ClosePage p; EndConversion timer "success"]).
Proof.
  destruct (getPage_answer o 1%nat) as [error|p].
  - intros (after & -> & Hwork). split; [|split].
    + change (StartConversion timer :: GetPage :: after ++ [EndConversion timer "success"])
        with ([StartConversion timer; GetPage] ++ after ++ [EndConversion timer "success"]).
      rewrite !poolCalls_app, (poolCalls_work Hwork). reflexivity.
    + intros c q [<-|[<-|Hin]] Hq; try discriminate.
      apply in_app_or in Hin. destruct Hin as [Hin|[<-|[]]]; [|discriminate].
      pose proof (@pageOf_work _ _ _ _ Hwork Hin Hq). discriminate.
    + discriminate.
  - intros (middle & -> & Hwork). split; [|split].
    + change (StartConversion timer :: GetPage
                :: middle ++ [ClosePage p; EndConversion timer "success"])
        with ([StartConversion timer; GetPage] ++ middle
              ++ [ClosePage p; EndConversion timer "success"]).
      rewrite !poolCalls_app, (poolCalls_work Hwork). reflexivity.
    + intros c q [<-|[<-|Hin]] Hq; try discriminate.
      apply in_app_or in Hin. destruct Hin as [Hin|[<-|[<-|[]]]]; try discriminate.
      * pose proof (@pageOf_work _ _ _ _ Hwork Hin Hq) as Heq.
        injection Heq as ->. reflexivity.
      * cbn in Hq. injection Hq as ->. reflexivity.
    + intros p0 [= <-].
      exists (StartConversion timer :: GetPage :: middle). reflexivity.
Qed.

Lemma convertHtmlToPdf_log (html : string) (o : Answers) :
  (html =? EmptyString)%string = false ->
  snd (invoke (convertHtmlToPdf html) o)
  = calls (snd (tryFinally
                  (tryCatch
                     (let* p := await GetPage getPage_answer in
                      writePage p ;; convertHtmlToPdf_withPage html p)
                     convertHtmlToPdf_catch)
                  (releasePage "html") o (mkFrame [StartConversion "html"] None))).
Proof.
  intros Hhtml. unfold invoke, convertHtmlToPdf. rewrite Hhtml.
  match goal with
  | |- snd (let (_, _) := ?X in _) = calls (snd ?Y) => change X with Y; destruct Y
  end. reflexivity.
Qed.

Lemma convertUrlToPdf_log (input : string) (o : Answers) :
  newURL o input = true ->
  snd (invoke (convertUrlToPdf input) o)
  = calls (snd (tryFinally
                  (tryCatch
                     (let* p := await GetPage getPage_answer in
                      writePage p ;; convertUrlToPdf_withPage input p)
                     convertUrlToPdf_catch)
                  (releasePage "url") o (mkFrame [StartConversion "url"] None))).
Proof.
  intros Hurl. unfold invoke, convertUrlToPdf.
  match goal with
  | |- snd (let (_, _) := ?X in _) = calls (snd ?Y) =>
      assert (Heq : X = Y); [|rewrite Heq; destruct Y; reflexivity]
  end.
  unfold bind at 1. unfold call at 1. cbn [logCall calls pageVar app].
  unfold tryFinally, tryCatch. unfold bind at 1. unfold parseURL at 1.
  rewrite Hurl. reflexivity.
Qed.

(** ** The protocol of the pool *)

(** X11.  [convertHtmlToPdf] keeps the protocol of the pool on every
    path.  It calls [getPage] once, unless the input is empty, and
    [closePage] exactly when [getPage] gave it a page, once and on that
    page; every operation on a page is on that page; and the release is
    the last thing it does before closing the metrics. *)
Theorem convertHtmlToPdf_releases_the_page_it_acquired (html : string) (o : Answers) :
  let log := snd (invoke (convertHtmlToPdf html) o) in
  poolCalls log =
    (if (html =? EmptyString)%string then []
     else GetPage :: match getPage_answer o 1%nat with
                     | inr p => [ClosePage p]
                     | inl _ => []
                     end)
  /\ (forall c q, In c log -> pageOf c = Some q ->
        (html =? EmptyString)%string = false /\ getPage_answer o 1%nat = inr q)
  /\ (forall p, (html =? EmptyString)%string = false -> getPage_answer o 1%nat = inr p ->
        exists work, log = work ++ [ClosePage p; EndConversion "html" "success"]).
Proof.
  destruct (html =? EmptyString)%string eqn:Hhtml.
  - unfold invoke, convertHtmlToPdf. rewrite Hhtml. cbn.
    split; [reflexivity|]. split; [|discriminate].
    intros c q [<-|[<-|[<-|[]]]]; discriminate.
  - pose proof (@conversion_with_page "html" (convertHtmlToPdf_withPage html)
                  convertHtmlToPdf_catch o
                  (keeps_convertHtmlToPdf_withPage html)
                  (fun v error => @keeps_convertHtmlToPdf_catch v error)) as Hlog.
    apply release_discipline in Hlog. destruct Hlog as (H1 & H2 & H3).
    cbv zeta. rewrite (@convertHtmlToPdf_log html o Hhtml).
    split; [exact H1|]. split; [|intros p _; apply H3].
    intros c q Hin Hq. split; [reflexivity|]. eapply H2; eassumption.
Qed.

(** X12.  [convertUrlToPdf] keeps the protocol of the pool on every
    path: one [getPage] unless the URL does not parse, one [closePage]
    exactly when a page was obtained and on that page, every page
    operation on that page, the release last before the metrics are
    closed. *)
Theorem convertUrlToPdf_releases_the_page_it_acquired (input : string) (o : Answers) :
  let log := snd (invoke (convertUrlToPdf input) o) in
  poolCalls log =
    (if newURL o input
     then GetPage :: match getPage_answer o 1%nat with
                     | inr p => [ClosePage p]
                     | inl _ => []
                     end
     else [])
  /\ (forall c q, In c log -> pageOf c = Some q ->
        newURL o input = true /\ getPage_answer o 1%nat = inr q)
  /\ (forall p, newURL o input = true -> getPage_answer o 1%nat = inr p ->
        exists work, log = work ++ [ClosePage p; EndConversion "url" "success"]).
Proof.
  destruct (newURL o input) eqn:Hurl.
  - pose proof (@conversion_with_page "url" (convertUrlToPdf_withPage input)
                  convertUrlToPdf_catch o
                  (keeps_convertUrlToPdf_withPage input)
                  (fun v error => @keeps_convertUrlToPdf_catch v error)) as Hlog.
    apply release_discipline in Hlog. destruct Hlog as (H1 & H2 & H3).
    cbv zeta. rewrite (@convertUrlToPdf_log input o Hurl).
    split; [exact H1|]. split; [|intros p _; apply H3].
    intros c q Hin Hq. split; [reflexivity|]. eapply H2; eassumption.
  - unfold invoke, convertUrlToPdf, tryFinally, tryCatch, bind, parseURL, call. cbn.
    rewrite Hurl. cbn.
    split; [reflexivity|]. split; [|discriminate].
    intros c q [<-|[<-|[<-|[]]]]; discriminate.
Qed.

(** ** Outcomes *)

(** What a catch block throws: a [BadRequestException], unless the error
    it caught has no description. *)
Lemma convertHtmlToPdf_catch_throws (error : Thrown) (o : Answers) (s : Frame) :
  exists thrown,
    fst (convertHtmlToPdf_catch error o s) = Threw thrown
    /\ ((exists message, thrown = BadRequestException message)
        \/ (describeError error = None /\ thrown = includesOfUndefined)).
Proof.
  unfold convertHtmlToPdf_catch, throw.
  destruct error as [message|message context|message|[|] text [json|]]; cbn;
    repeat break_match; cbn; eauto 6.
Qed.

Lemma convertUrlToPdf_catch_throws (error : Thrown) (o : Answers) (s : Frame) :
  exists thrown,
    fst (convertUrlToPdf_catch error o s) = Threw thrown
    /\ ((exists message, thrown = BadRequestException message)
        \/ (describeError error = None /\ thrown = includesOfUndefined)).
Proof.
  unfold convertUrlToPdf_catch, throw, bind, call.
  destruct error as [message|message context|message|[|] text [json|]]; cbn;
    repeat break_match; cbn; eauto 6.
Qed.

Lemma releasePage_returns (timer : string) (o : Answers) (s : Frame) :
  fst (releasePage timer o s) = Returned tt.
Proof. unfold releasePage, bind, readPage, call, ret. destruct (pageVar s); reflexivity. Qed.

Lemma try_catch_finally_outcome (A : Type) (body : M A) (catch : Thrown -> M A)
    (timer : string) (o : Answers) (s : Frame) :
  (forall error o' s', exists thrown,
      fst (catch error o' s') = Threw thrown
      /\ ((exists message, thrown = BadRequestException message)
          \/ (describeError error = None /\ thrown = includesOfUndefined))) ->
  match fst (tryFinally (tryCatch body catch) (releasePage timer) o s) with
  | Returned a => fst (body o s) = Returned a
  | Threw thrown =>
      (exists message, thrown = BadRequestException message)
      \/ (thrown = includesOfUndefined
          /\ exists error, fst (body o s) = Threw error /\ describeError error = None)
  end.
Proof.
  intros Hcatch. unfold tryFinally, tryCatch.
  destruct (body o s) as [[a|error] s1]; cbv beta iota.
  - pose proof (releasePage_returns timer o s1) as Hrel.
    destruct (releasePage timer o s1) as [r s2]. cbn [fst] in *. subst r. reflexivity.
  - destruct (Hcatch error o s1) as (thrown & Hthrown & Hkind).
    destruct (catch error o s1) as [outcome s2]. cbn [fst] in Hthrown. subst outcome.
    pose proof (releasePage_returns timer o s2) as Hrel.
    destruct (releasePage timer o s2) as [r s3]. cbn [fst] in *. subst r. cbn.
    destruct Hkind as [Hbad|[Hnone ->]]; [left; exact Hbad|].
    right. split; [reflexivity|]. exists error. auto.
Qed.

(** What [retryOperation] throws is a plain [Error]. *)
Lemma retryLoop_throws_JsError (T : Type) (operation : M T) (maxRetries : Z)
    (remaining : nat) :
  forall attempt delay message o s error,
    fst (retryLoop operation remaining attempt maxRetries delay (JsError message) o s)
    = Threw error ->
    exists message', error = JsError message'.
Proof.
  induction remaining as [|remaining IH]; intros attempt delay message o s error.
  - cbn. intros [= <-]. eauto.
  - cbn [retryLoop]. unfold tryCatch.
    destruct (operation o s) as [[a|e] s1]; [discriminate|].
    destruct (attempt <? maxRetries).
    + unfold bind, call. apply IH.
    + apply IH.
Qed.

Lemma retryOperation_throws_JsError (T : Type) (operation : M T) (maxRetries delay : Z)
    (o : Answers) (s : Frame) (error : Thrown) :
  fst (retryOperation operation maxRetries delay o s) = Threw error ->
  exists message, error = JsError message.
Proof. apply retryLoop_throws_JsError. Qed.

(** An error without description that leaves the try block of
    [convertUrlToPdf] is what [getPage] or the [waitForPageLoad] after
    the navigation rejected with. *)
Lemma convertUrlToPdf_try_throws (input : string) (o : Answers) (s : Frame)
    (error : Thrown) :
  calls s = [StartConversion "url"] ->
  fst ((let* p := await GetPage getPage_answer in
        writePage p ;; convertUrlToPdf_withPage input p) o s) = Threw error ->
  describeError error = None ->
  getPage_answer o 1%nat = inl error
  \/ exists n, waitForPageLoad_answer o n = Some error.
Proof.
  intros Hs Hthrew Hnone.
  unfold bind at 1 in Hthrew. unfold await at 1 in Hthrew. rewrite Hs in Hthrew.
  cbn [length] in Hthrew.
  destruct (getPage_answer o 1%nat) as [e|p]; [left; cbn in Hthrew; congruence|].
  right. unfold bind at 1 in Hthrew. unfold writePage at 1 in Hthrew.
  unfold convertUrlToPdf_withPage in Hthrew.
  unfold bind at 1 in Hthrew.
  destruct (retryOperation (navigate input) 3 1000 o _) as [[response|e] s1] eqn:Hnav.
  - unfold bind at 1 in Hthrew. unfold await at 1 in Hthrew. unfold unitAnswer in Hthrew.
    destruct (waitForPageLoad_answer o (length (calls s1))) as [e|] eqn:Hwait.
    + cbn in Hthrew. injection Hthrew as ->. eauto.
    + unfold bind at 1 in Hthrew.
      destruct (retryOperation (generatePdf (Some input)) 2 500 o _) as [[pdf|e] s2] eqn:Hpdf.
      * discriminate.
      * cbn in Hthrew. injection Hthrew as ->.
        apply (f_equal fst) in Hpdf. cbn [fst] in Hpdf.
        apply retryOperation_throws_JsError in Hpdf. destruct Hpdf as [m ->]. discriminate.
  - cbn in Hthrew. injection Hthrew as ->.
    apply (f_equal fst) in Hnav. cbn [fst] in Hnav.
    apply retryOperation_throws_JsError in Hnav. destruct Hnav as [m ->]. discriminate.
Qed.

(** Unfolds a conversion down to the answers it asks for. *)
Ltac unfold_method :=
  unfold invoke, convertHtmlToPdf, convertUrlToPdf, convertHtmlToPdf_withPage,
    convertUrlToPdf_withPage, convertHtmlToPdf_catch, convertUrlToPdf_catch,
    releasePage, generatePdf, navigate, retryOperation, parseURL, readPage, writePage,
    unitAnswer;
  change (Z.to_nat 2) with 2%nat; change (Z.to_nat 3) with 3%nat;
  cbn [retryLoop];
  unfold tryFinally, tryCatch, bind, ret, throw, call, await, logCall.

Ltac case_by_case := repeat (break_match; cbn).

(** Closes a goal on what a conversion threw. *)
Ltac thrown_tac :=
  first
    [ solve [eauto]
    | right; split; [reflexivity|]; eexists; (split; [|solve [eauto]]); reflexivity ].

(** X13.  [convertHtmlToPdf] either returns the bytes of the first
    [page.pdf()] that succeeded, out of two tries, or throws.  What it
    throws is a [BadRequestException], with one exception: when
    [getPage], [setContent] or [waitForPageLoad] rejects with an object
    that is no [Error] and for which [JSON.stringify] returns undefined,
    [errorMessage.includes] throws inside the catch block and a
    [TypeError] leaves the method, as it does when [getPage] rejects so.
    Empty input is rejected with "Invalid HTML content" before the pool
    is asked for anything. *)
Theorem convertHtmlToPdf_outcomes (html : string) (o : Answers) :
  match fst (invoke (convertHtmlToPdf html) o) with
  | Returned pdf =>
      pdf_answer o 4%nat = inr pdf
      \/ ((exists e, pdf_answer o 4%nat = inl e) /\ pdf_answer o 6%nat = inr pdf)
  | Threw error =>
      (exists message, error = BadRequestException message)
      \/ (error = includesOfUndefined
          /\ exists rejection,
               describeError rejection = None
               /\ (getPage_answer o 1%nat = inl rejection
                   \/ setContent_answer o 2%nat = Some rejection
                   \/ waitForPageLoad_answer o 3%nat = Some rejection))
  end
  /\ (forall text,
        (html =? EmptyString)%string = false ->
        getPage_answer o 1%nat = inl (NotAnError true text None) ->
        invoke (convertHtmlToPdf html) o
        = (Threw includesOfUndefined,
           [StartConversion "html"; GetPage; EndConversion "html" "success"]))
  /\ ((html =? EmptyString)%string = true ->
      invoke (convertHtmlToPdf html) o
      = (Threw (BadRequestException "Invalid HTML content"),
         [StartConversion "html"; RecordError "html" "Invalid HTML content";
          EndConversion "html" "success"])).
Proof.
  split; [|split].
  - unfold_method. cbn.
    destruct (html =? EmptyString)%string; cbn; [eauto|].
    destruct (getPage_answer o 1%nat) as [e|p] eqn:Hpage; cbn.
    { destruct e as [message|message context|message|[|] text [json|]]; cbn;
        case_by_case; thrown_tac. }
    destruct (setContent_answer o 2%nat) as [e|] eqn:Hcontent; cbn.
    { destruct e as [message|message context|message|[|] text [json|]]; cbn;
        case_by_case; thrown_tac. }
    destruct (waitForPageLoad_answer o 3%nat) as [e|] eqn:Hwait; cbn.
    { destruct e as [message|message context|message|[|] text [json|]]; cbn;
        case_by_case; thrown_tac. }
    case_by_case; thrown_tac.
  - intros text Hhtml Hpage. unfold_method. cbn.
    rewrite Hhtml. cbn. rewrite Hpage. reflexivity.
  - intros Hhtml. unfold_method. cbn. rewrite Hhtml. reflexivity.
Qed.

(** X14.  [convertUrlToPdf] returns only for a URL that parses.  What it
    throws is a [BadRequestException], with one exception: when [getPage]
    or the [waitForPageLoad] that follows the navigation rejects with an
    object that is no [Error] and for which [JSON.stringify] returns
    undefined, [errorMessage.includes] throws inside the catch block and
    a [TypeError] leaves the method, without the error being recorded.  A
    URL that does not parse is rejected with "Invalid URL format" before
    the pool is asked for anything. *)
Theorem convertUrlToPdf_outcomes (input : string) (o : Answers) :
  match fst (invoke (convertUrlToPdf input) o) with
  | Returned _ => newURL o input = true
  | Threw error =>
      (exists message, error = BadRequestException message)
      \/ (error = includesOfUndefined
          /\ exists rejection,
               describeError rejection = None
               /\ (getPage_answer o 1%nat = inl rejection
                   \/ exists n, waitForPageLoad_answer o n = Some rejection))
  end
  /\ (forall text,
        newURL o input = true ->
        getPage_answer o 1%nat = inl (NotAnError true text None) ->
        invoke (convertUrlToPdf input) o
        = (Threw includesOfUndefined,
           [StartConversion "url"; GetPage; EndConversion "url" "success"]))
  /\ (newURL o input = false ->
      invoke (convertUrlToPdf input) o
      = (Threw (BadRequestException "Invalid URL format"),
         [StartConversion "url"; RecordError "url" "Invalid URL format";
          EndConversion "url" "success"])).
Proof.
  split; [|split].
  - unfold invoke, convertUrlToPdf. unfold bind at 1. unfold call at 1.
    match goal with
    | |- context [tryFinally (tryCatch ?body ?catch) (releasePage ?timer) ?o' ?s'] =>
        pose proof (@try_catch_finally_outcome _ body catch timer o' s'
                      convertUrlToPdf_catch_throws) as H;
        destruct (tryFinally (tryCatch body catch) (releasePage timer) o' s')
          as [[pdf|error] s1]
    end; cbn [fst] in *.
    + unfold bind at 1 in H. unfold parseURL at 1 in H.
      destruct (newURL o input); [reflexivity|]. cbn in H. discriminate.
    + destruct H as [Hbad|[-> (rejection & Hthrew & Hnone)]]; [left; exact Hbad|].
      right. split; [reflexivity|]. exists rejection. split; [exact Hnone|].
      unfold bind at 1 in Hthrew. unfold parseURL at 1 in Hthrew.
      destruct (newURL o input).
      * unfold bind at 1 in Hthrew. unfold ret at 1 in Hthrew.
        eapply convertUrlToPdf_try_throws; [|exact Hthrew|exact Hnone]. reflexivity.
      * cbn in Hthrew. injection Hthrew as <-. discriminate.
  - intros text Hurl Hpage. unfold_method. cbn.
    rewrite Hurl. cbn. rewrite Hpage. reflexivity.
  - intros Hurl.
    unfold invoke, convertUrlToPdf, tryFinally, tryCatch, bind, parseURL, call. cbn.
    rewrite Hurl. reflexivity.
Qed.

(** X15.  When [getPage] rejects, for instance because the pool has no
    healthy browser, the caller of [convertHtmlToPdf] gets a
    [BadRequestException] quoting the message of the pool, and nothing is
    released since nothing was acquired. *)
Theorem convertHtmlToPdf_reports_pool_failure
    (html : string) (o : Answers) (message : string) :
  (html =? EmptyString)%string = false ->
  getPage_answer o 1%nat = inl (JsError message) ->
  includes "net::ERR_CONNECTION_TIMED_OUT" message = false ->
  includes "net::ERR_FAILED" message = false ->
  includes "net::ERR_ABORTED" message = false ->
  invoke (convertHtmlToPdf html) o
  = (Threw (BadRequestException ("Failed to convert HTML to PDF: " ++ message)),
     [StartConversion "html"; GetPage; EndConversion "html" "success"]).
Proof.
  intros Hhtml Hpage H1 H2 H3. unfold_method. cbn.
  rewrite Hhtml. cbn. rewrite Hpage. cbn. rewrite H1, H2, H3. reflexivity.
Qed.

Lemma convertHtmlToPdf_reports_pool_failure_witness :
  invoke (convertHtmlToPdf "<p>hello</p>") noBrowser
  = (Threw (BadRequestException
              "Failed to convert HTML to PDF: No healthy browser instances available"),
     [StartConversion "html"; GetPage; EndConversion "html" "success"]).
Proof.
  apply (@convertHtmlToPdf_reports_pool_failure "<p>hello</p>" noBrowser
           "No healthy browser instances available"); reflexivity.
Defined.



(** X17.  [convertUrlToPdf] treats a response whose status is below 200
    or at least 400 like any failed navigation: it navigates three times,
    pausing 1000 and 2000 ms, then reports the last status under a doubled
    "Navigation failed: " prefix, records the error and releases the
    page. *)
Theorem convertUrlToPdf_retries_http_errors
    (input : string) (o : Answers) (p : Page) (r1 r2 r3 : Response) :
  newURL o input = true ->
  getPage_answer o 1%nat = inr p ->
  goto_answer o 2%nat = inr (Some r1) ->
  goto_answer o 4%nat = inr (Some r2) ->
  goto_answer o 6%nat = inr (Some r3) ->
  (status r1 <? 200) || (status r1 >=? 400) = true ->
  (status r2 <? 200) || (status r2 >=? 400) = true ->
  (status r3 <? 200) || (status r3 >=? 400) = true ->
  let errorMessage :=
    ("Navigation failed: Navigation failed: HTTP " ++ numberToString (status r3)
     ++ " - " ++ statusText r3)%string in
  includes "net::ERR_NAME_NOT_RESOLVED" errorMessage = false ->
  includes "net::ERR_CONNECTION_TIMED_OUT" errorMessage = false ->
  includes "net::ERR_CONNECTION_REFUSED" errorMessage = false ->
  includes "socket hang up" errorMessage = false ->
  invoke (convertUrlToPdf input) o
  = (Threw (BadRequestException ("Failed to convert URL to PDF: " ++ errorMessage)),
     [StartConversion "url"; GetPage; Goto p input; SetTimeout 1000; Goto p input;
      SetTimeout 2000; Goto p input; RecordError "url" errorMessage; ClosePage p;
      EndConversion "url" "success"]).
Proof.
  intros Hurl Hpage Hg1 Hg2 Hg3 Hs1 Hs2 Hs3 errorMessage H1 H2 H3 H4.
  unfold_method. cbn.
  rewrite Hurl. cbn. rewrite Hpage. cbn. rewrite Hg1. cbn. rewrite Hs1. cbn.
  rewrite Hg2. cbn. rewrite Hs2. cbn. rewrite Hg3. cbn. rewrite Hs3. cbn.
  subst errorMessage. cbn in H1, H2, H3, H4. rewrite H1, H2, H3, H4. reflexivity.
Qed.

Lemma convertUrlToPdf_retries_http_errors_witness :
  invoke (convertUrlToPdf "https://example.com/missing") notFound
  = (Threw (BadRequestException
              "Failed to convert URL to PDF: Navigation failed: Navigation failed: HTTP 404 - Not Found"),
     [StartConversion "url"; GetPage; Goto 0%nat "https://example.com/missing";
      SetTimeout 1000; Goto 0%nat "https://example.com/missing";
      SetTimeout 2000; Goto 0%nat "https://example.com/missing";
      RecordError "url" "Navigation failed: Navigation failed: HTTP 404 - Not Found";
      ClosePage 0%nat; EndConversion "url" "success"]).
Proof.
  apply (@convertUrlToPdf_retries_http_errors "https://example.com/missing" notFound 0%nat
           (mkResponse 404 "Not Found" None) (mkResponse 404 "Not Found" None)
           (mkResponse 404 "Not Found" None)); reflexivity.
Defined.

(** ** Metrics *)

Lemma work_inner (v : option Page) (log : list Call) :
  Forall (work v) log -> Forall inner log.
Proof.
  apply Forall_impl. intros c Hc. destruct c; cbn in *; auto.
Qed.

Lemma record_inner (log : list Call) :
  Forall inner log ->
  forall m,
    activeConversions (fold_left record log m) = activeConversions m
    /\ pdfConversionTotal (fold_left record log m) = pdfConversionTotal m
    /\ pdfConversionDuration (fold_left record log m) = pdfConversionDuration m.
Proof.
  induction 1 as [|c log Hc _ IH]; intros m; [auto|]. cbn [fold_left].
  destruct (IH (record m c)) as (H1 & H2 & H3). rewrite H1, H2, H3.
  destruct c; cbn in *; try contradiction; auto.
Qed.

Lemma record_conversion (timer : string) (log : list Call) (m : Metrics) :
  Forall inner log ->
  let m' := fold_left record (StartConversion timer :: log ++ [EndConversion timer "success"]) m in
  activeConversions m' = activeConversions m
  /\ pdfConversionTotal m' = pdfConversionTotal m ++ [("total", "success")]%string
  /\ pdfConversionDuration m' = pdfConversionDuration m ++ [timer].
Proof.
  intros Hinner. cbn [fold_left]. rewrite fold_left_app. cbn [fold_left record].
  destruct (record_inner Hinner (startConversion timer m)) as (H1 & H2 & H3).
  unfold endConversion. cbn. rewrite H1, H2, H3. cbn. repeat split. lia.
Qed.

Lemma conversion_with_page_inner (timer : string) (o : Answers) (log : list Call) :
  match getPage_answer o 1%nat with
  | inr p =>
      exists middle,
        log = StartConversion timer :: GetPage
                :: middle ++ [ClosePage p; EndConversion timer "success"]
        /\ Forall (work (Some p)) middle
  | inl _ =>
      exists after,
        log = StartConversion timer :: GetPage :: after ++ [EndConversion timer "success"]
        /\ Forall (work None) after
  end ->
  exists between,
    log = StartConversion timer :: between ++ [EndConversion timer "success"]
    /\ Forall inner between.
Proof.
  destruct (getPage_answer o 1%nat) as [error|p].
  - intros (after & -> & Hwork). exists (GetPage :: after). split; [reflexivity|].
    constructor; [exact I|]. eapply work_inner, Hwork.
  - intros (middle & -> & Hwork). exists (GetPage :: middle ++ [ClosePage p]).
    split; [cbn; rewrite <- app_assoc; reflexivity|].
    constructor; [exact I|]. apply Forall_app. split; [eapply work_inner, Hwork|].
    repeat constructor.
Qed.

(** X18.  Every conversion leaves the gauge of active conversions where
    it found it, observes one duration under its own type and counts one
    conversion, labelled type "total" and status "success", whether it
    returned or threw. *)
Theorem conversions_balance_the_metrics (o : Answers) (m : Metrics) :
  (forall html,
     let m' := fold_left record (snd (invoke (convertHtmlToPdf html) o)) m in
     activeConversions m' = activeConversions m
     /\ pdfConversionTotal m' = pdfConversionTotal m ++ [("total", "success")]%string
     /\ pdfConversionDuration m' = pdfConversionDuration m ++ ["html"%string])
  /\ (forall input,
        let m' := fold_left record (snd (invoke (convertUrlToPdf input) o)) m in
        activeConversions m' = activeConversions m
        /\ pdfConversionTotal m' = pdfConversionTotal m ++ [("total", "success")]%string
        /\ pdfConversionDuration m' = pdfConversionDuration m ++ ["url"%string]).
Proof.
  split.
  - intros html. destruct (html =? EmptyString)%string eqn:Hhtml.
    + unfold invoke, convertHtmlToPdf. rewrite Hhtml. cbn. repeat split. lia.
    + rewrite (@convertHtmlToPdf_log html o Hhtml).
      pose proof (@conversion_with_page "html" (convertHtmlToPdf_withPage html)
                    convertHtmlToPdf_catch o
                    (keeps_convertHtmlToPdf_withPage html)
                    (fun v error => @keeps_convertHtmlToPdf_catch v error)) as Hlog.
      apply conversion_with_page_inner in Hlog. destruct Hlog as (between & -> & Hinner).
      apply record_conversion, Hinner.
  - intros input. destruct (newURL o input) eqn:Hurl.
    + rewrite (@convertUrlToPdf_log input o Hurl).
      pose proof (@conversion_with_page "url" (convertUrlToPdf_withPage input)
                    convertUrlToPdf_catch o
                    (keeps_convertUrlToPdf_withPage input)
                    (fun v error => @keeps_convertUrlToPdf_catch v error)) as Hlog.
      apply conversion_with_page_inner in Hlog. destruct Hlog as (between & -> & Hinner).
      apply record_conversion, Hinner.
    + unfold invoke, convertUrlToPdf, tryFinally, tryCatch, bind, parseURL, call. cbn.
      rewrite Hurl. cbn. repeat split. lia.
Qed.
